(** * Hermes bridge: policy gate, session tracker, outbox, audit ledger
      and CLI output recovery

    A shallow embedding of [src/bridge/hermes_bridge.py].  Module-level
    Python globals ([_policy], [_rate_counts], the Postgres tables) are
    explicit arguments and results; clock readings, subprocess outcomes and
    storage faults are inputs. *)

From Stdlib Require Import QArith Lqa ZArith Lia Ascii String.
From stdpp Require Import gmap strings list fin_maps pretty sorting.

Local Open Scope Z_scope.
Local Open Scope string_scope.
Local Open Scope list_scope.

(** ** Python values shared by the components *)

(** The exception classes that the modelled code can meet. *)
Inductive pyexn :=
  | ValueError | AttributeError | TypeError | KeyError
  | JSONDecodeError | UnicodeDecodeError
  | DatabaseError | OSError | TimeoutError.

(** Result of running a piece of Python that may raise. *)
Inductive exc (A : Type) :=
  | Ok (a : A)
  | Exn (e : pyexn).
Arguments Ok {A} a.
Arguments Exn {A} e.

(** A text is modelled by its bytes in UTF-8, so on ASCII text one
    [ascii] is one character of the [str], and the functions below are the
    Python ones; on a text with other characters they count and compare
    bytes where Python counts and compares characters. *)
Module Py.

Definition dquote : ascii := ascii_of_N 34.
Definition newline : ascii := ascii_of_N 10.
Definition nl : string := String newline EmptyString.

(** [str.isspace] on the ASCII range: TAB..CR, FS..US and the blank. *)
Definition is_space (c : ascii) : bool :=
  let n := N_of_ascii c in
  ((9 <=? n) && (n <=? 13) || (28 <=? n) && (n <=? 32))%N.

Fixpoint lstrip (s : string) : string :=
  match s with
  | String c s' => if is_space c then lstrip s' else s
  | EmptyString => EmptyString
  end.

(** Trailing blanks go; [rstrip] keeps a character when something that is
    not a blank follows it or when it is not a blank itself. *)
Fixpoint rstrip (s : string) : string :=
  match s with
  | String c s' =>
      match rstrip s' with
      | EmptyString => if is_space c then EmptyString else String c EmptyString
      | r => String c r
      end
  | EmptyString => EmptyString
  end.

Definition strip (s : string) : string := rstrip (lstrip s).

(** [s[:n]] for a non-negative [n]. *)
Fixpoint take (n : nat) (s : string) : string :=
  match n, s with
  | S n', String c s' => String c (take n' s')
  | _, _ => EmptyString
  end.

(** [s[n:]] for a non-negative [n]. *)
Fixpoint drop (n : nat) (s : string) : string :=
  match n, s with
  | S n', String _ s' => drop n' s'
  | _, _ => s
  end.

Fixpoint startswith (p s : string) : bool :=
  match p, s with
  | EmptyString, _ => true
  | String a p', String b s' => if Ascii.eqb a b then startswith p' s' else false
  | String _ _, EmptyString => false
  end.

(** [s.find(p)], with [None] for Python's [-1]. *)
Fixpoint find (p s : string) : option nat :=
  if startswith p s then Some 0%nat
  else match s with
       | EmptyString => None
       | String _ s' => S <$> find p s'
       end.

(** [s.split(sep)[0]] for a one-character separator. *)
Fixpoint split_head (sep : ascii) (s : string) : string :=
  match s with
  | EmptyString => EmptyString
  | String c s' => if Ascii.eqb c sep then EmptyString else String c (split_head sep s')
  end.

Definition digit_val (c : ascii) : option Z :=
  let n := N_of_ascii c in
  if ((48 <=? n) && (n <=? 57))%N then Some (Z.of_N n - 48) else None.

(** Digits of a decimal literal, most significant first; one underscore
    is allowed between two digits.  [prev] tells whether the preceding
    character was a digit. *)
Fixpoint int_digits (prev : bool) (acc : Z) (s : string) : option Z :=
  match s with
  | EmptyString => if prev then Some acc else None
  | String c s' =>
      match digit_val c with
      | Some d => int_digits true (10 * acc + d) s'
      | None =>
          if Ascii.eqb c "_" && prev
          then match s' with
               | String c' _ =>
                   match digit_val c' with
                   | Some _ => int_digits false acc s'
                   | None => None
                   end
               | EmptyString => None
               end
          else None
      end
  end.

(** The blanks that [int] skips at both ends of an ASCII text: TAB..CR
    and the blank.  FS..US, which [str.strip] removes, are no blanks for
    [int]. *)
Definition is_int_space (c : ascii) : bool :=
  let n := N_of_ascii c in
  ((9 <=? n) && (n <=? 13) || (n =? 32))%N.

Fixpoint int_lstrip (s : string) : string :=
  match s with
  | String c s' => if is_int_space c then int_lstrip s' else s
  | EmptyString => EmptyString
  end.

Fixpoint int_rstrip (s : string) : string :=
  match s with
  | String c s' =>
      match int_rstrip s' with
      | EmptyString => if is_int_space c then EmptyString else String c EmptyString
      | r => String c r
      end
  | EmptyString => EmptyString
  end.

(** [int(s)] of an ASCII [str] in base ten: surrounding blanks, an
    optional sign, then the digits; anything else raises [ValueError].
    A character outside ASCII is refused as well, which is what [int]
    does unless the character is a digit or a blank of another script. *)
Definition int (s : string) : exc Z :=
  let body := int_rstrip (int_lstrip s) in
  let '(neg, ds) :=
    match body with
    | String "-" r => (true, r)
    | String "+" r => (false, r)
    | _ => (false, body)
    end in
  match ds with
  | String c _ =>
      match digit_val c, int_digits false 0 ds with
      | Some _, Some v => Ok (if neg then - v else v)
      | _, _ => Exn ValueError
      end
  | EmptyString => Exn ValueError
  end.

Definition hex_digit (n : N) : ascii :=
  ascii_of_N (if (n <? 10)%N then 48 + n else 87 + n)%N.

Fixpoint contains_char (c : ascii) (s : string) : bool :=
  match s with
  | EmptyString => false
  | String a s' => Ascii.eqb a c || contains_char c s'
  end.

Fixpoint repr_body (q : ascii) (s : string) : string :=
  match s with
  | EmptyString => EmptyString
  | String c s' =>
      let n := N_of_ascii c in
      let rest := repr_body q s' in
      if Ascii.eqb c q || Ascii.eqb c "\" then String "\" (String c rest)
      else if (n =? 9)%N then "\t" ++ rest
      else if (n =? 10)%N then "\n" ++ rest
      else if (n =? 13)%N then "\r" ++ rest
      else if ((n <? 32) || (126 <? n))%N
           then "\x" ++ String (hex_digit (n / 16)) (String (hex_digit (n mod 16)) rest)
      else String c rest
  end.

(** [repr(s)] of a [str] (ASCII range): single quotes unless the text
    has a single quote and no double quote. *)
Definition repr_str (s : string) : string :=
  let q : ascii := if contains_char "'" s && negb (contains_char dquote s)
                   then dquote else "'"%char in
  String q (repr_body q s ++ String q EmptyString).

Fixpoint join (sep : string) (l : list string) : string :=
  match l with
  | [] => EmptyString
  | [x] => x
  | x :: l' => x ++ sep ++ join sep l'
  end.

(** [repr] of a list of [str]. *)
Definition repr_str_list (l : list string) : string :=
  "[" ++ join ", " (List.map repr_str l) ++ "]".

(** [s.rstrip("/")]. *)
Fixpoint rstrip_slashes (s : string) : string :=
  match s with
  | String c s' =>
      match rstrip_slashes s' with
      | EmptyString => if Ascii.eqb c "/" then EmptyString else String c EmptyString
      | r => String c r
      end
  | EmptyString => EmptyString
  end.

(** [p[:p.rfind("/") + 1]]: the text up to the last slash, that slash
    included; empty when [p] has no slash. *)
Fixpoint upto_last_slash (p : string) : string :=
  match p with
  | String c p' => if contains_char "/" p then String c (upto_last_slash p') else EmptyString
  | EmptyString => EmptyString
  end.

(** [os.path.dirname] of POSIX: the head up to the last slash, without
    its trailing slashes unless it consists of slashes. *)
Definition dirname (p : string) : string :=
  let head := upto_last_slash p in
  match rstrip_slashes head with
  | EmptyString => head
  | stripped => stripped
  end.

(** [os.path.expanduser] of POSIX.  [userhome name] is the home
    directory that the process finds for the user [name], the empty name
    standing for the user of the process ([$HOME], else the password
    entry); a path whose user has none is returned as it is. *)
Definition expanduser (userhome : string -> option string) (path : string) : string :=
  match path with
  | String c rest =>
      if Ascii.eqb c "~" then
        let name := split_head "/" rest in
        match userhome name with
        | Some home =>
            match rstrip_slashes home ++ drop (String.length name) rest with
            | EmptyString => "/"
            | expanded => expanded
            end
        | None => path
        end
      else path
  | EmptyString => path
  end.

End Py.


(** ** Policy document ([_policy], loaded from [hermes_policy.json])

    A key that the JSON file may omit is an [option]; the defaults are the
    ones written at each [.get] in the source. *)

Record agent_limits := {
  calls_per_hour : option Z;
  max_cost_per_call_usd : option Q;
  allowed_targets : option (list string);
  priority_levels : option (list string);
  quiet_hours_exempt : option bool;
}.

(** An entry of the document that [audit_log] or [emit_event] reads
    without a handler around the read: the entry has the type the code
    expects, or it is a value of another type (the file may hold [null], a
    number, a list ...), on which the next step of the code raises. *)
Inductive entry (A : Type) :=
  | Proper (a : A)
  | Improper.
Arguments Proper {A} a.
Arguments Improper {A}.

(** The dictionary under [audit]: the truth value of [log_to_jsonl] and
    the value under [jsonl_path], which [os.path.expanduser] takes only as
    a string. *)
Record audit_section := {
  log_to_jsonl : option bool;
  jsonl_path : option (entry string);
}.

Record policy := {
  per_agent : gmap string agent_limits;
  global_calls_per_hour : option Z;      (* global_limits.calls_per_hour *)
  quiet_hours_start : option string;     (* quiet_hours.start *)
  quiet_hours_end : option string;       (* quiet_hours.end *)
  (* event_webhooks: a dictionary from event types to paths, each path as
     the f-string renders it *)
  event_webhooks : option (entry (gmap string string));
  audit : option (entry audit_section);
}.

(** The dictionary an unconfigured caller receives. *)
Definition default_agent_limits : agent_limits :=
  {| calls_per_hour := Some 5;
     max_cost_per_call_usd := Some (1 # 10)%Q;
     allowed_targets := Some [];
     priority_levels := Some ["low"; "normal"];
     quiet_hours_exempt := None |}.

Definition get_agent_limits (pol : policy) (caller_id : string) : agent_limits :=
  default default_agent_limits (per_agent pol !! caller_id).

(** [load_policy] falls back to the empty document. *)
Definition empty_policy : policy :=
  {| per_agent := ∅; global_calls_per_hour := None;
     quiet_hours_start := None; quiet_hours_end := None;
     event_webhooks := None; audit := None |}.

(** ** Rate limiter ([_rate_counts]) *)

Module Rate.

(** [t > cutoff] on clock readings. *)
Definition newer (cutoff t : Q) : bool := negb (Qle_bool t cutoff).

(** [_rate_counts[caller_id]] of the [defaultdict(list)]. *)
Definition calls_of (rc : gmap string (list Q)) (caller_id : string) : list Q :=
  default [] (rc !! caller_id).

Definition _prune (now : Q) (caller_id : string) (rc : gmap string (list Q))
  : gmap string (list Q) :=
  let cutoff := (now - 3600)%Q in
  <[caller_id := List.filter (newer cutoff) (calls_of rc caller_id)]> rc.

(** [sum(len(v) for v in _rate_counts.values())]. *)
Definition total_calls (rc : gmap string (list Q)) : nat :=
  map_fold (fun _ v acc => (length v + acc)%nat) 0%nat rc.

Definition global_limit (pol : policy) : Z :=
  default 60 (global_calls_per_hour pol).

Definition agent_limit (pol : policy) (caller_id : string) : Z :=
  default 5 (calls_per_hour (get_agent_limits pol caller_id)).

Definition global_reason (limit : Z) : string :=
  "Global rate limit (" ++ pretty limit ++ "/hr) exceeded".

Definition agent_reason (caller_id : string) (limit : Z) : string :=
  "Agent '" ++ caller_id ++ "' rate limit (" ++ pretty limit ++ "/hr) exceeded".

Definition check_rate_limit (pol : policy) (now : Q) (caller_id : string)
    (rc : gmap string (list Q)) : (bool * string) * gmap string (list Q) :=
  let rc := _prune now caller_id rc in
  if (Z.of_nat (total_calls rc) >=? global_limit pol)%Z
  then ((false, global_reason (global_limit pol)), rc)
  else if (Z.of_nat (length (calls_of rc caller_id)) >=? agent_limit pol caller_id)%Z
  then ((false, agent_reason caller_id (agent_limit pol caller_id)), rc)
  else ((true, "ok"), rc).

Definition record_call (t : Q) (caller_id : string) (rc : gmap string (list Q))
  : gmap string (list Q) :=
  <[caller_id := calls_of rc caller_id ++ [t]]> rc.

(** The number of readings of a list that are newer than a cutoff. *)
Definition fresh_count (cut : Q) (l : list Q) : nat :=
  length (List.filter (newer cut) l).

(** Sum of a measure over the lists of all callers. *)
Definition total (f : list Q -> nat) (rc : gmap string (list Q)) : nat :=
  map_fold (fun _ v acc => (f v + acc)%nat) 0%nat rc.

(** The stamps of one caller in the ledger, oldest first. *)
Definition ledger_of (c : string) (ledger : list (string * Q)) : list Q :=
  List.map snd (List.filter (fun e => String.eqb (fst e) c) ledger).

(** The counters agree with the ledger on everything that can still
    matter: above any cutoff that a later check can use, a caller's list
    holds exactly the caller's accepted stamps, and the lists together
    hold at least the accepted stamps. *)
Record synced (last : Q) (rc : gmap string (list Q)) (ledger : list (string * Q))
  : Prop := {
  synced_caller : forall c cut, (last - 3600 <= cut)%Q ->
    List.filter (newer cut) (calls_of rc c) = List.filter (newer cut) (ledger_of c ledger);
  synced_total : forall cut, (last - 3600 <= cut)%Q ->
    (fresh_count cut (List.map snd ledger) <= total (fresh_count cut) rc)%nat;
}.

End Rate.

(** ** Quiet hours and the policy gate *)

Module Gate.

(** The closing lines of [is_quiet_hours]: the comparison made once both
    hours are parsed. *)
Definition quiet_at (start end_ hour : Z) : bool :=
  if (start >? end_)%Z
  then (hour >=? start)%Z || (hour <? end_)%Z
  else (start <=? hour)%Z && (hour <? end_)%Z.

(** [hour] is [now.hour] of the clock in [QUIET_TZ] (UTC when the zone
    data is missing).  [int] of a malformed hour field raises. *)
Definition is_quiet_hours (pol : policy) (hour : Z) : exc bool :=
  match Py.int (Py.split_head ":" (default "23:00" (quiet_hours_start pol))) with
  | Exn e => Exn e
  | Ok start =>
      match Py.int (Py.split_head ":" (default "08:00" (quiet_hours_end pol))) with
      | Exn e => Exn e
      | Ok end_ =>
          Ok (quiet_at start end_ hour)
      end
  end.

Definition quiet_reason : string :=
  "Quiet hours active. Only priority='critical' allowed.".

Definition priority_reason (caller_id priority : string) (allowed : list string) : string :=
  "Agent '" ++ caller_id ++ "' not allowed priority '" ++ priority
    ++ "' (allowed: " ++ Py.repr_str_list allowed ++ ")".

Definition is_exempt (pol : policy) (caller_id : string) : bool :=
  default false (quiet_hours_exempt (get_agent_limits pol caller_id))
  || String.eqb caller_id "dashboard".

(** [Ok None] allows the call, [Ok (Some reason)] denies it. *)
Definition enforce_policy (pol : policy) (hour : Z) (now : Q)
    (caller_id endpoint priority : string) (rc : gmap string (list Q))
  : exc (option string) * gmap string (list Q) :=
  match is_quiet_hours pol hour with
  | Exn e => (Exn e, rc)
  | Ok quiet =>
      if quiet && negb (String.eqb priority "critical") && negb (is_exempt pol caller_id)
      then (Ok (Some quiet_reason), rc)
      else
        let '((allowed, reason), rc) := Rate.check_rate_limit pol now caller_id rc in
        if negb allowed then (Ok (Some reason), rc)
        else
          let allowed_priorities :=
            default ["low"; "normal"] (priority_levels (get_agent_limits pol caller_id)) in
          if negb (existsb (String.eqb priority) allowed_priorities)
          then (Ok (Some (priority_reason caller_id priority allowed_priorities)), rc)
          else (Ok None, rc)
  end.

(** One mediated call as the endpoints make it: the gate is consulted at
    clock reading [c_check]; when it allows, [record_call] stamps the call
    with the later reading [c_stamp].  Nothing is awaited in between. *)
Record call := {
  c_caller : string;
  c_priority : string;
  c_hour : Z;
  c_check : Q;
  c_stamp : Q;
}.

(** The state carried along a run: the counters and the ledger of the
    calls the gate accepted, oldest first. *)
Definition gate_step (pol : policy)
    (st : gmap string (list Q) * list (string * Q)) (c : call)
  : gmap string (list Q) * list (string * Q) :=
  match enforce_policy pol (c_hour c) (c_check c) (c_caller c) "/claude/ask"
          (c_priority c) (fst st) with
  | (Ok None, rc) =>
      (Rate.record_call (c_stamp c) (c_caller c) rc, snd st ++ [(c_caller c, c_stamp c)])
  | (_, rc) => (rc, snd st)
  end.

Definition gate_run (pol : policy) (calls : list call)
  : gmap string (list Q) * list (string * Q) :=
  fold_left (gate_step pol) calls (∅, []).

(** The verdicts of a run, in order. *)
Fixpoint gate_verdicts (pol : policy) (rc : gmap string (list Q)) (calls : list call)
  : list (exc (option string)) :=
  match calls with
  | [] => []
  | c :: calls' =>
      let '(v, rc') := enforce_policy pol (c_hour c) (c_check c) (c_caller c)
                         "/claude/ask" (c_priority c) rc in
      v :: gate_verdicts pol
             (match v with
              | Ok None => Rate.record_call (c_stamp c) (c_caller c) rc'
              | _ => rc'
              end) calls'
  end.

(** Clock readings never go back along a run. *)
Fixpoint clock_ok (last : Q) (calls : list call) : Prop :=
  match calls with
  | [] => True
  | c :: calls' =>
      (last <= c_check c)%Q /\ (c_check c <= c_stamp c)%Q /\ clock_ok (c_stamp c) calls'
  end.

(** A stamp lies in the 60 minutes that end at [T]. *)
Definition in_window (T t : Q) : bool := Rate.newer (T - 3600)%Q t && Qle_bool t T.

Definition accepted_by (caller_id : string) (T : Q) (ledger : list (string * Q)) : nat :=
  length (List.filter (fun e => String.eqb (fst e) caller_id && in_window T (snd e)) ledger).

Definition accepted_total (T : Q) (ledger : list (string * Q)) : nat :=
  length (List.filter (fun e => in_window T (snd e)) ledger).

(** The two ceilings, as a property of a ledger. *)
Definition within_ceilings (pol : policy) (ledger : list (string * Q)) : Prop :=
  (forall c T, 0 <= Rate.agent_limit pol c ->
               Z.of_nat (accepted_by c T ledger) <= Rate.agent_limit pol c)
  /\ (forall T, 0 <= Rate.global_limit pol ->
                Z.of_nat (accepted_total T ledger) <= Rate.global_limit pol).

(** The limiter driven directly: any interleaving of checks and
    recordings. *)
Inductive rate_op :=
  | OpCheck (caller_id : string) (now : Q)
  | OpRecord (caller_id : string) (t : Q).

Definition op_clock (o : rate_op) : Q :=
  match o with OpCheck _ now => now | OpRecord _ t => t end.

Definition op_step (pol : policy)
    (st : gmap string (list Q) * list (string * Q)) (o : rate_op)
  : gmap string (list Q) * list (string * Q) :=
  match o with
  | OpCheck c now => (snd (Rate.check_rate_limit pol now c (fst st)), snd st)
  | OpRecord c t => (Rate.record_call t c (fst st), snd st ++ [(c, t)])
  end.

Definition ops_run (pol : policy) (ops : list rate_op)
  : gmap string (list Q) * list (string * Q) :=
  fold_left (op_step pol) ops (∅, []).

Fixpoint ops_clock_ok (last : Q) (ops : list rate_op) : Prop :=
  match ops with
  | [] => True
  | o :: ops' => (last <= op_clock o)%Q /\ ops_clock_ok (op_clock o) ops'
  end.

(** The hours of the quiet window read off the clock face: from the
    start hour onwards, up to the hour before the end hour, past midnight
    when needed. *)
Definition quiet_window_hours (start end_ : Z) : list Z :=
  List.map (fun i => (start + Z.of_nat i) mod 24)
           (seq 0 (Z.to_nat ((end_ - start) mod 24))).

End Gate.



(** ** JSON values and [json.loads]

    The standard-library decoder, on ASCII text: the grammar of
    [json.decoder] (blanks are space, TAB, LF and CR; [NaN], [Infinity] and
    [-Infinity] are accepted; control characters are refused inside
    strings).  An integer literal becomes an [int]; a literal with a
    fraction or an exponent, or one of the three names, becomes a [float],
    kept as its literal.

    Three things of the decoder are left out: an integer literal of more
    than 4300 digits is decoded here, where [int] refuses it in the
    interpreters that limit the length of such texts; the two [\u] escapes
    of a surrogate pair are decoded one by one, where the decoder joins
    them into one character; and the truth value of a [float] is taken
    from its literal, so a literal that underflows to zero counts as
    non-zero. *)

#[local] Set Warnings "-register-all".

Inductive json :=
  | JNull
  | JBool (b : bool)
  | JInt (n : Z)
  | JFloat (literal : string)
  | JString (s : string)
  | JArray (items : list json)
  | JObject (members : list (string * json)).

Module Json.

Definition is_ws (c : ascii) : bool :=
  let n := N_of_ascii c in ((n =? 32) || (n =? 9) || (n =? 10) || (n =? 13))%N.

Fixpoint skip_ws (s : string) : string :=
  match s with
  | String c s' => if is_ws c then skip_ws s' else s
  | EmptyString => EmptyString
  end.

Definition is_digit (c : ascii) : bool :=
  let n := N_of_ascii c in ((48 <=? n) && (n <=? 57))%N.

(** The longest prefix of digits, and what follows. *)
Fixpoint span_digits (s : string) : string * string :=
  match s with
  | String c s' =>
      if is_digit c
      then let '(d, r) := span_digits s' in (String c d, r)
      else (EmptyString, s)
  | EmptyString => (EmptyString, EmptyString)
  end.

Fixpoint digits_value (acc : Z) (s : string) : Z :=
  match s with
  | String c s' => digits_value (10 * acc + (Z.of_N (N_of_ascii c) - 48)) s'
  | EmptyString => acc
  end.

Definition hex_val (c : ascii) : option N :=
  let n := N_of_ascii c in
  if ((48 <=? n) && (n <=? 57))%N then Some (n - 48)%N
  else if ((97 <=? n) && (n <=? 102))%N then Some (n - 87)%N
  else if ((65 <=? n) && (n <=? 70))%N then Some (n - 55)%N
  else None.

(** A code point of a [\u] escape as text: itself on the ASCII range,
    its UTF-8 bytes above. *)
Definition code_point (n : N) : string :=
  if (n <? 128)%N then String (ascii_of_N n) EmptyString
  else if (n <? 2048)%N
  then String (ascii_of_N (192 + n / 64)) (String (ascii_of_N (128 + n mod 64)) EmptyString)
  else String (ascii_of_N (224 + n / 4096))
         (String (ascii_of_N (128 + (n / 64) mod 64))
            (String (ascii_of_N (128 + n mod 64)) EmptyString)).

(** The characters of a string literal after its opening quote, up to
    the closing quote. *)
Fixpoint scan_string (s : string) : option (string * string) :=
  match s with
  | EmptyString => None
  | String c s' =>
      if Ascii.eqb c Py.dquote then Some (EmptyString, s')
      else if Ascii.eqb c "\" then
        match s' with
        | String e s'' =>
            let simple (x : N) :=
              match scan_string s'' with
              | Some (t, r) => Some (String (ascii_of_N x) t, r)
              | None => None
              end in
            if Ascii.eqb e Py.dquote then simple 34%N
            else if Ascii.eqb e "\" then simple 92%N
            else if Ascii.eqb e "/" then simple 47%N
            else if Ascii.eqb e "b" then simple 8%N
            else if Ascii.eqb e "f" then simple 12%N
            else if Ascii.eqb e "n" then simple 10%N
            else if Ascii.eqb e "r" then simple 13%N
            else if Ascii.eqb e "t" then simple 9%N
            else if Ascii.eqb e "u" then
              match s'' with
              | String h1 (String h2 (String h3 (String h4 s3))) =>
                  match hex_val h1, hex_val h2, hex_val h3, hex_val h4, scan_string s3 with
                  | Some a, Some b, Some c', Some d, Some (t, r) =>
                      Some ((code_point (((a * 16 + b) * 16 + c') * 16 + d)%N ++ t)%string, r)
                  | _, _, _, _, _ => None
                  end
              | _ => None
              end
            else None
        | EmptyString => None
        end
      else if (N_of_ascii c <? 32)%N then None
      else match scan_string s' with
           | Some (t, r) => Some (String c t, r)
           | None => None
           end
  end.

(** A number literal: an optional minus sign; then a single zero, or a
    digit from one to nine and any digits; then, optionally, a dot and
    digits; then, optionally, an exponent mark, a sign and digits.  The
    fraction and the exponent are taken only when complete, as with the
    decoder's regular expression. *)
Definition scan_number (s : string) : option (json * string) :=
  let '(neg, s1) := match s with String "-" r => (true, r) | _ => (false, s) end in
  let '(ip, s2) :=
    match s1 with
    | String "0" r => ("0", r)
    | _ => span_digits s1
    end in
  match ip with
  | EmptyString => None
  | _ =>
      let '(frac, s3) :=
        match s2 with
        | String "." r =>
            match span_digits r with
            | (EmptyString, _) => (EmptyString, s2)
            | (d, r') => (("." ++ d)%string, r')
            end
        | _ => (EmptyString, s2)
        end in
      let '(ex, s4) :=
        match s3 with
        | String e r =>
            if Ascii.eqb e "e" || Ascii.eqb e "E" then
              let '(sg, r1) :=
                match r with
                | String "-" r1 => ("-", r1)
                | String "+" r1 => ("+", r1)
                | _ => (EmptyString, r)
                end in
              match span_digits r1 with
              | (EmptyString, _) => (EmptyString, s3)
              | (d, r') => (String e (sg ++ d)%string, r')
              end
            else (EmptyString, s3)
        | EmptyString => (EmptyString, s3)
        end in
      match frac, ex with
      | EmptyString, EmptyString =>
          Some (JInt (if neg then - digits_value 0 ip else digits_value 0 ip), s4)
      | _, _ =>
          Some (JFloat ((if neg then "-" else EmptyString) ++ ip ++ frac ++ ex)%string, s4)
      end
  end.

(** [d[key] = value] on a dictionary kept in insertion order. *)
Fixpoint dict_set (key : string) (v : json) (kv : list (string * json))
  : list (string * json) :=
  match kv with
  | [] => [(key, v)]
  | (k, x) :: kv' => if String.eqb k key then (k, v) :: kv' else (k, x) :: dict_set key v kv'
  end.

(** What the decoder is in the middle of. *)
Inductive mode :=
  | Value
  | Members (acc : list (string * json))   (* after [{] or after a comma *)
  | Items (acc : list json).               (* after [[] or after a comma *)

Fixpoint parse (fuel : nat) (m : mode) (s : string) : option (json * string) :=
  match fuel with
  | O => None
  | S fuel' =>
      match m with
      | Value =>
          match s with
          | String c r =>
              if Ascii.eqb c Py.dquote then
                match scan_string r with
                | Some (t, r') => Some (JString t, r')
                | None => None
                end
              else if Ascii.eqb c "{" then
                match skip_ws r with
                | String "}" r' => Some (JObject [], r')
                | r' => parse fuel' (Members []) r'
                end
              else if Ascii.eqb c "[" then
                match skip_ws r with
                | String "]" r' => Some (JArray [], r')
                | r' => parse fuel' (Items []) r'
                end
              else if Py.startswith "null" s then Some (JNull, Py.drop 4 s)
              else if Py.startswith "true" s then Some (JBool true, Py.drop 4 s)
              else if Py.startswith "false" s then Some (JBool false, Py.drop 5 s)
              else match scan_number s with
                   | Some r' => Some r'
                   | None =>
                       if Py.startswith "NaN" s then Some (JFloat "NaN", Py.drop 3 s)
                       else if Py.startswith "Infinity" s
                       then Some (JFloat "Infinity", Py.drop 8 s)
                       else if Py.startswith "-Infinity" s
                       then Some (JFloat "-Infinity", Py.drop 9 s)
                       else None
                   end
          | EmptyString => None
          end
      | Members acc =>
          match s with
          | String c r =>
              if Ascii.eqb c Py.dquote then
                match scan_string r with
                | Some (key, r1) =>
                    match skip_ws r1 with
                    | String ":" r2 =>
                        match parse fuel' Value (skip_ws r2) with
                        | Some (v, r3) =>
                            let acc' := dict_set key v acc in
                            match skip_ws r3 with
                            | String "}" r4 => Some (JObject acc', r4)
                            | String "," r4 => parse fuel' (Members acc') (skip_ws r4)
                            | _ => None
                            end
                        | None => None
                        end
                    | _ => None
                    end
                | None => None
                end
              else None
          | EmptyString => None
          end
      | Items acc =>
          match parse fuel' Value s with
          | Some (v, r1) =>
              match skip_ws r1 with
              | String "]" r2 => Some (JArray (acc ++ [v]), r2)
              | String "," r2 => parse fuel' (Items (acc ++ [v])) (skip_ws r2)
              | _ => None
              end
          | None => None
          end
      end
  end.

(** [json.loads(s)]: [None] stands for [JSONDecodeError].  Every step of
    [parse] that calls itself has consumed a character, so the length of
    the text bounds the calls. *)
Definition loads (s : string) : option json :=
  match parse (2 * String.length s + 2) Value (skip_ws s) with
  | Some (v, r) => match skip_ws r with EmptyString => Some v | _ => None end
  | None => None
  end.

(** [d.get(key)] on a dictionary. *)
Fixpoint get (key : string) (kv : list (string * json)) : option json :=
  match kv with
  | [] => None
  | (k, v) :: kv' => if String.eqb k key then Some v else get key kv'
  end.

Fixpoint all_zero_digits (s : string) : bool :=
  match s with
  | EmptyString => true
  | String c s' =>
      if Ascii.eqb c "e" || Ascii.eqb c "E" then true
      else (negb (is_digit c) || Ascii.eqb c "0") && all_zero_digits s'
  end.

(** Truth value of a decoded value.  A float literal is false when its
    mantissa has no digit other than zero (literals that underflow to
    zero are not told apart). *)
Definition truthy (v : json) : bool :=
  match v with
  | JNull => false
  | JBool b => b
  | JInt n => negb (n =? 0)%Z
  | JFloat lit => negb (all_zero_digits lit && negb (Py.startswith "N" lit)
                        && negb (Py.contains_char "I" lit))
  | JString s => negb (String.eqb s EmptyString)
  | JArray l => match l with [] => false | _ => true end
  | JObject kv => match kv with [] => false | _ => true end
  end.

Fixpoint chars (s : string) : list json :=
  match s with
  | EmptyString => []
  | String c s' => JString (String c EmptyString) :: chars s'
  end.

(** [for p in v]: the items of a list, the keys of a dictionary, the
    characters of a string; anything else is not iterable. *)
Definition iterate (v : json) : exc (list json) :=
  match v with
  | JArray l => Ok l
  | JObject kv => Ok (List.map (fun p => JString (fst p)) kv)
  | JString s => Ok (chars s)
  | _ => Exn TypeError
  end.

(** Replaces every single quote by a double quote: a way to write JSON
    text in this file. *)
Fixpoint dq (s : string) : string :=
  match s with
  | EmptyString => EmptyString
  | String c s' => String (if Ascii.eqb c "'" then Py.dquote else c) (dq s')
  end.

End Json.

(** ** Recovering the response from the standard output of a CLI *)

(** A Python [str] as the code produces it: a known text, or [str(v)] of
    a decoded float, list or dictionary, whose rendering is left
    unexpanded. *)
Inductive pystr :=
  | Lit (s : string)
  | StrOf (v : json).

Module CLI.

(** [str(v)]. *)
Definition py_str (v : json) : pystr :=
  match v with
  | JString s => Lit s
  | JInt n => Lit (pretty n)
  | JBool true => Lit "True"
  | JBool false => Lit "False"
  | JNull => Lit "None"
  | _ => StrOf v
  end.

(** The text after [json_start + 1] when a line starts with a brace
    after a line break, the whole output otherwise. *)
Definition json_part (raw : string) : string :=
  match Py.find (String Py.newline "{") raw with
  | Some json_start => Py.drop (json_start + 1) raw
  | None => raw
  end.

(** [p["text"]] of the dictionaries in [items] whose ["text"] is
    truthy; [strict] tells whether an item is first tested with
    [isinstance(p, dict)] (otherwise [p.get] is called on it as it is). *)
Fixpoint texts_of (strict : bool) (items : list json) : exc (list json) :=
  match items with
  | [] => Ok []
  | p :: items' =>
      match p with
      | JObject kv =>
          match texts_of strict items' with
          | Ok ts =>
              match Json.get "text" kv with
              | Some t => Ok (if Json.truthy t then t :: ts else ts)
              | None => Ok ts
              end
          | Exn e =>
              (* the comprehension stops at the first item that raises *)
              Exn e
          end
      | _ => if strict then texts_of strict items' else Exn AttributeError
      end
  end.

(** ["\n".join(texts)]: every item has to be a [str]. *)
Fixpoint as_strings (ts : list json) : exc (list string) :=
  match ts with
  | [] => Ok []
  | JString s :: ts' =>
      match as_strings ts' with
      | Ok l => Ok (s :: l)
      | Exn e => Exn e
      end
  | _ :: _ => Exn TypeError
  end.

(** The [try] block of [invoke_claude] that follows [json_str], with its
    handler for [JSONDecodeError] and [KeyError]: the response text and
    the cost, or the exception that leaves the block. *)
Definition claude_response (raw : string) : exc (pystr * json) :=
  let json_str := json_part raw in
  match Json.loads json_str with
  | None => Ok (Lit (Py.take 2000 raw), JFloat "0.0")
  | Some (JObject data) =>
      let result := default (JString json_str) (Json.get "result" data) in
      let cost := default (JFloat "0.0") (Json.get "cost_usd" data) in
      match result with
      | JObject res =>
          match Json.iterate (default (JArray []) (Json.get "payloads" res)) with
          | Exn e => Exn e
          | Ok payloads =>
              match texts_of true payloads with
              | Exn e => Exn e
              | Ok [] =>
                  Ok (py_str (default (default (JString "No response")
                                         (Json.get "message" res))
                                (Json.get "text" res)), cost)
              | Ok texts =>
                  match as_strings texts with
                  | Ok l => Ok (Lit (Py.join Py.nl l), cost)
                  | Exn e => Exn e
                  end
              end
          end
      | _ => Ok (py_str result, cost)
      end
  | Some _ => Exn AttributeError
  end.

(** [s.split("\n")]. *)
Fixpoint split_lines (s : string) : list string :=
  match s with
  | EmptyString => [EmptyString]
  | String c s' =>
      match split_lines s' with
      | l :: ls => if Ascii.eqb c Py.newline then EmptyString :: l :: ls
                   else String c l :: ls
      | [] => [String c EmptyString]
      end
  end.

Definition noise_line (l : string) : bool :=
  let t := Py.strip l in
  Py.startswith "{" t || Py.startswith "}" t
  || Py.startswith (String Py.dquote EmptyString) t
  || Py.startswith "[plugins]" t.

(** [x in data] followed, when true, by [data[x]] for a decoded value
    that is not a dictionary: both raise, or the first is false. *)
Definition json_eqb_string (x : string) (v : json) : bool :=
  match v with JString s => String.eqb s x | _ => false end.

Fixpoint is_substring (x s : string) : bool :=
  Py.startswith x s
  || match s with EmptyString => false | String _ s' => is_substring x s' end.

(** The [try] block of [invoke_agent] after [json_str], with its
    handler; the response is whatever value the fields hold. *)
Definition agent_response (raw : string) : exc json :=
  let json_str := json_part raw in
  match Json.loads json_str with
  | None =>
      let text_lines := List.filter (fun l => negb (noise_line l)) (split_lines raw) in
      let joined := Py.strip (Py.join Py.nl text_lines) in
      Ok (JString (if String.eqb joined EmptyString then Py.take 500 raw else joined))
  | Some (JObject data) =>
      match Json.get "result" data with
      | Some (JObject res) =>
          match Json.iterate (default (JArray []) (Json.get "payloads" res)) with
          | Exn e => Exn e
          | Ok payloads =>
              match texts_of false payloads with
              | Exn e => Exn e
              | Ok [] => Ok (default (JString "No response text") (Json.get "summary" data))
              | Ok texts =>
                  match as_strings texts with
                  | Ok l => Ok (JString (Py.join Py.nl l))
                  | Exn e => Exn e
                  end
              end
          end
      | _ =>
          Ok (default (default (default (JString "No response text")
                                  (Json.get "text" data))
                         (Json.get "output" data))
                (Json.get "response" data))
      end
  | Some (JArray items) =>
      if existsb (json_eqb_string "result") items then Exn TypeError else Exn AttributeError
  | Some (JString s) =>
      if is_substring "result" s then Exn TypeError else Exn AttributeError
  | Some _ => Exn TypeError
  end.

End CLI.

(** ** The durable store, the backup file and the log, as explicit state *)

Record session_row := {
  s_id : string;
  s_caller_id : string;
  s_target : string;
  s_session_type : string;
  s_claude_session_id : option string;
  s_created_at : Q;
  s_last_used : Q;
  s_message_count : Z;
}.

Record audit_row := {
  a_timestamp : Q;
  a_caller_id : string;
  a_endpoint : string;
  a_target : option string;
  a_priority : string;
  a_request_summary : option string;
  a_response_summary : option string;
  a_latency_ms : option Q;
  a_cost_usd : Q;
  a_success : bool;
  a_error : option string;
}.

Inductive outbox_status := pending | delivered | failed.

Record outbox_row := {
  o_id : Z;
  o_event_type : string;
  o_source : string;
  o_payload : string;
  o_webhook_url : string;
  o_status : outbox_status;
  o_attempts : Z;
  o_last_error : option string;
  o_created_at : Q;
  o_delivered_at : option Q;
}.

#[global] Instance outbox_status_eq_dec : EqDecision outbox_status.
Proof. solve_decision. Defined.

(** The three tables of [init_pg_tables]. *)
Record db := {
  hermes_sessions : list session_row;
  hermes_audit_log : list (audit_row * list (string * string));  (* with metadata *)
  hermes_event_outbox : list outbox_row;
}.

(** [_pg_conn]: [None], or a connection object with its [closed] flag. *)
Inductive pg_conn := NoConn | Conn (closed : bool).

Inductive log_level := DEBUG | INFO | WARNING | ERROR.

(** The state of an OS process started by the bridge. *)
Inductive proc_state := Running | Finished (returncode : Z) | Killed.

(** Everything the bridge reads or changes besides its arguments.
    [w_faults] is the schedule of storage and file-system faults: each
    operation that can fail takes the next entry, and fails when it is
    [true]; an exhausted schedule means no further fault.  [w_saved] is
    what the server has committed, [w_txn] what the open transaction of the
    connection sees ([autocommit = False]).

    [w_clock] is what [NOW()] answers to a statement of the connection.
    In Postgres that is the time at which the transaction of the statement
    began, and with [autocommit = False] a transaction begins with the
    first statement sent after a commit, a rollback or the connect: the
    [SELECT 1] of [get_pg], or a SELECT of an earlier call that was not
    followed by a commit.  So it is a value that the server gives, which
    can lie any time before the call; the clock of the process
    ([time.time], [datetime.now]) is not read from the world but passed to
    the code that reads it.

    [w_outbox_seq] is the last value drawn from the sequence behind the
    SERIAL column [hermes_event_outbox.id]; the sequence belongs to the
    server and takes no part in transactions. *)
Record world := {
  w_conn : pg_conn;
  w_saved : db;
  w_txn : db;
  w_clock : Q;
  w_faults : list bool;
  w_uuids : nat;
  w_jsonl : gmap string (list audit_row);
  w_log : list (log_level * string);
  w_procs : list (list string * proc_state);
  w_outbox_seq : Z;
}.

(** Python code acting on the world: it returns or raises, and in both
    cases leaves a world behind. *)
Definition M (A : Type) : Type := world -> exc A * world.

#[global] Instance M_ret : MRet M := fun A a w => (Ok a, w).
#[global] Instance M_bind : MBind M := fun A B k m w =>
  match m w with
  | (Ok a, w') => k a w'
  | (Exn e, w') => (Exn e, w')
  end.

Module Eff.

Definition raise {A} (e : pyexn) : M A := fun w => (Exn e, w).

(** [try: body / except Exception as e: handler e]. *)
Definition try_except {A} (body : M A) (handler : pyexn -> M A) : M A := fun w =>
  match body w with
  | (Ok a, w') => (Ok a, w')
  | (Exn e, w') => handler e w'
  end.

(** [try: body / except Exception: pass]. *)
Definition try_pass (body : M unit) : M unit :=
  try_except body (fun _ => mret tt).

Definition get : M world := fun w => (Ok w, w).
Definition put (w : world) : M unit := fun _ => (Ok tt, w).
Definition modify (f : world -> world) : M unit := fun w => (Ok tt, f w).

Definition set_conn (c : pg_conn) (w : world) : world :=
  {| w_conn := c; w_saved := w_saved w; w_txn := w_txn w; w_clock := w_clock w;
     w_faults := w_faults w; w_uuids := w_uuids w; w_jsonl := w_jsonl w;
     w_log := w_log w; w_procs := w_procs w;
     w_outbox_seq := w_outbox_seq w |}.
Definition set_saved (d : db) (w : world) : world :=
  {| w_conn := w_conn w; w_saved := d; w_txn := w_txn w; w_clock := w_clock w;
     w_faults := w_faults w; w_uuids := w_uuids w; w_jsonl := w_jsonl w;
     w_log := w_log w; w_procs := w_procs w;
     w_outbox_seq := w_outbox_seq w |}.
Definition set_txn (d : db) (w : world) : world :=
  {| w_conn := w_conn w; w_saved := w_saved w; w_txn := d; w_clock := w_clock w;
     w_faults := w_faults w; w_uuids := w_uuids w; w_jsonl := w_jsonl w;
     w_log := w_log w; w_procs := w_procs w;
     w_outbox_seq := w_outbox_seq w |}.
Definition set_faults (fs : list bool) (w : world) : world :=
  {| w_conn := w_conn w; w_saved := w_saved w; w_txn := w_txn w; w_clock := w_clock w;
     w_faults := fs; w_uuids := w_uuids w; w_jsonl := w_jsonl w;
     w_log := w_log w; w_procs := w_procs w;
     w_outbox_seq := w_outbox_seq w |}.
Definition set_uuids (n : nat) (w : world) : world :=
  {| w_conn := w_conn w; w_saved := w_saved w; w_txn := w_txn w; w_clock := w_clock w;
     w_faults := w_faults w; w_uuids := n; w_jsonl := w_jsonl w;
     w_log := w_log w; w_procs := w_procs w;
     w_outbox_seq := w_outbox_seq w |}.
Definition set_jsonl (j : gmap string (list audit_row)) (w : world) : world :=
  {| w_conn := w_conn w; w_saved := w_saved w; w_txn := w_txn w; w_clock := w_clock w;
     w_faults := w_faults w; w_uuids := w_uuids w; w_jsonl := j;
     w_log := w_log w; w_procs := w_procs w;
     w_outbox_seq := w_outbox_seq w |}.
Definition set_log (l : list (log_level * string)) (w : world) : world :=
  {| w_conn := w_conn w; w_saved := w_saved w; w_txn := w_txn w; w_clock := w_clock w;
     w_faults := w_faults w; w_uuids := w_uuids w; w_jsonl := w_jsonl w;
     w_log := l; w_procs := w_procs w;
     w_outbox_seq := w_outbox_seq w |}.
Definition set_procs (p : list (list string * proc_state)) (w : world) : world :=
  {| w_conn := w_conn w; w_saved := w_saved w; w_txn := w_txn w; w_clock := w_clock w;
     w_faults := w_faults w; w_uuids := w_uuids w; w_jsonl := w_jsonl w;
     w_log := w_log w; w_procs := p; w_outbox_seq := w_outbox_seq w |}.

Definition set_outbox_seq (n : Z) (w : world) : world :=
  {| w_conn := w_conn w; w_saved := w_saved w; w_txn := w_txn w; w_clock := w_clock w;
     w_faults := w_faults w; w_uuids := w_uuids w; w_jsonl := w_jsonl w;
     w_log := w_log w; w_procs := w_procs w; w_outbox_seq := n |}.

Definition set_clock (t : Q) (w : world) : world :=
  {| w_conn := w_conn w; w_saved := w_saved w; w_txn := w_txn w; w_clock := t;
     w_faults := w_faults w; w_uuids := w_uuids w; w_jsonl := w_jsonl w;
     w_log := w_log w; w_procs := w_procs w;
     w_outbox_seq := w_outbox_seq w |}.

(** An operation that the environment can make fail with [e]. *)
Definition fallible (e : pyexn) : M unit := fun w =>
  match w_faults w with
  | true :: fs => (Exn e, set_faults fs w)
  | false :: fs => (Ok tt, set_faults fs w)
  | [] => (Ok tt, w)
  end.

(** [log.info], [log.warning], ...: a record is appended. *)
Definition log (lvl : log_level) (msg : string) : M unit :=
  modify (fun w => set_log (w_log w ++ [(lvl, msg)]) w).

(** [str(uuid.uuid4())]: the next token of an unbounded supply; two
    draws never give the same token. *)
Definition uuid_text (n : nat) : string := "uuid4-" ++ pretty n.
Definition uuid4 : M string := fun w =>
  (Ok (uuid_text (w_uuids w)), set_uuids (S (w_uuids w)) w).

(** [NOW()] in a statement, or as the default of a column: the start of
    the transaction that the statement is in. *)
Definition pg_now : M Q := fun w => (Ok (w_clock w), w).

(** [psycopg2.connect(POSTGRES_DSN)]: a new session sees what is saved. *)
Definition pg_connect : M unit :=
  fallible DatabaseError ;;
  modify (fun w => set_txn (w_saved w) (set_conn (Conn false) w)).

(** [conn.cursor()]. *)
Definition pg_cursor : M unit := fallible DatabaseError.

(** [cur.execute] of a statement that changes rows; the statement itself
    may be refused ([None], e.g. a key that exists). *)
Definition pg_execute (stmt : db -> option db) : M unit :=
  fallible DatabaseError ;;
  w ← get;
  match stmt (w_txn w) with
  | Some d => put (set_txn d w)
  | None => raise DatabaseError
  end.

(** [cur.execute] of an INSERT into [hermes_event_outbox], which names
    no id: the server draws the next value of the sequence and runs the
    statement with it.  The value is spent even when the statement is
    refused or the transaction is rolled back. *)
Definition pg_execute_serial (stmt : Z -> db -> option db) : M unit :=
  fallible DatabaseError ;;
  w ← get;
  let id := w_outbox_seq w + 1 in
  match stmt id (w_txn w) with
  | Some d => put (set_txn d (set_outbox_seq id w))
  | None => put (set_outbox_seq id w) ;; raise DatabaseError
  end.

(** [cur.execute] of a SELECT followed by the fetch. *)
Definition pg_query {A} (q : db -> A) : M A :=
  fallible DatabaseError ;;
  w ← get;
  mret (q (w_txn w)).

Definition pg_commit : M unit :=
  fallible DatabaseError ;;
  modify (fun w => set_saved (w_txn w) w).

Definition pg_rollback : M unit :=
  fallible DatabaseError ;;
  modify (fun w => set_txn (w_saved w) w).

Definition pg_close : M unit :=
  fallible DatabaseError ;;
  modify (set_conn (Conn true)).

(** [os.makedirs(name, exist_ok=True)].  The empty name is no
    directory and cannot be made ([FileNotFoundError]), a name with a NUL
    is refused ([ValueError]); otherwise the call fails when the
    environment makes it fail. *)
Definition makedirs (name : string) : M unit :=
  if String.eqb name EmptyString then raise OSError
  else if Py.contains_char "000"%char name then raise ValueError
  else fallible OSError.

(** [with open(path, "a") as f: f.write(line)]: the line is appended
    when nothing fails. *)
Definition append_line (path : string) (entry : audit_row) : M unit :=
  (if Py.contains_char "000"%char path then raise ValueError else fallible OSError) ;;
  modify (fun w => set_jsonl (<[path := default [] (w_jsonl w !! path) ++ [entry]]> (w_jsonl w)) w).

End Eff.

(** Values fixed when the module is imported (environment variables). *)
Record settings := {
  N8N_BASE : string;
  CLAUDE_BIN : string;
  SUPERCLAW_BIN : string;
  CLAUDE_TIMEOUT : Z;
  AGENT_TIMEOUT : Z;
}.

(** What [audit_log] takes from the process besides the world: the home
    directories that [os.path.expanduser] finds, and the reading of
    [datetime.now(timezone.utc)] when the entry for the file is built. *)
Record surroundings := {
  userhome : string -> option string;
  utcnow : Q;
}.

Module Store.
Import Eff.

(** The branch of [get_pg] that opens a connection. *)
Definition open_connection : M bool :=
  try_except
    (pg_connect ;; log INFO "Postgres connected" ;; mret true)
    (fun e =>
       log ERROR "Postgres connection failed" ;;
       modify (set_conn NoConn) ;;
       mret false).

(** [get_pg]: [true] when a connection object is returned, [false] for
    [None].  The recursive call after a stale connection is closed meets
    [_pg_conn is None] and opens a connection. *)
Definition get_pg : M bool :=
  w ← get;
  match w_conn w with
  | NoConn | Conn true => open_connection
  | Conn false =>
      try_except
        (pg_cursor ;; fallible DatabaseError ;; mret true)
        (fun _ =>
           log WARNING "Postgres stale, reconnecting" ;;
           try_pass pg_close ;;
           modify (set_conn NoConn) ;;
           open_connection)
  end.

End Store.

(** ** Audit ledger and event emission *)

Module Audit.
Import Eff Store.

Definition add_audit (r : audit_row) (md : list (string * string)) (d : db) : option db :=
  Some {| hermes_sessions := hermes_sessions d;
          hermes_audit_log := hermes_audit_log d ++ [(r, md)];
          hermes_event_outbox := hermes_event_outbox d |}.

(** [s[:n] if s else None]. *)
Definition clip (n : nat) (s : option string) : option string :=
  match s with
  | Some t => if String.eqb t EmptyString then None else Some (Py.take n t)
  | None => None
  end.

Definition default_jsonl_path : string :=
  "~/.superclaw/workspace/memory/hermes_audit.jsonl".

(** The keyword arguments of [audit_log]. *)
Record audit_args := {
  caller_id : string;
  endpoint : string;
  target : option string;
  priority : string;
  request_summary : option string;
  response_summary : option string;
  latency_ms : option Q;
  cost_usd : Q;
  success : bool;
  error : option string;
  metadata : list (string * string);
}.

Definition audit_entry (width : nat) (ts : Q) (a : audit_args) : audit_row :=
  {| a_timestamp := ts;
     a_caller_id := caller_id a; a_endpoint := endpoint a; a_target := target a;
     a_priority := priority a;
     a_request_summary := clip width (request_summary a);
     a_response_summary := clip width (response_summary a);
     a_latency_ms := latency_ms a; a_cost_usd := cost_usd a;
     a_success := success a; a_error := error a |}.

(** First half of [audit_log]: the row for Postgres.  The column
    [timestamp] takes its default, [NOW()]; the summaries are cut to 500
    characters and [error] is passed whole. *)
Definition audit_pg_write (a : audit_args) : M unit :=
  conn ← get_pg;
  if conn : bool then
    try_except
      (pg_cursor ;;
       ts ← pg_now;
       pg_execute (add_audit (audit_entry 500 ts a) (metadata a)) ;;
       pg_commit)
      (fun e =>
         try_pass pg_rollback ;;
         log ERROR "Audit log Postgres write failed")
  else mret tt.

(** What the lines under [# JSONL backup] read from the policy before
    their [try]: the path of the file, or [None] when [log_to_jsonl] is
    false.  [.get] on a value under [audit] that is no dictionary raises
    [AttributeError]; [os.path.expanduser] of a path that is no string
    raises [TypeError]. *)
Definition jsonl_target (env : surroundings) (pol : policy) : exc (option string) :=
  match audit pol with
  | Some Improper => Exn AttributeError
  | Some (Proper section) =>
      if default true (log_to_jsonl section) then
        match jsonl_path section with
        | Some Improper => Exn TypeError
        | Some (Proper path) => Ok (Some (Py.expanduser (userhome env) path))
        | None => Ok (Some (Py.expanduser (userhome env) default_jsonl_path))
        end
      else Ok None
  | None => Ok (Some (Py.expanduser (userhome env) default_jsonl_path))
  end.

(** Second half of [audit_log], under the comment [# JSONL backup]: the
    policy is read outside the [try], the file is written inside it. *)
Definition audit_jsonl_backup (env : surroundings) (pol : policy) (a : audit_args)
  : M unit :=
  match jsonl_target env pol with
  | Exn e => raise e
  | Ok None => mret tt
  | Ok (Some jsonl_path) =>
      try_except
        (makedirs (Py.dirname jsonl_path) ;;
         append_line jsonl_path (audit_entry 200 (utcnow env) a))
        (fun e => log ERROR "JSONL audit write failed")
  end.

Definition audit_log (env : surroundings) (pol : policy) (a : audit_args) : M unit :=
  audit_pg_write a ;;
  audit_jsonl_backup env pol a.

End Audit.

Module Outbox.
Import Eff Store.

(** [INSERT INTO hermes_event_outbox (event_type, source, payload,
    webhook_url)]: the other columns take their defaults, [id] the value
    drawn from the sequence.  [id] is the primary key, so a row whose id
    is in the table is refused. *)
Definition add_event (event_type source payload webhook_url : string) (now : Q)
    (id : Z) (d : db) : option db :=
  if existsb (fun r => (o_id r =? id)%Z) (hermes_event_outbox d) then None
  else
    Some {| hermes_sessions := hermes_sessions d;
            hermes_audit_log := hermes_audit_log d;
            hermes_event_outbox :=
              hermes_event_outbox d ++
              [{| o_id := id;
                  o_event_type := event_type; o_source := source;
                  o_payload := payload; o_webhook_url := webhook_url;
                  o_status := pending; o_attempts := 0; o_last_error := None;
                  o_created_at := now; o_delivered_at := None |}] |}.

(** [_policy.get("event_webhooks", {})]: the dictionary that the two
    [.get] of the next line are called on; they raise [AttributeError] on
    a value that is no dictionary. *)
Definition webhooks_of (pol : policy) : exc (gmap string string) :=
  match event_webhooks pol with
  | Some (Proper webhooks) => Ok webhooks
  | Some Improper => Exn AttributeError
  | None => Ok ∅
  end.

Definition webhook_path (webhooks : gmap string string) (event_type : string) : string :=
  default (default "/webhook/hermes-events" (webhooks !! "_default"))
          (webhooks !! event_type).

(** [payload] is the text of [json.dumps(payload or {})].  The policy is
    read after the connection is found and before the [try]. *)
Definition emit_event (cfg : settings) (pol : policy)
    (event_type source payload : string) : M unit :=
  conn ← get_pg;
  if negb conn then
    log WARNING ("Cannot emit event (Postgres down): " ++ event_type)%string
  else
    match webhooks_of pol with
    | Exn e => raise e
    | Ok webhooks =>
        let webhook_url := (N8N_BASE cfg ++ webhook_path webhooks event_type)%string in
        try_except
          (pg_cursor ;;
           now ← pg_now;
           pg_execute_serial (add_event event_type source payload webhook_url now) ;;
           pg_commit ;;
           log DEBUG "Event queued")
          (fun e =>
             try_pass pg_rollback ;;
             log ERROR "Event emit failed")
    end.

End Outbox.

(** ** Session tracker *)

Module Session.
Import Eff Store.

Definition find_session (id : string) (d : db) : option session_row :=
  List.find (fun r => String.eqb (s_id r) id) (hermes_sessions d).

Definition with_sessions (rows : list session_row) (d : db) : db :=
  {| hermes_sessions := rows;
     hermes_audit_log := hermes_audit_log d;
     hermes_event_outbox := hermes_event_outbox d |}.

(** [UPDATE hermes_sessions SET last_used = NOW(), message_count =
    message_count + 1 WHERE id = %s]. *)
Definition touch_session (id : string) (now : Q) (d : db) : option db :=
  Some (with_sessions
          (List.map (fun r =>
             if String.eqb (s_id r) id
             then {| s_id := s_id r; s_caller_id := s_caller_id r; s_target := s_target r;
                     s_session_type := s_session_type r;
                     s_claude_session_id := s_claude_session_id r;
                     s_created_at := s_created_at r;
                     s_last_used := now; s_message_count := s_message_count r + 1 |}
             else r) (hermes_sessions d)) d).

(** [INSERT INTO hermes_sessions]; [id] is the primary key, so a second
    row with the same id is refused. *)
Definition insert_session (id caller_id target session_type : string)
    (claude_sid : option string) (now : Q) (d : db) : option db :=
  match find_session id d with
  | Some _ => None
  | None =>
      Some (with_sessions
              (hermes_sessions d ++
               [{| s_id := id; s_caller_id := caller_id; s_target := target;
                   s_session_type := session_type; s_claude_session_id := claude_sid;
                   s_created_at := now; s_last_used := now; s_message_count := 0 |}]) d)
  end.

(** [UPDATE hermes_sessions SET claude_session_id = %s WHERE id = %s]. *)
Definition set_claude_session_id (id claude_sid : string) (d : db) : option db :=
  Some (with_sessions
          (List.map (fun r =>
             if String.eqb (s_id r) id
             then {| s_id := s_id r; s_caller_id := s_caller_id r; s_target := s_target r;
                     s_session_type := s_session_type r;
                     s_claude_session_id := Some claude_sid;
                     s_created_at := s_created_at r;
                     s_last_used := s_last_used r; s_message_count := s_message_count r |}
             else r) (hermes_sessions d)) d).

Definition session_key (caller_id target purpose : string) : string :=
  "hermes-" ++ caller_id ++ "-" ++ target ++ "-" ++ purpose.

Definition get_or_create_session (caller_id target session_type purpose : string)
  : M string :=
  let session_id := session_key caller_id target purpose in
  conn ← get_pg;
  if negb conn then mret session_id
  else
    try_except
      (pg_cursor ;;
       row ← pg_query (find_session session_id);
       now ← pg_now;
       match row with
       | Some _ => pg_execute (touch_session session_id now)
       | None =>
           claude_sid ← (if String.eqb session_type "claude"
                         then s ← uuid4; mret (Some s)
                         else mret None);
           pg_execute (insert_session session_id caller_id target session_type
                         claude_sid now)
       end ;;
       pg_commit ;;
       _ ← pg_query (fun d => s_claude_session_id <$> find_session session_id d);
       mret session_id)
      (fun e =>
         try_pass pg_rollback ;;
         log ERROR "Session management error" ;;
         mret session_id).

(** A series of resolves, each given as (caller, target, session type,
    purpose); the world they leave. *)
Definition resolve_all (qs : list (string * string * string * string)) (w : world)
  : world :=
  fold_left (fun w q =>
               let '(caller_id, target, session_type, purpose) := q in
               snd (get_or_create_session caller_id target session_type purpose w))
            qs w.

Definition get_claude_session_id (hermes_session_id : string) : M (option string) :=
  conn ← get_pg;
  if negb conn then mret None
  else
    try_except
      (pg_cursor ;;
       row ← pg_query (find_session hermes_session_id);
       mret (match row with
             | Some r => s_claude_session_id r
             | None => None
             end))
      (fun _ => mret None).

End Session.

(** ** Running a CLI as a subprocess *)

(** What happens to the subprocess of one invocation: it cannot be
    started, it exits within the timeout (with the results of decoding its
    two streams), or it is still running when the timeout expires. *)
Inductive proc_run :=
  | SpawnFails (e : pyexn)
  | Exits (returncode : Z) (stdout stderr : exc string)
  | Hangs.

(** The text of an error: a message built by the code, or [str(e)]. *)
Inductive errmsg :=
  | ErrText (s : string)
  | ErrOf (e : pyexn).

Module Invoke.
Import Eff Store Session.

(** [asyncio.create_subprocess_exec( *cmd, ...)]. *)
Definition create_subprocess_exec (cmd : list string) (run : proc_run) : M unit :=
  match run with
  | SpawnFails e => raise e
  | _ => modify (fun w => set_procs (w_procs w ++ [(cmd, Running)]) w)
  end.

Definition finish_last (rc : Z) (ps : list (list string * proc_state))
  : list (list string * proc_state) :=
  match rev ps with
  | (cmd, _) :: before => rev ((cmd, Finished rc) :: before)
  | [] => []
  end.

(** [asyncio.wait_for(proc.communicate(), timeout=...)]: the streams and
    the return code of a process that ends in time; otherwise the wait
    is cancelled and [TimeoutError] is raised, which sends nothing to the
    process. *)
Definition communicate (run : proc_run) : M (Z * exc string * exc string) :=
  match run with
  | Exits rc out err =>
      modify (fun w => set_procs (finish_last rc (w_procs w)) w) ;;
      mret (rc, out, err)
  | Hangs => raise TimeoutError
  | SpawnFails e => raise e
  end.

(** [bytes.decode()], whose outcome comes with the run. *)
Definition decode (b : exc string) : M string :=
  match b with
  | Ok s => mret s
  | Exn e => raise e
  end.

Definition lift {A} (r : exc A) : M A :=
  match r with
  | Ok a => mret a
  | Exn e => raise e
  end.

Record claude_result := {
  response : option pystr;
  error : option errmsg;
  cost_usd : json;
  session_id : string;
}.

Definition failure (msg : errmsg) (claude_sid : string) : claude_result :=
  {| response := None; error := Some msg; cost_usd := JFloat "0.0";
     session_id := claude_sid |}.

(** The opening lines of [invoke_claude]: the handle passed to the CLI
    is the stored one; when none is stored ([if not claude_sid]) a new
    one is drawn and an UPDATE tries to store it. *)
Definition mint_handle (hermes_session_id : string) : M string :=
  s ← uuid4;
  conn ← get_pg;
  (if conn : bool then
     try_except
       (pg_cursor ;;
        pg_execute (set_claude_session_id hermes_session_id s) ;;
        pg_commit)
       (fun _ => try_pass pg_rollback)
   else mret tt) ;;
  mret s.

Definition conversation_handle (hermes_session_id : string) : M string :=
  claude_sid ← get_claude_session_id hermes_session_id;
  match claude_sid with
  | Some s => if String.eqb s EmptyString then mint_handle hermes_session_id else mret s
  | None => mint_handle hermes_session_id
  end.

Definition claude_cmd (cfg : settings) (claude_sid message : string) (resume : bool)
  : list string :=
  [CLAUDE_BIN cfg; "-p"; "--output-format"; "json"; "--session-id"; claude_sid]
  ++ [if resume then "--resume" else message].

Definition invoke_claude (cfg : settings) (message hermes_session_id : string)
    (resume : bool) (run : proc_run) : M claude_result :=
  claude_sid ← conversation_handle hermes_session_id;
  let cmd := claude_cmd cfg claude_sid message resume in
  log INFO "Invoking Claude CLI" ;;
  try_except
    (create_subprocess_exec cmd run ;;
     '(returncode, stdout, stderr) ← communicate run;
     if negb (returncode =? 0)%Z then
       err ← decode stderr;
       let err_msg := Py.take 500 (Py.strip err) in
       log ERROR "Claude CLI failed" ;;
       mret (failure (ErrText err_msg) claude_sid)
     else
       out ← decode stdout;
       let raw := Py.strip out in
       '(response_text, cost) ← lift (CLI.claude_response raw);
       mret {| response := Some response_text; error := None; cost_usd := cost;
               session_id := claude_sid |})
    (fun e =>
       match e with
       | TimeoutError =>
           log ERROR "Claude CLI timed out" ;;
           mret (failure (ErrText ("Timeout after " ++ pretty (CLAUDE_TIMEOUT cfg) ++ "s"))
                   claude_sid)
       | _ =>
           log ERROR "Claude CLI exception" ;;
           mret (failure (ErrOf e) claude_sid)
       end).

Record agent_result := {
  agent_response : option json;
  agent_error : option errmsg;
}.

Definition agent_cmd (cfg : settings) (target_agent message hermes_session_id : string)
  : list string :=
  [SUPERCLAW_BIN cfg; "agent"; "--agent"; target_agent; "--message"; message;
   "--session-id"; hermes_session_id; "--json"].

Definition invoke_agent (cfg : settings) (target_agent message hermes_session_id : string)
    (run : proc_run) : M agent_result :=
  let cmd := agent_cmd cfg target_agent message hermes_session_id in
  log INFO "Invoking SuperClaw agent" ;;
  try_except
    (create_subprocess_exec cmd run ;;
     '(returncode, stdout, stderr) ← communicate run;
     if negb (returncode =? 0)%Z then
       err ← decode stderr;
       let err_msg := Py.take 500 (Py.strip err) in
       log ERROR "SuperClaw agent failed" ;;
       mret {| agent_response := None; agent_error := Some (ErrText err_msg) |}
     else
       out ← decode stdout;
       let raw := Py.strip out in
       response_text ← lift (CLI.agent_response raw);
       mret {| agent_response := Some response_text; agent_error := None |})
    (fun e =>
       match e with
       | TimeoutError =>
           log ERROR "SuperClaw agent timed out" ;;
           mret {| agent_response := None;
                   agent_error :=
                     Some (ErrText ("Timeout after " ++ pretty (AGENT_TIMEOUT cfg) ++ "s")) |}
       | _ =>
           log ERROR "SuperClaw agent exception" ;;
           mret {| agent_response := None; agent_error := Some (ErrOf e) |}
       end).

End Invoke.

(** ** The outbox drain worker

    One pass of the loop of [_drain_outbox] after its sleep, on a store
    that answers; the table goes in and comes out.  The SELECT is a filter,
    a sort and a cut; each UPDATE rewrites the rows that its WHERE clause
    selects.  The outcome of each POST is an input. *)

Inductive post_result :=
  | Response (status_code : Z)
  | ConnectError                     (* httpx.ConnectError *)
  | PostError (text : string).       (* any other exception, with str(e) *)

Module Drain.

Definition MAX_ATTEMPTS : Z := 5.
Definition BATCH_SIZE : nat := 20.

(** [WHERE status = 'pending' AND attempts < %s]. *)
Definition eligible (r : outbox_row) : bool :=
  bool_decide (o_status r = pending) && (o_attempts r <? MAX_ATTEMPTS)%Z.

Definition older (a b : outbox_row) : Prop :=
  Is_true (Qle_bool (o_created_at a) (o_created_at b)).

#[global] Instance older_dec a b : Decision (older a b).
Proof. unfold older. apply _. Defined.

(** [SELECT ... WHERE ... ORDER BY created_at LIMIT %s]. *)
Definition select_batch (table : list outbox_row) : list outbox_row :=
  take BATCH_SIZE (merge_sort older (List.filter eligible table)).

Definition with_delivery (now : Q) (r : outbox_row) : outbox_row :=
  {| o_id := o_id r; o_event_type := o_event_type r; o_source := o_source r;
     o_payload := o_payload r; o_webhook_url := o_webhook_url r;
     o_status := delivered; o_attempts := o_attempts r;
     o_last_error := o_last_error r; o_created_at := o_created_at r;
     o_delivered_at := Some now |}.

Definition with_failure (err : string) (r : outbox_row) : outbox_row :=
  {| o_id := o_id r; o_event_type := o_event_type r; o_source := o_source r;
     o_payload := o_payload r; o_webhook_url := o_webhook_url r;
     o_status := o_status r; o_attempts := o_attempts r + 1;
     o_last_error := Some err; o_created_at := o_created_at r;
     o_delivered_at := o_delivered_at r |}.

Definition with_status (s : outbox_status) (r : outbox_row) : outbox_row :=
  {| o_id := o_id r; o_event_type := o_event_type r; o_source := o_source r;
     o_payload := o_payload r; o_webhook_url := o_webhook_url r;
     o_status := s; o_attempts := o_attempts r;
     o_last_error := o_last_error r; o_created_at := o_created_at r;
     o_delivered_at := o_delivered_at r |}.

(** [UPDATE hermes_event_outbox SET ... WHERE id = %s]. *)
Definition update_id (id : Z) (f : outbox_row -> outbox_row) (table : list outbox_row)
  : list outbox_row :=
  List.map (fun r => if (o_id r =? id)%Z then f r else r) table.

(** [SET status = 'delivered', delivered_at = NOW() WHERE id = %s]. *)
Definition mark_delivered (id : Z) (now : Q) := update_id id (with_delivery now).

(** [SET attempts = attempts + 1, last_error = %s WHERE id = %s]. *)
Definition count_failure (id : Z) (err : string) := update_id id (with_failure err).

(** [SET status = 'failed' WHERE status = 'pending' AND attempts >= %s]. *)
Definition sweep_row (r : outbox_row) : outbox_row :=
  if bool_decide (o_status r = pending) && (o_attempts r >=? MAX_ATTEMPTS)%Z
  then with_status failed r else r.

Definition sweep (table : list outbox_row) : list outbox_row :=
  List.map sweep_row table.

(** The [for row in rows] loop.  The result holds the table and the ids
    of the rows whose POST was attempted, in order. *)
Fixpoint deliver (post : outbox_row -> post_result) (now : Q)
    (rows : list outbox_row) (table : list outbox_row) : list outbox_row * list Z :=
  match rows with
  | [] => (table, [])
  | row :: rest =>
      match post row with
      | Response status_code =>
          let table :=
            if (status_code <? 400)%Z
            then mark_delivered (o_id row) now table
            else count_failure (o_id row) ("HTTP " ++ pretty status_code) table in
          let '(table, tried) := deliver post now rest table in
          (table, o_id row :: tried)
      | ConnectError =>
          (* circuit-break: the remaining events are not tried *)
          (count_failure (o_id row) "n8n unreachable" table, [o_id row])
      | PostError text =>
          let table := count_failure (o_id row) (Py.take 500 text) table in
          let '(table, tried) := deliver post now rest table in
          (table, o_id row :: tried)
      end
  end.

Definition drain_cycle (post : outbox_row -> post_result) (now : Q)
    (table : list outbox_row) : list outbox_row * list Z :=
  match select_batch table with
  | [] => (table, [])
  | rows =>
      let '(table, tried) := deliver post now rows table in
      (sweep table, tried)
  end.

(** Several passes, each with the POST outcomes and the clock of its
    time; the ids tried are collected over all passes. *)
Fixpoint drain_cycles (passes : list ((outbox_row -> post_result) * Q))
    (table : list outbox_row) : list outbox_row * list Z :=
  match passes with
  | [] => (table, [])
  | (post, now) :: passes' =>
      let '(table, tried) := drain_cycle post now table in
      let '(table, tried') := drain_cycles passes' table in
      (table, tried ++ tried')
  end.

(** How one row may differ after the worker has run. *)
Definition moved (r r' : outbox_row) : Prop :=
  o_id r' = o_id r
  /\ (o_status r' = o_status r
      \/ (o_status r = pending /\ (o_status r' = delivered \/ o_status r' = failed))).

(** The rows whose POST is attempted: up to and including the first one
    that meets a connection failure. *)
Fixpoint tried_rows (post : outbox_row -> post_result) (rows : list outbox_row)
  : list outbox_row :=
  match rows with
  | [] => []
  | row :: rest =>
      match post row with
      | ConnectError => [row]
      | _ => row :: tried_rows post rest
      end
  end.

(** What the loop does to the row it has just tried. *)
Definition outcome (post : outbox_row -> post_result) (now : Q) (row : outbox_row)
  : outbox_row -> outbox_row :=
  match post row with
  | Response status_code =>
      if (status_code <? 400)%Z then with_delivery now
      else with_failure ("HTTP " ++ pretty status_code)
  | ConnectError => with_failure "n8n unreachable"
  | PostError text => with_failure (Py.take 500 text)
  end.

(** The updates of the tried rows, seen from one row of the table. *)
Definition row_after (post : outbox_row -> post_result) (now : Q)
    (tried : list outbox_row) (x : outbox_row) : outbox_row :=
  fold_left (fun x row => if (o_id x =? o_id row)%Z then outcome post now row x else x)
            tried x.

Definition was_tried (tried : list outbox_row) (x : outbox_row) : bool :=
  existsb (fun row => (o_id row =? o_id x)%Z) tried.

(** One row across a pass, when ids are unique: the row is rewritten by
    its own POST outcome if it was tried, then swept. *)
Definition cycle_row (post : outbox_row -> post_result) (now : Q)
    (table : list outbox_row) (x : outbox_row) : outbox_row :=
  match select_batch table with
  | [] => x
  | rows =>
      sweep_row (if was_tried (tried_rows post rows) x then outcome post now x x else x)
  end.

End Drain.

(** ** Vocabulary for statements about effectful code *)

Module Spec.

(** [m] returns from every world, never raises, and what it returns
    satisfies [P]. *)
Definition yields {A} (P : A -> Prop) (m : M A) : Prop :=
  forall w, exists a w', m w = (Ok a, w') /\ P a.

(** Whenever [m] returns, what it returns satisfies [P]. *)
Definition sat {A} (P : A -> Prop) (m : M A) : Prop :=
  forall w a w', m w = (Ok a, w') -> P a.

(** [m] leaves the observation [f] of the world as it was, whether it
    returns or raises. *)
Definition keeps {A X} (f : world -> X) (m : M A) : Prop :=
  forall w r w', m w = (r, w') -> f w' = f w.

(** Observations of the world that no operation on the connection
    changes: they look at neither the fault schedule, the connection, the
    open transaction nor the log. *)
Definition conn_blind {X} (f : world -> X) : Prop :=
  (forall fs w, f (Eff.set_faults fs w) = f w)
  /\ (forall c w, f (Eff.set_conn c w) = f w)
  /\ (forall d w, f (Eff.set_txn d w) = f w)
  /\ (forall l w, f (Eff.set_log l w) = f w).

(** Observations that a commit does not change either. *)
Definition store_blind {X} (f : world -> X) : Prop :=
  conn_blind f /\ (forall d w, f (Eff.set_saved d w) = f w).

(** A world whose store answers: a live connection and no fault ahead. *)
Definition healthy (w : world) : Prop :=
  w_conn w = Conn false /\ w_faults w = [] /\ w_txn w = w_saved w.

End Spec.

(** ** Further parts of the bridge *)

(** [load_policy]: the document read from [POLICY_PATH], or the empty
    document when the file cannot be opened or decoded. *)
Definition load_policy (file : exc policy) : policy :=
  match file with
  | Ok p => p
  | Exn _ => empty_policy
  end.

(** A policy document with the two hour fields of [quiet_hours] replaced. *)
Definition with_quiet_hours (start end_ : string) (pol : policy) : policy :=
  {| per_agent := per_agent pol;
     global_calls_per_hour := global_calls_per_hour pol;
     quiet_hours_start := Some start; quiet_hours_end := Some end_;
     event_webhooks := event_webhooks pol; audit := audit pol |}.

(** ** The quiet window as the specification words it

    The specification speaks of the current local time falling inside the
    configured quiet window.  Times of day are counted in minutes since
    midnight; a window whose start is later than its end runs past
    midnight, and one whose start and end coincide holds no time. *)
Definition minute_of_day (hour minute : Z) : Z := 60 * hour + minute.

Definition spec_inside_window (start end_ t : Z) : bool :=
  if (start <? end_)%Z
  then (start <=? t)%Z && (t <? end_)%Z
  else if (end_ <? start)%Z then (start <=? t)%Z || (t <? end_)%Z
  else false.

(** [HH:MM], the way the policy document writes a time of day. *)
Definition two_digits (n : Z) : string :=
  String (ascii_of_N (48 + Z.to_N (n / 10)))
    (String (ascii_of_N (48 + Z.to_N (n mod 10))) EmptyString).

Definition clock_text (hour minute : Z) : string :=
  two_digits hour ++ ":" ++ two_digits minute.

(** ** The shape of the policy document

    [load_policy] takes whatever JSON the file holds.  The entries that
    [audit_log] reads have the types it expects when [audit] is missing or
    a dictionary and [jsonl_path], if the backup is on and the key is
    there, is a string; those that [emit_event] reads, when
    [event_webhooks] is missing or a dictionary. *)
Definition audit_shape_ok (pol : policy) : bool :=
  match audit pol with
  | None => true
  | Some Improper => false
  | Some (Proper section) =>
      match log_to_jsonl section, jsonl_path section with
      | Some false, _ => true
      | _, Some Improper => false
      | _, _ => true
      end
  end.

Definition webhooks_shape_ok (pol : policy) : bool :=
  match event_webhooks pol with
  | Some Improper => false
  | _ => true
  end.

(** The dictionary under [event_webhooks], empty when the key is missing. *)
Definition webhooks_dict (pol : policy) : gmap string string :=
  match event_webhooks pol with
  | Some (Proper webhooks) => webhooks
  | _ => ∅
  end.

(** Every id of the outbox has been drawn from the sequence: so it is
    when the rows of the table all come from the INSERT of [emit_event]. *)
Definition ids_drawn (w : world) : Prop :=
  Forall (fun r => o_id r <= w_outbox_seq w) (hermes_event_outbox (w_saved w)).

(** A path that [audit_log] can append to when the file system does not
    fail: it has a directory part for [os.makedirs] and holds no NUL. *)
Definition appendable (path : string) : bool :=
  negb (String.eqb (Py.dirname path) EmptyString)
  && negb (Py.contains_char "000" path).

(** The row that [emit_event] inserts, as the INSERT and the column
    defaults make it: [id] is the value drawn from the sequence, [now] the
    [NOW()] of the transaction, [webhooks] the dictionary found in the
    policy. *)
Definition emitted_row (cfg : settings) (webhooks : gmap string string)
    (event_type source payload : string) (id : Z) (now : Q) : outbox_row :=
  {| o_id := id;
     o_event_type := event_type; o_source := source; o_payload := payload;
     o_webhook_url := (N8N_BASE cfg ++ Outbox.webhook_path webhooks event_type)%string;
     o_status := pending; o_attempts := 0; o_last_error := None;
     o_created_at := now; o_delivered_at := None |}.

(** The columns of an outbox row that say what the event is, as opposed
    to how its delivery stands. *)
Definition same_event (r r' : outbox_row) : Prop :=
  o_id r' = o_id r /\ o_event_type r' = o_event_type r /\ o_source r' = o_source r
  /\ o_payload r' = o_payload r /\ o_webhook_url r' = o_webhook_url r
  /\ o_created_at r' = o_created_at r.

(** How a row may differ after the worker has run, delivery state apart. *)
Definition kept (r r' : outbox_row) : Prop :=
  same_event r r' /\ (o_attempts r <= o_attempts r')%Z.

(** The number of POSTs that the worker may still spend on a row. *)
Definition tries_left (r : outbox_row) : nat :=
  match o_status r with
  | pending => Z.to_nat (Drain.MAX_ATTEMPTS - o_attempts r)
  | _ => 0
  end.

(** A session row after one more resolve at time [now]. *)
Definition touched (now : Q) (r : session_row) : session_row :=
  {| s_id := s_id r; s_caller_id := s_caller_id r; s_target := s_target r;
     s_session_type := s_session_type r;
     s_claude_session_id := s_claude_session_id r;
     s_created_at := s_created_at r;
     s_last_used := now; s_message_count := s_message_count r + 1 |}.

(** A session row after a handle has been stored on it. *)
Definition with_handle (h : string) (r : session_row) : session_row :=
  {| s_id := s_id r; s_caller_id := s_caller_id r; s_target := s_target r;
     s_session_type := s_session_type r;
     s_claude_session_id := Some h;
     s_created_at := s_created_at r;
     s_last_used := s_last_used r; s_message_count := s_message_count r |}.

(** What a resolve never changes on a row that exists. *)
Definition same_session (r r' : session_row) : Prop :=
  s_id r' = s_id r /\ s_caller_id r' = s_caller_id r /\ s_target r' = s_target r
  /\ s_session_type r' = s_session_type r
  /\ s_claude_session_id r' = s_claude_session_id r
  /\ s_created_at r' = s_created_at r.

(** How many of the resolves [qs] address the session id [sid]. *)
Definition resolves_of (sid : string) (qs : list (string * string * string * string))
  : nat :=
  length (List.filter
            (fun q => let '(caller_id, target, _, purpose) := q in
                      String.eqb (Session.session_key caller_id target purpose) sid)
            qs).

(** What one invocation leaves in the process table: nothing when the
    subprocess could not be started, otherwise one more process, finished
    with its return code or still running. *)
Definition procs_after (cmd : list string) (run : proc_run)
    (ps : list (list string * proc_state)) : list (list string * proc_state) :=
  match run with
  | SpawnFails _ => ps
  | Exits returncode _ _ => ps ++ [(cmd, Finished returncode)]
  | Hangs => ps ++ [(cmd, Running)]
  end.

(** ** Endpoints *)

(** What an endpoint hands back to the framework: the body of the
    response, or the [HTTPException] it raised. *)
Inductive reply (A : Type) :=
  | Body (a : A)
  | HTTPException (status_code : Z) (detail : errmsg).
Arguments Body {A} a.
Arguments HTTPException {A} status_code detail.

(** Texts that the model takes as given: [str(e)] of an exception and
    [str(v)] of a decoded value that is neither a string, a number, a
    boolean nor [None]. *)
Record texts := {
  str_exn : pyexn -> string;
  str_value : json -> string;
}.

Definition err_text (tx : texts) (m : errmsg) : string :=
  match m with
  | ErrText s => s
  | ErrOf e => str_exn tx e
  end.

Definition py_text (tx : texts) (p : pystr) : string :=
  match p with
  | Lit s => s
  | StrOf v => str_value tx v
  end.

(** The clock readings of one request, in the order in which the code
    takes them: [start], the hour and the time of the policy check, the
    time stamped by [record_call], and the time at which the latency is
    computed.  [t_txn] is no reading of the process: it is the [NOW()] of
    the transaction in which an endpoint writes its audit row after the
    session tracker has ended its own transaction. *)
Record readings := {
  t_start : Q;
  t_hour : Z;
  t_check : Q;
  t_record : Q;
  t_txn : Q;
  t_end : Q;
}.

Definition latency (tm : readings) : Q := ((t_end tm - t_start tm) * 1000)%Q.

Module AgentAsk.
Import Eff Store.

(** [AgentAskRequest]. *)
Record request := {
  caller_id : string;
  target_agent : string;
  message : string;
  priority : string;
  purpose : string;
}.

(** The body of the answer, without its rounded latency. *)
Record answer := {
  response : json;
  session_id : string;
}.

(** [result.get("response") is not None]: the response that
    [invoke_agent] recovered can itself be [None], from a JSON null. *)
Definition has_response (result : Invoke.agent_result) : bool :=
  match Invoke.agent_response result with
  | Some JNull | None => false
  | Some _ => true
  end.

Definition denied_entry (req : request) (denied : string) : Audit.audit_args :=
  {| Audit.caller_id := caller_id req; Audit.endpoint := "/agent/ask";
     Audit.target := Some (target_agent req); Audit.priority := priority req;
     Audit.request_summary := Some (Py.take 200 (message req));
     Audit.response_summary := None; Audit.latency_ms := None; Audit.cost_usd := 0;
     Audit.success := false;
     Audit.error := Some ("Policy denied: " ++ denied)%string;
     Audit.metadata := [] |}.

Definition result_entry (tx : texts) (tm : readings) (req : request)
    (session_id : string) (result : Invoke.agent_result) : Audit.audit_args :=
  {| Audit.caller_id := caller_id req; Audit.endpoint := "/agent/ask";
     Audit.target := Some (target_agent req); Audit.priority := priority req;
     Audit.request_summary := Some (Py.take 200 (message req));
     Audit.response_summary :=
       (if has_response result
        then Some (Py.take 200
                     (py_text tx (CLI.py_str (default JNull (Invoke.agent_response result)))))
        else None);
     Audit.latency_ms := Some (latency tm); Audit.cost_usd := 0;
     Audit.success := has_response result;
     Audit.error := err_text tx <$> Invoke.agent_error result;
     Audit.metadata := [("purpose", purpose req); ("session_id", session_id)] |}.

(** [agent_ask]: the rate ledger goes in and comes out beside the world.
    An exception of [audit_log] is not handled here and leaves the
    endpoint. *)
Definition agent_ask (cfg : settings) (env : surroundings) (pol : policy) (tx : texts)
    (tm : readings) (req : request) (run : proc_run) (rc : gmap string (list Q))
    (w : world)
  : exc (reply answer) * world * gmap string (list Q) :=
  match Gate.enforce_policy pol (t_hour tm) (t_check tm) (caller_id req) "/agent/ask"
          (priority req) rc with
  | (Exn e, rc) => (Exn e, w, rc)
  | (Ok (Some denied), rc) =>
      let '(r, w) :=
        (Audit.audit_log env pol (denied_entry req denied) ;;
         mret (HTTPException 429 (ErrText denied))) w in
      (r, w, rc)
  | (Ok None, rc) =>
      let rc := Rate.record_call (t_record tm) (caller_id req) rc in
      let '(r, w) :=
        (session_id ← Session.get_or_create_session (caller_id req) (target_agent req)
                        "agent" (purpose req);
         result ← Invoke.invoke_agent cfg (target_agent req) (message req) session_id run;
         (* the transaction of the session row is over *)
         modify (set_clock (t_txn tm)) ;;
         Audit.audit_log env pol (result_entry tx tm req session_id result) ;;
         if has_response result
         then mret (Body {| response := default JNull (Invoke.agent_response result);
                            session_id := session_id |})
         else mret (HTTPException 502
                      (default (ErrText "Agent invocation failed")
                         (Invoke.agent_error result)))) w in
      (r, w, rc)
  end.

End AgentAsk.

Module Events.
Import Eff Store.

Definition is_delivered (r : outbox_row) : bool := bool_decide (o_status r = delivered).

(** [DELETE FROM hermes_event_outbox WHERE status = 'delivered']. *)
Definition delete_delivered (d : db) : option db :=
  Some {| hermes_sessions := hermes_sessions d;
          hermes_audit_log := hermes_audit_log d;
          hermes_event_outbox :=
            List.filter (fun r => negb (is_delivered r)) (hermes_event_outbox d) |}.

(** [purge_delivered_events]; [cur.rowcount] is the number of rows that
    the DELETE has removed. *)
Definition purge_delivered_events : M (reply nat) :=
  conn ← get_pg;
  if negb conn then mret (HTTPException 503 (ErrText "Postgres not connected"))
  else
    try_except
      (pg_cursor ;;
       w ← get;
       pg_execute delete_delivered ;;
       let deleted := length (List.filter is_delivered (hermes_event_outbox (w_txn w))) in
       pg_commit ;;
       mret (Body deleted))
      (fun e =>
         pg_rollback ;;
         mret (HTTPException 500 (ErrOf e))).

(** [submit_event]: the body says [queued] whatever [emit_event] did. *)
Definition submit_event (cfg : settings) (pol : policy)
    (event_type source payload : string) : M (reply (string * string)) :=
  Outbox.emit_event cfg pol event_type source payload ;;
  mret (Body ("queued", event_type)).

End Events.

Module Compact.
Import Eff.

(** [CompactRequest]. *)
Record request := {
  agent : string;
  threshold : Z;
  skip_summary : bool;
  caller_id : string;
}.

(** The body of the answer, without the process id. *)
Record started := {
  status : string;
  started_agent : string;
  started_threshold : Z;
}.

(** [python] is [sys.executable], [script] the path of
    [compact_session.py]. *)
Definition compact_cmd (python script : string) (req : request) : list string :=
  [python; script]
  ++ (if String.eqb (agent req) "all"
      then ["--all"; "--threshold"; pretty (threshold req)]
      else ["--agent"; agent req; "--threshold"; pretty (threshold req)])
  ++ (if skip_summary req then ["--skip-summary"] else []).

(** [trigger_compaction]; [script_exists] is the answer of
    [script.exists()].  The subprocess is started and not awaited. *)
Definition trigger_compaction (python script : string) (script_exists : bool)
    (pol : policy) (tm : readings) (req : request) (run : proc_run)
    (rc : gmap string (list Q)) (w : world)
  : exc (reply started) * world * gmap string (list Q) :=
  match Gate.enforce_policy pol (t_hour tm) (t_check tm) (caller_id req) "/compact"
          "high" rc with
  | (Exn e, rc) => (Exn e, w, rc)
  | (Ok (Some denied), rc) => (Ok (HTTPException 429 (ErrText denied)), w, rc)
  | (Ok None, rc) =>
      let rc := Rate.record_call (t_record tm) (caller_id req) rc in
      if negb script_exists
      then (Ok (HTTPException 404 (ErrText "compact_session.py not found")), w, rc)
      else
        let '(r, w) :=
          (log INFO "Compaction triggered" ;;
           Invoke.create_subprocess_exec (compact_cmd python script req) run ;;
           mret (Body {| status := "started"; started_agent := agent req;
                         started_threshold := threshold req |})) w in
        (r, w, rc)
  end.

End Compact.

(** ** Start-up *)

Module Lifespan.
Import Eff Store.

(** [CREATE TABLE IF NOT EXISTS] and [CREATE INDEX IF NOT EXISTS]: the
    tables of the model are there, so the statement changes no row. *)
Definition create_if_not_exists (d : db) : option db := Some d.

Definition init_pg_tables : M unit :=
  conn ← get_pg;
  if negb conn then mret tt
  else
    try_except
      (pg_cursor ;;
       pg_execute create_if_not_exists ;;
       pg_execute create_if_not_exists ;;
       pg_execute create_if_not_exists ;;
       pg_execute create_if_not_exists ;;
       pg_execute create_if_not_exists ;;
       pg_execute create_if_not_exists ;;
       pg_commit ;;
       log INFO "Postgres tables ready")
      (fun e =>
         pg_rollback ;;
         log ERROR "Table init failed").

(** [min(3 * (attempt + 1), 10)]. *)
Definition wait_of (attempt : Z) : Z := Z.min (3 * (attempt + 1)) 10.

(** The loop [for attempt in range(10)] of [lifespan], from the given
    attempts on; beside the world it gives the seconds spent in
    [time.sleep]. *)
Fixpoint wait_for_postgres (attempts : list Z) (w : world) : exc unit * world * Z :=
  match attempts with
  | [] => (Ok tt, w, 0)
  | attempt :: rest =>
      match (init_pg_tables ;; get_pg) w with
      | (Exn e, w) => (Exn e, w, 0)
      | (Ok true, w) => (Ok tt, w, 0)
      | (Ok false, w) =>
          let '(_, w) := log WARNING "Waiting for Postgres" w in
          let '(r, w, slept) := wait_for_postgres rest w in
          (r, w, wait_of attempt + slept)
      end
  end.

(** [lifespan] up to its [yield].  The policy is read before the loop
    and the drain worker is started after it; neither touches the world
    of the model. *)
Definition startup (w : world) : exc unit * world * Z :=
  match wait_for_postgres (seqZ 0 10) w with
  | (Ok _, w, slept) =>
      let '(r, w) := log INFO "Hermes Bridge v1.1 online" w in (r, w, slept)
  | (Exn e, w, slept) => (Exn e, w, slept)
  end.

End Lifespan.

(** [m] keeps the invariant [I] of the world, whether it returns or
    raises. *)
Definition preserves {A} (I : world -> Prop) (m : M A) : Prop :=
  forall w r w', I w -> m w = (r, w') -> I w'.

(** Nothing uncommitted, and the committed data is [d]. *)
Definition settled (d : db) (w : world) : Prop :=
  w_txn w = w_saved w /\ w_saved w = d.

(** The seconds that the start-up loop can spend sleeping over the given
    attempts. *)
Definition sleep_budget (attempts : list Z) : Z :=
  fold_right (fun attempt acc => Lifespan.wait_of attempt + acc) 0 attempts.

(** ** Triggering a workflow *)



Module N8n.
Import Eff.

(** [N8nTriggerRequest], without the payload that is passed on. *)
Record request := {
  caller_id : string;
  workflow_path : string;
  priority : string;
}.



Definition entry (req : request) (priority : string) (response_summary : option string)
    (latency_ms : option Q) (success : bool) (error : option string) : Audit.audit_args :=
  {| Audit.caller_id := caller_id req; Audit.endpoint := "/n8n/trigger";
     Audit.target := Some "n8n"; Audit.priority := priority;
     Audit.request_summary := Some ("workflow=" ++ workflow_path req)%string;
     Audit.response_summary := response_summary; Audit.latency_ms := latency_ms;
     Audit.cost_usd := 0; Audit.success := success; Audit.error := error;
     Audit.metadata := [] |}.

Definition denied_entry (req : request) (denied : string) : Audit.audit_args :=
  entry req (priority req) None None false (Some ("Policy denied: " ++ denied)%string).




End N8n.

(** ** Concrete inputs of the scenarios *)

Module Scenario.

Definition limits (cph : Z) (prios : list string) : agent_limits :=
  {| calls_per_hour := Some cph; max_cost_per_call_usd := None;
     allowed_targets := None; priority_levels := Some prios;
     quiet_hours_exempt := None |}.

(** Quiet hours 23:00-08:00; caller [c1] with five calls per hour. *)
Definition pol_a : policy :=
  {| per_agent := {[ "c1" := limits 5 ["low"; "normal"; "high"; "critical"] ]};
     global_calls_per_hour := None;
     quiet_hours_start := Some "23:00"; quiet_hours_end := Some "08:00";
     event_webhooks := None; audit := None |}.

Definition call_at (caller prio : string) (hour secs : Z) : Gate.call :=
  {| Gate.c_caller := caller; Gate.c_priority := prio; Gate.c_hour := hour;
     Gate.c_check := inject_Z secs; Gate.c_stamp := inject_Z secs |}.

(** Six calls of [c1] at noon, ten seconds apart. *)
Definition six_calls : list Gate.call :=
  List.map (fun i => call_at "c1" "normal" 12 (43200 + 10 * i)) [0; 1; 2; 3; 4; 5].

(** Global ceiling two; [a] and [b] call once and then stay idle. *)
Definition pol_stale : policy :=
  {| per_agent := ∅; global_calls_per_hour := Some 2;
     quiet_hours_start := None; quiet_hours_end := None;
     event_webhooks := None; audit := None |}.

Definition stale_ops : list Gate.rate_op :=
  [Gate.OpCheck "a" 0; Gate.OpRecord "a" 0; Gate.OpCheck "b" 1; Gate.OpRecord "b" 1].

Definition empty_db : db :=
  {| hermes_sessions := []; hermes_audit_log := []; hermes_event_outbox := [] |}.

(** A store that answers, with empty tables. *)
Definition world_up : world :=
  {| w_conn := Conn false; w_saved := empty_db; w_txn := empty_db; w_clock := 1000;
     w_faults := []; w_uuids := 0; w_jsonl := ∅; w_log := []; w_procs := [];
     w_outbox_seq := 0 |}.

(** No connection, and the next attempts to connect fail. *)
Definition world_down : world :=
  {| w_conn := NoConn; w_saved := empty_db; w_txn := empty_db; w_clock := 1000;
     w_faults := repeat true 16; w_uuids := 0; w_jsonl := ∅; w_log := []; w_procs := [];
     w_outbox_seq := 0 |}.

(** The process runs as a user whose home is [/home/hermes]; the entry
    for the backup file is built at second 1000. *)
Definition env : surroundings :=
  {| userhome := fun name => if String.eqb name EmptyString then Some "/home/hermes"
                             else None;
     utcnow := 1000 |}.

(** Policy files that hold [{"audit": null}], [{"event_webhooks": null}]
    and [{"audit": {"jsonl_path": "hermes_audit.jsonl"}}]. *)
Definition pol_audit_null : policy :=
  {| per_agent := ∅; global_calls_per_hour := None;
     quiet_hours_start := None; quiet_hours_end := None;
     event_webhooks := None; audit := Some Improper |}.

Definition pol_webhooks_null : policy :=
  {| per_agent := ∅; global_calls_per_hour := None;
     quiet_hours_start := None; quiet_hours_end := None;
     event_webhooks := Some Improper; audit := None |}.


(** The audit entry of an allowed call. *)
Definition ask_audit : Audit.audit_args :=
  {| Audit.caller_id := "agent-a"; Audit.endpoint := "/agent/ask";
     Audit.target := Some "main"; Audit.priority := "normal";
     Audit.request_summary := Some "hello"; Audit.response_summary := None;
     Audit.latency_ms := None; Audit.cost_usd := 0; Audit.success := true;
     Audit.error := None; Audit.metadata := [] |}.

Definition cfg : settings :=
  {| N8N_BASE := "http://localhost:5678"; CLAUDE_BIN := "claude";
     SUPERCLAW_BIN := "openclaw"; CLAUDE_TIMEOUT := 120; AGENT_TIMEOUT := 120 |}.


Definition unreachable (_ : outbox_row) : post_result := ConnectError.

Definition event (id : Z) (st : outbox_status) (attempts : Z) (created : Q) : outbox_row :=
  {| o_id := id;
     o_event_type := (if (id =? 2)%Z then "task.updated"
                      else if (id =? 3)%Z then "task.closed" else "task.created");
     o_source := "agent-a";
     o_payload := "{}"; o_webhook_url := "http://localhost:5678/webhook/hermes-events";
     o_status := st; o_attempts := attempts; o_last_error := None;
     o_created_at := created; o_delivered_at := None |}.

(** One delivered event, one pending on its last attempt, one new. *)
Definition mixed_events : list outbox_row :=
  [event 1 delivered 0 10; event 2 pending 4 20; event 3 pending 0 30].

Definition rejecting (_ : outbox_row) : post_result := Response 500.

(** The event on its last attempt, before and after a rejected POST. *)
Definition last_try : outbox_row := event 2 pending 4 20.
Definition last_try_after : outbox_row :=
  Drain.with_status failed (Drain.with_failure "HTTP 500" last_try).

(** A run of the CLI that prints a banner and a JSON object. *)
Definition hello_stdout : string :=
  "[plugin] loaded" ++ Py.nl ++ Json.dq "{'result':'hello'}" ++ Py.nl.

Definition hello_run : proc_run := Exits 0 (Ok hello_stdout) (Ok EmptyString).

(** Two rounds of resolve-then-invoke for one triple, as [claude_ask]
    makes them: the two session ids and the two handles passed to the
    CLI. *)
Definition two_rounds (w : world) : list (exc string) :=
  let '(s1, w) := Session.get_or_create_session "agent-a" "claude" "claude" "general" w in
  let '(r1, w) := Invoke.invoke_claude cfg "first" "hermes-agent-a-claude-general"
                    false hello_run w in
  let '(s2, w) := Session.get_or_create_session "agent-a" "claude" "claude" "general" w in
  let '(r2, w) := Invoke.invoke_claude cfg "second" "hermes-agent-a-claude-general"
                    false hello_run w in
  [s1;
   match r1 with Ok r => Ok (Invoke.session_id r) | Exn e => Exn e end;
   s2;
   match r2 with Ok r => Ok (Invoke.session_id r) | Exn e => Exn e end].

(** The same triple resolved first through [agent_ask], for an agent
    that is itself called [claude]: the number of handles drawn after the
    resolve, then the handle passed by a later [invoke_claude]. *)
Definition agent_row_then_claude (w : world) : nat * exc string :=
  let '(_, w) := Session.get_or_create_session "agent-a" "claude" "agent" "general" w in
  let '(_, w) := Session.get_or_create_session "agent-a" "claude" "claude" "general" w in
  let '(r, _) := Invoke.invoke_claude cfg "first" "hermes-agent-a-claude-general"
                   false hello_run w in
  (w_uuids w, match r with Ok r => Ok (Invoke.session_id r) | Exn e => Exn e end).

(** The store after [agent-a] has resolved its session with the
    assistant CLI. *)
Definition world_resolved : world :=
  snd (Session.get_or_create_session "agent-a" "claude" "claude" "general" world_up).

End Scenario.

(** ** Inputs for the endpoint *)

Module EndpointScenario.

(** Stand-ins for the texts of exceptions and of compound values. *)
Definition tx : texts :=
  {| str_exn := fun _ => "error"; str_value := fun _ => "value" |}.

Definition at_noon : readings :=
  {| t_start := 1000; t_hour := 12; t_check := 1000; t_record := 1000;
     t_txn := 1001; t_end := 1002 |}.

Definition ask_main : AgentAsk.request :=
  {| AgentAsk.caller_id := "c1"; AgentAsk.target_agent := "main";
     AgentAsk.message := "status?"; AgentAsk.priority := "normal";
     AgentAsk.purpose := "general" |}.


End EndpointScenario.

(** A database that holds the given outbox and nothing else. *)
Definition db_with_outbox (rows : list outbox_row) : db :=
  {| hermes_sessions := []; hermes_audit_log := []; hermes_event_outbox := rows |}.
(** * Properties *)

(** ** Counters and the ledger of accepted calls *)

Section RateFacts.
Import Rate.

Lemma newer_spec cutoff t : newer cutoff t = true <-> (cutoff < t)%Q.
Proof.
  unfold newer. rewrite negb_true_iff, <- not_true_iff_false, Qle_bool_iff.
  split; [apply Qnot_le_lt | apply Qlt_not_le].
Qed.

Lemma newer_mono c1 c2 t : (c1 <= c2)%Q -> newer c2 t = true -> newer c1 t = true.
Proof. rewrite !newer_spec. intros; lra. Qed.


Lemma filter_newer_twice c1 c2 l :
  (c1 <= c2)%Q ->
  List.filter (newer c2) (List.filter (newer c1) l) = List.filter (newer c2) l.
Proof.
  intros Hc. induction l as [|t l IH]; simpl; [reflexivity|].
  destruct (newer c1 t) eqn:E1; simpl.
  - destruct (newer c2 t); [f_equal|]; exact IH.
  - destruct (newer c2 t) eqn:E2; [|exact IH].
    apply (newer_mono c1 c2 t Hc) in E2. congruence.
Qed.

Lemma fresh_count_mono c1 c2 l :
  (c1 <= c2)%Q -> (fresh_count c2 l <= fresh_count c1 l)%nat.
Proof.
  intros Hc. unfold fresh_count. induction l as [|t l IH]; simpl; [lia|].
  destruct (newer c2 t) eqn:E2.
  - rewrite (newer_mono c1 c2 t Hc E2). simpl. lia.
  - destruct (newer c1 t); simpl; lia.
Qed.

Lemma fresh_count_pruned c1 c2 l :
  (c1 <= c2)%Q -> fresh_count c2 (List.filter (newer c1) l) = fresh_count c2 l.
Proof. intros Hc. unfold fresh_count. rewrite filter_newer_twice by exact Hc. reflexivity. Qed.

Lemma fresh_count_le_length cut l : (fresh_count cut l <= length l)%nat.
Proof.
  unfold fresh_count. induction l as [|t l IH]; simpl; [lia|].
  destruct (newer cut t); simpl; lia.
Qed.

Lemma fresh_count_app cut l1 l2 :
  fresh_count cut (l1 ++ l2) = (fresh_count cut l1 + fresh_count cut l2)%nat.
Proof. unfold fresh_count. rewrite List.filter_app, length_app. reflexivity. Qed.


Lemma total_calls_total rc : total_calls rc = total (@length Q) rc.
Proof. reflexivity. Qed.

Lemma total_insert_fresh f c l (rc : gmap string (list Q)) :
  rc !! c = None -> total f (<[c := l]> rc) = (f l + total f rc)%nat.
Proof.
  intros Hc. unfold total.
  rewrite map_fold_insert_L; [reflexivity | intros; lia | exact Hc].
Qed.

Lemma total_insert f c l (rc : gmap string (list Q)) :
  f [] = 0%nat ->
  (total f (<[c := l]> rc) + f (calls_of rc c) = total f rc + f l)%nat.
Proof.
  intros Hnil. unfold calls_of. destruct (rc !! c) as [v|] eqn:E; simpl.
  - rewrite <- (insert_delete_eq rc c l).
    rewrite total_insert_fresh by apply lookup_delete_eq.
    rewrite <- (insert_id rc c v E) at 2.
    rewrite <- (insert_delete_eq rc c v).
    rewrite total_insert_fresh by apply lookup_delete_eq. lia.
  - rewrite total_insert_fresh by exact E. lia.
Qed.

Lemma total_le f g (rc : gmap string (list Q)) :
  (forall l, (f l <= g l)%nat) -> (total f rc <= total g rc)%nat.
Proof.
  intros Hfg. induction rc as [|c l rc Hc IH] using map_ind.
  - unfold total. rewrite !map_fold_empty. lia.
  - rewrite !total_insert_fresh by exact Hc. specialize (Hfg l). lia.
Qed.


Lemma synced_empty last : synced last ∅ [].
Proof.
  split; intros; simpl.
  - unfold calls_of. rewrite lookup_empty. reflexivity.
  - apply Nat.le_0_l.
Qed.

Lemma calls_of_insert rc c c' l :
  calls_of (<[c := l]> rc) c' = if decide (c = c') then l else calls_of rc c'.
Proof.
  unfold calls_of. rewrite lookup_insert. destruct (decide (c = c')); reflexivity.
Qed.

Lemma synced_prune last now c rc ledger :
  synced last rc ledger -> (last <= now)%Q ->
  synced now (_prune now c rc) ledger.
Proof.
  intros [Hc Ht] Hle. split.
  - intros c' cut Hcut. unfold _prune. rewrite calls_of_insert.
    destruct (decide (c = c')) as [->|_].
    + rewrite filter_newer_twice by exact Hcut. apply Hc. lra.
    + apply Hc. lra.
  - intros cut Hcut. unfold _prune.
    pose proof (total_insert (fresh_count cut) c
                  (List.filter (newer (now - 3600)%Q) (calls_of rc c)) rc eq_refl) as E.
    rewrite fresh_count_pruned in E by exact Hcut.
    specialize (Ht cut ltac:(lra)). lia.
Qed.

Lemma ledger_of_app c l1 l2 : ledger_of c (l1 ++ l2) = ledger_of c l1 ++ ledger_of c l2.
Proof. unfold ledger_of. rewrite List.filter_app, List.map_app. reflexivity. Qed.

Lemma synced_record last t c rc ledger :
  synced last rc ledger -> (last <= t)%Q ->
  synced t (record_call t c rc) (ledger ++ [(c, t)]).
Proof.
  intros [Hc Ht] Hle. split.
  - intros c' cut Hcut. unfold record_call. rewrite calls_of_insert, ledger_of_app.
    rewrite List.filter_app. unfold ledger_of at 2. simpl.
    destruct (decide (c = c')) as [->|Hne].
    + rewrite String.eqb_refl. simpl. rewrite List.filter_app. f_equal. apply Hc. lra.
    + apply String.eqb_neq in Hne. rewrite Hne. simpl. rewrite app_nil_r. apply Hc. lra.
  - intros cut Hcut. unfold record_call.
    pose proof (total_insert (fresh_count cut) c (calls_of rc c ++ [t]) rc eq_refl) as E.
    rewrite List.map_app, !fresh_count_app in *. simpl.
    specialize (Ht cut ltac:(lra)). lia.
Qed.

End RateFacts.

(** ** The gate along a run of calls *)

Section GateFacts.
Import Rate Gate.
Variable pol : policy.

(** What a verdict [Ok None] tells about the counters. *)
Lemma enforce_allow hour now c ep pr rc rc' :
  enforce_policy pol hour now c ep pr rc = (Ok None, rc') ->
  rc' = _prune now c rc
  /\ Z.of_nat (total_calls rc') < global_limit pol
  /\ Z.of_nat (length (calls_of rc' c)) < agent_limit pol c.
Proof.
  unfold enforce_policy, check_rate_limit.
  destruct (is_quiet_hours pol hour) as [quiet|e]; [|discriminate].
  destruct (quiet && _ && _); [discriminate|].
  destruct (Z.geb_spec (Z.of_nat (total_calls (_prune now c rc))) (global_limit pol));
    simpl; [discriminate|].
  destruct (Z.geb_spec (Z.of_nat (length (calls_of (_prune now c rc) c)))
              (agent_limit pol c)); simpl; [discriminate|].
  destruct (negb (existsb _ _)); [discriminate|].
  intros [= <-]. auto.
Qed.

(** Every other verdict leaves the counters alone or prunes them. *)
Lemma enforce_counters hour now c ep pr rc v rc' :
  enforce_policy pol hour now c ep pr rc = (v, rc') ->
  rc' = rc \/ rc' = _prune now c rc.
Proof.
  unfold enforce_policy, check_rate_limit.
  destruct (is_quiet_hours pol hour) as [quiet|e]; [|intros [= _ <-]; auto].
  destruct (quiet && _ && _); [intros [= _ <-]; auto|].
  destruct (_ >=? global_limit pol); simpl; [intros [= _ <-]; auto|].
  destruct (_ >=? agent_limit pol c); simpl; [intros [= _ <-]; auto|].
  destruct (negb (existsb _ _)); intros [= _ <-]; auto.
Qed.

Lemma in_window_newer T t cut :
  (cut <= T - 3600)%Q -> in_window T t = true -> newer cut t = true.
Proof.
  unfold in_window. intros Hc [H _]%andb_true_iff. exact (newer_mono _ _ _ Hc H).
Qed.

Lemma in_window_upper T t : in_window T t = true -> (t <= T)%Q.
Proof. unfold in_window. intros [_ H]%andb_true_iff. apply Qle_bool_iff, H. Qed.

Lemma accepted_by_fresh c T cut ledger :
  (cut <= T - 3600)%Q ->
  (accepted_by c T ledger <= fresh_count cut (ledger_of c ledger))%nat.
Proof.
  intros Hc. unfold accepted_by, fresh_count, ledger_of.
  induction ledger as [|[c' t] l IH]; simpl; [lia|].
  destruct (String.eqb c' c); simpl; [|exact IH].
  destruct (in_window T t) eqn:E.
  - rewrite (in_window_newer _ _ _ Hc E). simpl. lia.
  - destruct (newer cut t); simpl; lia.
Qed.

Lemma accepted_total_fresh T cut ledger :
  (cut <= T - 3600)%Q ->
  (accepted_total T ledger <= fresh_count cut (List.map snd ledger))%nat.
Proof.
  intros Hc. unfold accepted_total, fresh_count.
  induction ledger as [|[c' t] l IH]; simpl; [lia|].
  destruct (in_window T t) eqn:E.
  - rewrite (in_window_newer _ _ _ Hc E). simpl. lia.
  - destruct (newer cut t); simpl; lia.
Qed.

Lemma accepted_by_snoc c T ledger c' t :
  accepted_by c T (ledger ++ [(c', t)]) =
  (accepted_by c T ledger + if String.eqb c' c && in_window T t then 1 else 0)%nat.
Proof.
  unfold accepted_by. rewrite List.filter_app, length_app. simpl.
  destruct (String.eqb c' c && in_window T t); reflexivity.
Qed.

Lemma accepted_total_snoc T ledger c' t :
  accepted_total T (ledger ++ [(c', t)]) =
  (accepted_total T ledger + if in_window T t then 1 else 0)%nat.
Proof.
  unfold accepted_total. rewrite List.filter_app, length_app. simpl.
  destruct (in_window T t); reflexivity.
Qed.


Lemma gate_step_keeps last rc ledger c :
  synced last rc ledger -> within_ceilings pol ledger ->
  (last <= c_check c)%Q -> (c_check c <= c_stamp c)%Q ->
  synced (c_stamp c) (fst (gate_step pol (rc, ledger) c))
                     (snd (gate_step pol (rc, ledger) c))
  /\ within_ceilings pol (snd (gate_step pol (rc, ledger) c)).
Proof.
  intros Hs [Hc Hg] H1 H2. unfold gate_step. simpl.
  destruct (enforce_policy pol (c_hour c) (c_check c) (c_caller c) "/claude/ask"
              (c_priority c) rc) as [v rc'] eqn:E.
  assert (Hs' : synced (c_check c) rc' ledger).
  { destruct (enforce_counters _ _ _ _ _ _ _ _ E) as [-> | ->].
    - destruct Hs as [A B]. split; intros; [apply A | apply B]; lra.
    - apply synced_prune with (last := last); assumption. }
  assert (Hidle : synced (c_stamp c) rc' ledger /\ within_ceilings pol ledger).
  { split; [|split; assumption].
    destruct Hs' as [A B]. split; intros; [apply A | apply B]; lra. }
  destruct v as [[reason|]|e]; simpl; try exact Hidle.
  apply enforce_allow in E as (-> & Hglob & Hag).
  split; [apply synced_record with (last := c_check c); assumption|].
  set (cut := (c_check c - 3600)%Q).
  split.
  - intros c0 T Hpos. rewrite accepted_by_snoc.
    destruct (String.eqb (c_caller c) c0 && in_window T (c_stamp c)) eqn:Ein;
      [|specialize (Hc c0 T Hpos); lia].
    apply andb_true_iff in Ein as [<-%String.eqb_eq Hin].
    apply in_window_upper in Hin.
    pose proof (accepted_by_fresh (c_caller c) T cut ledger ltac:(unfold cut; lra)) as Hle.
    unfold fresh_count in Hle.
    rewrite <- (synced_caller _ _ _ Hs' (c_caller c) cut) in Hle by (unfold cut; lra).
    fold (fresh_count cut (calls_of (_prune (c_check c) (c_caller c) rc) (c_caller c))) in Hle.
    pose proof (fresh_count_le_length cut
                  (calls_of (_prune (c_check c) (c_caller c) rc) (c_caller c))). lia.
  - intros T Hpos. rewrite accepted_total_snoc.
    destruct (in_window T (c_stamp c)) eqn:Hin; [|specialize (Hg T Hpos); lia].
    apply in_window_upper in Hin.
    pose proof (accepted_total_fresh T cut ledger ltac:(unfold cut; lra)) as Hle.
    pose proof (synced_total _ _ _ Hs' cut ltac:(unfold cut; lra)) as Hle2.
    pose proof (total_le (fresh_count cut) (@length Q)
                  (_prune (c_check c) (c_caller c) rc) (fresh_count_le_length cut)) as Hle3.
    rewrite total_calls_total in Hglob. lia.
Qed.

Lemma gate_fold_keeps calls : forall last rc ledger,
  synced last rc ledger -> within_ceilings pol ledger -> clock_ok last calls ->
  within_ceilings pol (snd (fold_left (gate_step pol) calls (rc, ledger))).
Proof.
  induction calls as [|c calls IH]; intros last rc ledger Hs Hw Hclk; simpl; [exact Hw|].
  destruct Hclk as (H1 & H2 & Hclk).
  destruct (gate_step_keeps last rc ledger c Hs Hw H1 H2) as [Hs' Hw'].
  destruct (gate_step pol (rc, ledger) c) as [rc1 ledger1].
  exact (IH _ _ _ Hs' Hw' Hclk).
Qed.

Lemma gate_run_within_ceilings t0 calls :
  clock_ok t0 calls -> within_ceilings pol (snd (gate_run pol calls)).
Proof.
  intros Hclk. unfold gate_run.
  apply gate_fold_keeps with (last := t0); [apply synced_empty| |exact Hclk].
  split; intros; simpl; assumption.
Qed.

End GateFacts.

Section OpsFacts.
Import Rate Gate.
Variable pol : policy.

Lemma check_rate_limit_counters now c rc :
  snd (check_rate_limit pol now c rc) = _prune now c rc.
Proof.
  unfold check_rate_limit.
  destruct (_ >=? global_limit pol); [reflexivity|].
  destruct (_ >=? agent_limit pol c); reflexivity.
Qed.

Lemma ops_fold_synced ops : forall last rc ledger,
  synced last rc ledger -> ops_clock_ok last ops ->
  exists last',
    synced last' (fst (fold_left (op_step pol) ops (rc, ledger)))
                 (snd (fold_left (op_step pol) ops (rc, ledger)))
    /\ forall now, ops_clock_ok last (ops ++ [OpCheck EmptyString now]) -> (last' <= now)%Q.
Proof.
  induction ops as [|o ops IH]; intros last rc ledger Hs Hclk; simpl.
  - exists last. split; [exact Hs|]. intros now [H _]. exact H.
  - destruct Hclk as [H1 Hclk].
    assert (Hs' : synced (op_clock o) (fst (op_step pol (rc, ledger) o))
                    (snd (op_step pol (rc, ledger) o))).
    { destruct o as [c now|c t]; simpl.
      - rewrite check_rate_limit_counters. apply synced_prune with (last := last); assumption.
      - apply synced_record with (last := last); assumption. }
    destruct (op_step pol (rc, ledger) o) as [rc1 ledger1].
    destruct (IH _ _ _ Hs' Hclk) as (last' & Hl & Hnow).
    exists last'. split; [exact Hl|]. intros now [_ H]. apply Hnow, H.
Qed.

Lemma ops_clock_ok_retarget last ops c c' now :
  ops_clock_ok last (ops ++ [OpCheck c now]) -> ops_clock_ok last (ops ++ [OpCheck c' now]).
Proof.
  revert last. induction ops as [|o ops IH]; simpl; intros last.
  - auto.
  - intros [H1 H2]. split; [exact H1 | apply IH, H2].
Qed.

Lemma ops_clock_ok_prefix last ops o :
  ops_clock_ok last (ops ++ [o]) -> ops_clock_ok last ops.
Proof.
  revert last. induction ops as [|o' ops IH]; simpl; intros last; [auto|].
  intros [H1 H2]. split; [exact H1 | apply IH, H2].
Qed.

(** The sum that [check_rate_limit] compares with the global ceiling is
    at least the number of calls recorded in the last hour. *)
Lemma global_count_covers t0 ops c now :
  ops_clock_ok t0 (ops ++ [OpCheck c now]) ->
  (fresh_count (now - 3600) (List.map snd (snd (ops_run pol ops)))
   <= total_calls (_prune now c (fst (ops_run pol ops))))%nat.
Proof.
  intros Hclk. unfold ops_run.
  destruct (ops_fold_synced ops t0 ∅ [] (synced_empty t0)
              (ops_clock_ok_prefix _ _ _ Hclk)) as (last' & Hs & Hnow).
  specialize (Hnow now (ops_clock_ok_retarget _ _ _ _ _ Hclk)).
  pose proof (synced_prune _ now c _ _ Hs Hnow) as Hp.
  pose proof (synced_total _ _ _ Hp (now - 3600)%Q ltac:(lra)) as H1.
  pose proof (total_le (fresh_count (now - 3600)) (@length Q)
                (_prune now c (fst (fold_left (op_step pol) ops (∅, []))))
                (fresh_count_le_length _)) as H2.
  rewrite total_calls_total. lia.
Qed.

End OpsFacts.

(** ** Claims about the policy gate *)

Section GateClaims.
Import Rate Gate.

(** C1.  Along every run of mediated calls whose clock readings never go
    back, and for every instant [T]: the calls of one caller that the gate
    accepted in the 60 minutes ending at [T] never outnumber that caller's
    calls-per-hour ceiling, and the calls accepted for all callers together
    never outnumber the global ceiling (ceilings being non-negative
    numbers).  In the run where [c1], with a ceiling of five, places six
    calls ten seconds apart, calls 1-5 are accepted and call 6 is denied
    with the per-agent rate-limit reason. *)
Theorem rate_ceilings_hold :
  (forall pol t0 calls caller T,
      clock_ok t0 calls -> 0 <= agent_limit pol caller ->
      Z.of_nat (accepted_by caller T (snd (gate_run pol calls)))
      <= agent_limit pol caller)
  /\ (forall pol t0 calls T,
      clock_ok t0 calls -> 0 <= global_limit pol ->
      Z.of_nat (accepted_total T (snd (gate_run pol calls))) <= global_limit pol)
  /\ gate_verdicts Scenario.pol_a ∅ Scenario.six_calls
     = [Ok None; Ok None; Ok None; Ok None; Ok None;
        Ok (Some "Agent 'c1' rate limit (5/hr) exceeded")].
Proof.
  split; [|split].
  - intros pol t0 calls caller T Hclk Hpos.
    exact (proj1 (gate_run_within_ceilings pol t0 calls Hclk) caller T Hpos).
  - intros pol t0 calls T Hclk Hpos.
    exact (proj2 (gate_run_within_ceilings pol t0 calls Hclk) T Hpos).
  - vm_compute. reflexivity.
Qed.

Lemma rate_ceilings_hold_witness :
  Z.of_nat (accepted_by "c1" 43260 (snd (gate_run Scenario.pol_a Scenario.six_calls))) <= 5
  /\ Z.of_nat (accepted_total 43260 (snd (gate_run Scenario.pol_a Scenario.six_calls))) <= 60.
Proof.
  split.
  - apply (proj1 rate_ceilings_hold Scenario.pol_a 43200%Q Scenario.six_calls "c1" 43260%Q).
    + vm_compute. repeat split; discriminate.
    + vm_compute. discriminate.
  - apply (proj1 (proj2 rate_ceilings_hold) Scenario.pol_a 43200%Q Scenario.six_calls 43260%Q).
    + vm_compute. repeat split; discriminate.
    + vm_compute. discriminate.
Defined.

(** C9.  [check_rate_limit] prunes the list of the requesting caller
    only.  Whatever checks and recordings came before (clock readings
    never going back), the sum it compares with the global ceiling is at
    least the number of calls recorded in the trailing hour; and there is
    a reachable state where a caller with no call of its own is denied on
    the global ceiling although no call at all was recorded in the
    trailing hour: the two entries counted are the expired ones of idle
    callers. *)
Theorem global_count_never_undercounts :
  (forall pol t0 ops c now,
      ops_clock_ok t0 (ops ++ [OpCheck c now]) ->
      (fresh_count (now - 3600) (List.map snd (snd (ops_run pol ops)))
       <= total_calls (_prune now c (fst (ops_run pol ops))))%nat)
  /\ (let st := ops_run Scenario.pol_stale Scenario.stale_ops in
      fst (check_rate_limit Scenario.pol_stale 7200 "c" (fst st))
        = (false, "Global rate limit (2/hr) exceeded")
      /\ fresh_count (7200 - 3600) (List.map snd (snd st)) = 0%nat
      /\ calls_of (fst st) "c" = []).
Proof.
  split.
  - intros pol t0 ops c now Hclk. exact (global_count_covers pol t0 ops c now Hclk).
  - vm_compute. auto.
Qed.

Lemma global_count_never_undercounts_witness :
  (fresh_count (7200 - 3600)
     (List.map snd (snd (ops_run Scenario.pol_stale Scenario.stale_ops)))
   <= total_calls (_prune 7200 "c" (fst (ops_run Scenario.pol_stale Scenario.stale_ops))))%nat.
Proof.
  apply (proj1 global_count_never_undercounts Scenario.pol_stale 0%Q Scenario.stale_ops "c" 7200%Q).
  vm_compute. repeat split; discriminate.
Defined.

End GateClaims.

Section QuietHoursClaim.
Import Rate Gate.

Lemma quiet_window_hours_spec start end_ hour :
  0 <= start < 24 -> 0 <= end_ < 24 -> 0 <= hour < 24 ->
  (quiet_at start end_ hour = true <-> In hour (quiet_window_hours start end_)).
Proof.
  intros Hs He Hh. unfold quiet_at, quiet_window_hours.
  rewrite in_map_iff. setoid_rewrite in_seq.
  destruct (Z.gtb_spec start end_) as [Hgt|Hle].
  - replace ((end_ - start) mod 24) with (end_ - start + 24)
      by (apply Z.mod_unique with (q := -1); lia).
    rewrite orb_true_iff, Z.geb_le, Z.ltb_lt. split.
    + intros [H|H].
      * exists (Z.to_nat (hour - start)). split; [|lia].
        rewrite Z2Nat.id by lia. rewrite Z.mod_small; lia.
      * exists (Z.to_nat (hour - start + 24)). split; [|lia].
        rewrite Z2Nat.id by lia.
        symmetry; apply Z.mod_unique with (q := 1); lia.
    + intros (i & <- & Hi).
      destruct (Z_lt_le_dec (start + Z.of_nat i) 24) as [Hlt|Hge].
      * rewrite Z.mod_small by lia. lia.
      * replace ((start + Z.of_nat i) mod 24) with (start + Z.of_nat i - 24)
          by (apply Z.mod_unique with (q := 1); lia). lia.
  - rewrite Z.mod_small by lia.
    rewrite andb_true_iff, Z.leb_le, Z.ltb_lt. split.
    + intros [H1 H2]. exists (Z.to_nat (hour - start)). split; [|lia].
      rewrite Z2Nat.id by lia. rewrite Z.mod_small; lia.
    + intros (i & <- & Hi). rewrite Z.mod_small by lia. lia.
Qed.

Lemma rate_reason_not_quiet pol now c rc :
  snd (fst (check_rate_limit pol now c rc)) <> quiet_reason
  \/ fst (fst (check_rate_limit pol now c rc)) = true.
Proof.
  unfold check_rate_limit.
  destruct (_ >=? global_limit pol); [left; discriminate|].
  destruct (_ >=? agent_limit pol c); [left; discriminate | right; reflexivity].
Qed.

Lemma quiet_guard_spec pol c pr quiet :
  quiet && negb (String.eqb pr "critical") && negb (is_exempt pol c) = true
  <-> quiet = true /\ pr <> "critical"
      /\ default false (quiet_hours_exempt (get_agent_limits pol c)) = false
      /\ c <> "dashboard".
Proof.
  unfold is_exempt.
  rewrite !andb_true_iff, !negb_true_iff, orb_false_iff, !String.eqb_neq. tauto.
Qed.

Lemma enforce_quiet_iff pol hour now c ep pr rc :
  fst (enforce_policy pol hour now c ep pr rc) = Ok (Some quiet_reason)
  <-> is_quiet_hours pol hour = Ok true
      /\ pr <> "critical"
      /\ default false (quiet_hours_exempt (get_agent_limits pol c)) = false
      /\ c <> "dashboard".
Proof.
  unfold enforce_policy.
  destruct (is_quiet_hours pol hour) as [quiet|e];
    [|split; [discriminate | intros [[=] _]]].
  pose proof (quiet_guard_spec pol c pr quiet) as G.
  destruct (quiet && negb (String.eqb pr "critical") && negb (is_exempt pol c)).
  - simpl. split; [intros _ | reflexivity].
    destruct (proj1 G eq_refl) as (-> & H). auto.
  - split.
    + pose proof (rate_reason_not_quiet pol now c rc) as Hr.
      destruct (check_rate_limit pol now c rc) as [[allowed reason] rc'].
      simpl in Hr. destruct allowed; simpl.
      * destruct (negb (existsb (String.eqb pr) _)); discriminate.
      * intros [= ->]. destruct Hr as [Hr|Hr]; [elim Hr; reflexivity | discriminate].
    + intros ([= ->] & H). pose proof (proj2 G (conj eq_refl H)). discriminate.
Qed.

Lemma split_head_clock_text h m :
  0 <= h < 24 -> Py.split_head ":" (clock_text h m) = two_digits h.
Proof.
  intros Hh.
  assert (Hin : In h (seqZ 0 24)) by (apply list_elem_of_In, elem_of_seqZ; lia).
  unfold clock_text. generalize (two_digits m). intros rest.
  vm_compute in Hin.
  repeat (destruct Hin as [<-|Hin]; [reflexivity|]). destruct Hin.
Qed.

Lemma int_two_digits h : 0 <= h < 24 -> Py.int (two_digits h) = Ok h.
Proof.
  intros Hh.
  assert (Hin : In h (seqZ 0 24)) by (apply list_elem_of_In, elem_of_seqZ; lia).
  vm_compute in Hin.
  repeat (destruct Hin as [<-|Hin]; [vm_compute; reflexivity|]). destruct Hin.
Qed.

(** The hours that [is_quiet_hours] compares are the hours written in
    the two fields. *)
Lemma is_quiet_hours_clock_text pol sh sm eh em hour :
  0 <= sh < 24 -> 0 <= eh < 24 ->
  default "23:00" (quiet_hours_start pol) = clock_text sh sm ->
  default "08:00" (quiet_hours_end pol) = clock_text eh em ->
  is_quiet_hours pol hour = Ok (quiet_at sh eh hour).
Proof.
  intros Hs He Es Ee. unfold is_quiet_hours. rewrite Es, Ee.
  rewrite !split_head_clock_text, !int_two_digits by assumption. reflexivity.
Qed.

(** The comparison of the code is the window of the specification with
    the minutes of both ends struck. *)
Lemma quiet_at_whole_hours sh eh hour minute :
  0 <= minute < 60 ->
  quiet_at sh eh hour
  = spec_inside_window (minute_of_day sh 0) (minute_of_day eh 0)
      (minute_of_day hour minute).
Proof.
  intros Hm. unfold quiet_at, spec_inside_window, minute_of_day.
  destruct (Z.gtb_spec sh eh), (Z.ltb_spec (60 * sh + 0) (60 * eh + 0)),
    (Z.ltb_spec (60 * eh + 0) (60 * sh + 0)); lia.
Qed.

(** Past the quiet rule a call still meets the rate ceilings and the
    priority levels of its caller. *)
Lemma enforce_critical pol hour now c ep rc quiet :
  is_quiet_hours pol hour = Ok quiet ->
  (fst (enforce_policy pol hour now c ep "critical" rc) = Ok None
   <-> fst (fst (check_rate_limit pol now c rc)) = true
       /\ In "critical" (default ["low"; "normal"]
                           (priority_levels (get_agent_limits pol c)))).
Proof.
  intros E. unfold enforce_policy. rewrite E.
  change (String.eqb "critical" "critical") with true.
  rewrite andb_false_r. cbn [andb negb].
  destruct (check_rate_limit pol now c rc) as [[allowed reason] rc'].
  cbn [fst snd]. destruct allowed; cbn [negb].
  - destruct (existsb (String.eqb "critical") _) eqn:Ex; cbn [negb fst].
    + split; [intros _ | reflexivity]. split; [reflexivity|].
      apply existsb_exists in Ex as (x & Hx & ->%String.eqb_eq). exact Hx.
    + split; [discriminate|]. intros [_ Hin].
      assert (existsb (String.eqb "critical")
                (default ["low"; "normal"] (priority_levels (get_agent_limits pol c)))
              = true) as Ht.
      { apply existsb_exists. exists "critical". split; [exact Hin|].
        apply String.eqb_refl. }
      rewrite Ht in Ex. discriminate.
  - cbn [fst]. split; [discriminate | intros [[=] _]].
Qed.

(** C7.  With the two fields of the policy written as [HH:MM],
    [enforce_policy] answers with the quiet-hours message exactly when
    the current local time falls inside the window that runs from the
    configured start hour to the configured end hour, the minutes of both
    fields struck, the priority is not [critical], the caller is not
    flagged exempt and the caller is not [dashboard].  A [critical] call
    is never stopped by the quiet rule, but it is allowed only if it
    also passes the rate ceilings and [critical] is among the priority
    levels of its caller.  With the window 23:00-08:00, a [normal] call at
    02:00 is denied with that message, and the same call with priority
    [critical] is allowed for a caller whose levels hold [critical]. *)
Theorem quiet_hours_denial :
  (forall pol sh sm eh em hour minute now c ep pr rc,
      0 <= sh < 24 -> 0 <= eh < 24 -> 0 <= minute < 60 ->
      default "23:00" (quiet_hours_start pol) = clock_text sh sm ->
      default "08:00" (quiet_hours_end pol) = clock_text eh em ->
      (fst (enforce_policy pol hour now c ep pr rc) = Ok (Some quiet_reason)
       <-> spec_inside_window (minute_of_day sh 0) (minute_of_day eh 0)
             (minute_of_day hour minute) = true
           /\ pr <> "critical"
           /\ default false (quiet_hours_exempt (get_agent_limits pol c)) = false
           /\ c <> "dashboard"))
  /\ (forall pol sh sm eh em hour now c ep rc,
      0 <= sh < 24 -> 0 <= eh < 24 ->
      default "23:00" (quiet_hours_start pol) = clock_text sh sm ->
      default "08:00" (quiet_hours_end pol) = clock_text eh em ->
      (fst (enforce_policy pol hour now c ep "critical" rc) = Ok None
       <-> fst (fst (check_rate_limit pol now c rc)) = true
           /\ In "critical" (default ["low"; "normal"]
                               (priority_levels (get_agent_limits pol c)))))
  /\ fst (enforce_policy Scenario.pol_a 2 7200 "c1" "/claude/ask" "normal" ∅)
     = Ok (Some "Quiet hours active. Only priority='critical' allowed.")
  /\ fst (enforce_policy Scenario.pol_a 2 7200 "c1" "/claude/ask" "critical" ∅)
     = Ok None.
Proof.
  split; [|split].
  - intros pol sh sm eh em hour minute now c ep pr rc Hs He Hm Es Ee.
    rewrite enforce_quiet_iff.
    rewrite (is_quiet_hours_clock_text pol sh sm eh em hour Hs He Es Ee).
    rewrite (quiet_at_whole_hours sh eh hour minute Hm).
    split.
    + intros ([= ->] & H). auto.
    + intros (-> & H). auto.
  - intros pol sh sm eh em hour now c ep rc Hs He Es Ee.
    exact (enforce_critical pol hour now c ep rc _
             (is_quiet_hours_clock_text pol sh sm eh em hour Hs He Es Ee)).
  - vm_compute. auto.
Qed.

Lemma quiet_hours_denial_witness :
  fst (enforce_policy Scenario.pol_a 2 7200 "c1" "/claude/ask" "normal" ∅)
  = Ok (Some quiet_reason)
  /\ fst (enforce_policy Scenario.pol_a 2 7200 "c1" "/claude/ask" "critical" ∅) = Ok None.
Proof.
  split.
  - apply (proj1 quiet_hours_denial Scenario.pol_a 23 0 8 0 2 0 7200%Q "c1" "/claude/ask"
             "normal" (∅ : gmap string (list Q))); try lia; try reflexivity.
    repeat split; discriminate.
  - apply (proj1 (proj2 quiet_hours_denial) Scenario.pol_a 23 0 8 0 2 7200%Q "c1"
             "/claude/ask" (∅ : gmap string (list Q))); try lia; try reflexivity.
    split; [reflexivity|]. right. right. right. left. reflexivity.
Defined.

(** Where the code and the configured window part.  With the window
    configured 23:45-08:30, a [normal] call at 23:10 is denied
    although that time lies outside the window, and one at 08:15 is
    allowed although that time lies inside it: only the hours are
    compared.  And with the window 23:00-08:00 a [critical] call at 02:00
    by a caller with the default priority levels is refused. *)
Lemma quiet_window_ignores_minutes :
  spec_inside_window (minute_of_day 23 45) (minute_of_day 8 30) (minute_of_day 23 10)
  = false
  /\ fst (enforce_policy (with_quiet_hours "23:45" "08:30" Scenario.pol_a) 23 83400
            "c1" "/claude/ask" "normal" ∅)
     = Ok (Some quiet_reason)
  /\ spec_inside_window (minute_of_day 23 45) (minute_of_day 8 30) (minute_of_day 8 15)
     = true
  /\ fst (enforce_policy (with_quiet_hours "23:45" "08:30" Scenario.pol_a) 8 29700
            "c1" "/claude/ask" "normal" ∅)
     = Ok None
  /\ fst (enforce_policy Scenario.pol_a 2 7200 "agent-b" "/claude/ask" "critical" ∅)
     = Ok (Some "Agent 'agent-b' not allowed priority 'critical' (allowed: ['low', 'normal'])").
Proof. vm_compute. auto. Qed.

End QuietHoursClaim.

(** ** Effectful code: returning, raising and framing *)

Section EffFacts.
Import Eff Spec.

Lemma yields_ret {A} (P : A -> Prop) a : P a -> yields P (mret a).
Proof. intros H w. exists a, w. split; [reflexivity | exact H]. Qed.

Lemma yields_bind {A B} (Q : A -> Prop) (P : B -> Prop) (m : M A) (k : A -> M B) :
  yields Q m -> (forall a, Q a -> yields P (k a)) -> yields P (m ≫= k).
Proof.
  intros Hm Hk w. destruct (Hm w) as (a & w1 & E & Ha).
  destruct (Hk a Ha w1) as (b & w2 & E2 & Hb).
  exists b, w2. split; [|exact Hb].
  unfold mbind, M_bind. rewrite E. exact E2.
Qed.

Lemma yields_try_except {A} (P : A -> Prop) body handler :
  sat P body -> (forall e, yields P (handler e)) -> yields P (try_except body handler).
Proof.
  intros Hb Hh w. unfold try_except.
  destruct (body w) as [[a|e] w1] eqn:E.
  - exists a, w1. split; [reflexivity | exact (Hb _ _ _ E)].
  - exact (Hh e w1).
Qed.

Lemma yields_try_pass body : yields (fun _ => True) (try_pass body).
Proof.
  apply yields_try_except; [intros ? ? ? _; exact I | intros e; apply yields_ret; exact I].
Qed.

Lemma yields_modify f : yields (fun _ => True) (modify f).
Proof. intros w. exists tt, (f w). split; [reflexivity | exact I]. Qed.

Lemma yields_log lvl msg : yields (fun _ => True) (log lvl msg).
Proof. apply yields_modify. Qed.

Lemma yields_get : yields (fun _ => True) get.
Proof. intros w. exists w, w. split; [reflexivity | exact I]. Qed.

Lemma sat_ret {A} (P : A -> Prop) a : P a -> sat P (mret a).
Proof. intros H w a' w' [= <- _]. exact H. Qed.

Lemma sat_bind {A B} (P : B -> Prop) (m : M A) (k : A -> M B) :
  (forall a, sat P (k a)) -> sat P (m ≫= k).
Proof.
  intros Hk w b w'. unfold mbind, M_bind.
  destruct (m w) as [[a|e] w1]; [apply Hk | discriminate].
Qed.

Lemma sat_true {A} (m : M A) : sat (fun _ => True) m.
Proof. intros w a w' _. exact I. Qed.

Lemma yields_open_connection : yields (fun _ => True) Store.open_connection.
Proof.
  apply yields_try_except; [apply sat_true|]. intros e.
  eapply yields_bind; [apply yields_log|]. intros _ _.
  eapply yields_bind; [apply yields_modify|]. intros _ _.
  apply yields_ret. exact I.
Qed.

(** [get_pg] never raises. *)
Lemma yields_get_pg : yields (fun _ => True) Store.get_pg.
Proof.
  eapply yields_bind; [apply yields_get|]. intros w _.
  destruct (w_conn w) as [|[|]]; try apply yields_open_connection.
  apply yields_try_except; [apply sat_true|]. intros e.
  eapply yields_bind; [apply yields_log|]. intros _ _.
  eapply yields_bind; [apply yields_try_pass|]. intros _ _.
  eapply yields_bind; [apply yields_modify|]. intros _ _.
  apply yields_open_connection.
Qed.

Lemma keeps_ret {A X} (f : world -> X) (a : A) : keeps f (mret a).
Proof. intros w r w' [= _ <-]. reflexivity. Qed.

Lemma keeps_bind {A B X} (f : world -> X) (m : M A) (k : A -> M B) :
  keeps f m -> (forall a, keeps f (k a)) -> keeps f (m ≫= k).
Proof.
  intros Hm Hk w r w'. unfold mbind, M_bind.
  destruct (m w) as [[a|e] w1] eqn:E.
  - intros E2. rewrite (Hk a _ _ _ E2). exact (Hm _ _ _ E).
  - intros [= _ <-]. exact (Hm _ _ _ E).
Qed.

Lemma keeps_try_except {A X} (f : world -> X) (body : M A) handler :
  keeps f body -> (forall e, keeps f (handler e)) -> keeps f (try_except body handler).
Proof.
  intros Hb Hh w r w'. unfold try_except.
  destruct (body w) as [[a|e] w1] eqn:E.
  - intros [= _ <-]. exact (Hb _ _ _ E).
  - intros E2. rewrite (Hh e _ _ _ E2). exact (Hb _ _ _ E).
Qed.

Lemma keeps_get {X} (f : world -> X) : keeps f get.
Proof. intros w r w' [= _ <-]. reflexivity. Qed.

Lemma keeps_modify {X} (f : world -> X) g :
  (forall w, f (g w) = f w) -> keeps f (modify g).
Proof. intros H w r w' [= _ <-]. apply H. Qed.

Section ConnBlind.
Context {X : Type} (f : world -> X) (Hf : conn_blind f).

Lemma keeps_fallible e : keeps f (fallible e).
Proof.
  destruct Hf as (Hfs & _). intros w r w'. unfold fallible.
  destruct (w_faults w) as [|[|] fs]; intros [= _ <-]; auto.
Qed.

Lemma keeps_log lvl msg : keeps f (log lvl msg).
Proof. destruct Hf as (_ & _ & _ & Hl). apply keeps_modify. intros w. apply Hl. Qed.

Lemma keeps_pg_connect : keeps f pg_connect.
Proof.
  destruct Hf as (_ & Hc & Ht & _).
  apply keeps_bind; [apply keeps_fallible|]. intros _.
  apply keeps_modify. intros w. rewrite Ht, Hc. reflexivity.
Qed.

Lemma keeps_pg_execute stmt : keeps f (pg_execute stmt).
Proof.
  destruct Hf as (_ & _ & Ht & _).
  apply keeps_bind; [apply keeps_fallible|]. intros _.
  intros w r w'. unfold mbind, M_bind, get. simpl.
  destruct (stmt (w_txn w)); intros [= _ <-]; auto.
Qed.

Lemma keeps_pg_rollback : keeps f pg_rollback.
Proof.
  destruct Hf as (_ & _ & Ht & _).
  apply keeps_bind; [apply keeps_fallible|]. intros _.
  apply keeps_modify. intros w. apply Ht.
Qed.

Lemma keeps_pg_close : keeps f pg_close.
Proof.
  destruct Hf as (_ & Hc & _ & _).
  apply keeps_bind; [apply keeps_fallible|]. intros _.
  apply keeps_modify. intros w. apply Hc.
Qed.

Lemma keeps_open_connection : keeps f Store.open_connection.
Proof.
  pose proof Hf as (_ & Hc & _ & _).
  apply keeps_try_except.
  - apply keeps_bind; [apply keeps_pg_connect|]. intros _.
    apply keeps_bind; [apply keeps_log|]. intros _. apply keeps_ret.
  - intros e. apply keeps_bind; [apply keeps_log|]. intros _.
    apply keeps_bind; [apply keeps_modify; intros w; apply Hc|]. intros _.
    apply keeps_ret.
Qed.

Lemma keeps_get_pg : keeps f Store.get_pg.
Proof.
  pose proof Hf as (_ & Hc & _ & _).
  apply keeps_bind; [apply keeps_get|]. intros w.
  destruct (w_conn w) as [|[|]]; try apply keeps_open_connection.
  apply keeps_try_except.
  - apply keeps_bind; [apply keeps_fallible|]. intros _.
    apply keeps_bind; [apply keeps_fallible|]. intros _. apply keeps_ret.
  - intros e. apply keeps_bind; [apply keeps_log|]. intros _.
    apply keeps_bind.
    { apply keeps_try_except; [apply keeps_pg_close | intros; apply keeps_ret]. }
    intros _. apply keeps_bind; [apply keeps_modify; intros w0; apply Hc|]. intros _.
    apply keeps_open_connection.
Qed.

End ConnBlind.

Lemma keeps_pg_commit {X} (f : world -> X) : store_blind f -> keeps f pg_commit.
Proof.
  intros [Hf Hs].
  apply keeps_bind; [apply keeps_fallible, Hf|]. intros _.
  apply keeps_modify. intros w. apply Hs.
Qed.

Lemma conn_blind_saved : conn_blind w_saved.
Proof. repeat split. Qed.

Lemma store_blind_jsonl : store_blind w_jsonl.
Proof. repeat split. Qed.

Lemma store_blind_clock : store_blind w_clock.
Proof. repeat split. Qed.

Lemma yields_unit (m : M unit) :
  yields (fun _ => True) m -> forall w, exists w', m w = (Ok tt, w').
Proof. intros H w. destruct (H w) as ([] & w' & E & _). exists w'. exact E. Qed.

End EffFacts.

Section BestEffortFacts.
Import Eff Spec Store.

Lemma yields_audit_pg_write a : yields (fun _ => True) (Audit.audit_pg_write a).
Proof.
  unfold Audit.audit_pg_write.
  eapply yields_bind; [apply yields_get_pg|]. intros conn _.
  destruct conn; [|apply yields_ret; exact I].
  apply yields_try_except; [apply sat_true|]. intros e.
  eapply yields_bind; [apply yields_try_pass|]. intros _ _. apply yields_log.
Qed.



Lemma webhooks_of_shape pol :
  Outbox.webhooks_of pol
  = if webhooks_shape_ok pol then Ok (webhooks_dict pol) else Exn AttributeError.
Proof.
  unfold Outbox.webhooks_of, webhooks_shape_ok, webhooks_dict.
  destruct (event_webhooks pol) as [[m|]|]; reflexivity.
Qed.

Lemma yields_emit_event cfg pol ty src payload :
  webhooks_shape_ok pol = true ->
  yields (fun _ => True) (Outbox.emit_event cfg pol ty src payload).
Proof.
  intros H. unfold Outbox.emit_event. rewrite webhooks_of_shape, H.
  eapply yields_bind; [apply yields_get_pg|]. intros conn _.
  destruct conn; simpl; [|apply yields_log].
  apply yields_try_except; [apply sat_true|]. intros e.
  eapply yields_bind; [apply yields_try_pass|]. intros _ _. apply yields_log.
Qed.

Lemma yields_get_or_create_session caller target ty purpose :
  yields (fun s => s = Session.session_key caller target purpose)
         (Session.get_or_create_session caller target ty purpose).
Proof.
  unfold Session.get_or_create_session.
  eapply yields_bind; [apply yields_get_pg|]. intros conn _.
  destruct conn; simpl; [|apply yields_ret; reflexivity].
  apply yields_try_except.
  - repeat (apply sat_bind; intros ?). apply sat_ret. reflexivity.
  - intros e.
    eapply yields_bind; [apply yields_try_pass|]. intros _ _.
    eapply yields_bind; [apply yields_log|]. intros _ _.
    apply yields_ret. reflexivity.
Qed.

End BestEffortFacts.

Section BestEffortClaim.
Import Eff Spec Store.

Lemma keeps_audit_pg_write {X} (f : world -> X) a :
  store_blind f -> keeps f (Audit.audit_pg_write a).
Proof.
  intros Hs. pose proof Hs as [Hf _]. unfold Audit.audit_pg_write.
  apply keeps_bind; [apply keeps_get_pg, Hf|]. intros conn.
  destruct conn; [|apply keeps_ret].
  apply keeps_try_except.
  - apply keeps_bind; [apply keeps_fallible, Hf|]. intros _.
    apply keeps_bind; [intros w r w' [= _ <-]; reflexivity|]. intros ts.
    apply keeps_bind; [apply keeps_pg_execute, Hf|]. intros _.
    apply keeps_pg_commit, Hs.
  - intros e. apply keeps_bind; [|intros _; apply keeps_log, Hf].
    apply keeps_try_except; [apply keeps_pg_rollback, Hf | intros; apply keeps_ret].
Qed.

Lemma contains_upto_last_slash c p :
  Py.contains_char c (Py.upto_last_slash p) = true -> Py.contains_char c p = true.
Proof.
  induction p as [|a p IH]; [discriminate|].
  cbn [Py.upto_last_slash]. destruct (Py.contains_char "/" (String a p)); [|discriminate].
  cbn [Py.contains_char]. rewrite !orb_true_iff. intros [H|H]; auto.
Qed.

Lemma contains_rstrip_slashes c s :
  Py.contains_char c (Py.rstrip_slashes s) = true -> Py.contains_char c s = true.
Proof.
  induction s as [|a s IH]; [discriminate|].
  cbn [Py.rstrip_slashes]. destruct (Py.rstrip_slashes s) as [|b r].
  - destruct (Ascii.eqb a "/"); [discriminate|].
    cbn [Py.contains_char]. rewrite !orb_true_iff. intros [H|H]; [auto | discriminate].
  - cbn [Py.contains_char] in *. rewrite !orb_true_iff in *. intros [H|H]; auto.
Qed.

Lemma contains_dirname c p :
  Py.contains_char c p = false -> Py.contains_char c (Py.dirname p) = false.
Proof.
  intros H. destruct (Py.contains_char c (Py.dirname p)) eqn:E; [|reflexivity].
  rewrite <- H. symmetry. apply contains_upto_last_slash.
  unfold Py.dirname in E.
  destruct (Py.rstrip_slashes (Py.upto_last_slash p)) eqn:R; [exact E|].
  apply contains_rstrip_slashes. rewrite R. exact E.
Qed.

(** The [try] of the backup step: it never raises; the line is appended,
    or the failure is logged and the file is as before.  A path without a
    directory part or with a NUL always ends in the second way, any other
    path in the first when the file system does not fail. *)
Lemma jsonl_write_runs path row w :
  exists w',
    try_except (makedirs (Py.dirname path) ;; append_line path row)
      (fun _ => log ERROR "JSONL audit write failed") w = (Ok tt, w')
    /\ (w_jsonl w' = <[path := default [] (w_jsonl w !! path) ++ [row]]> (w_jsonl w)
        /\ w_log w' = w_log w
        \/ w_jsonl w' = w_jsonl w
           /\ w_log w' = w_log w ++ [(ERROR, "JSONL audit write failed")])
    /\ (appendable path = false ->
        w_jsonl w' = w_jsonl w
        /\ w_log w' = w_log w ++ [(ERROR, "JSONL audit write failed")])
    /\ (appendable path = true -> w_faults w = [] ->
        w' = set_jsonl (<[path := default [] (w_jsonl w !! path) ++ [row]]> (w_jsonl w)) w)
    /\ (w_faults w = [] -> w_faults w' = [])
    /\ w_conn w' = w_conn w /\ w_saved w' = w_saved w /\ w_txn w' = w_txn w
    /\ w_procs w' = w_procs w /\ w_clock w' = w_clock w
    /\ w_outbox_seq w' = w_outbox_seq w /\ w_uuids w' = w_uuids w.
Proof.
  unfold try_except, makedirs, append_line, mbind, M_bind, appendable.
  pose proof (contains_dirname "000" path) as Hd.
  destruct (String.eqb (Py.dirname path) EmptyString).
  - eexists. split; [reflexivity|]. cbn. repeat split; auto. discriminate.
  - destruct (Py.contains_char "000" path) eqn:Hn.
    + destruct (Py.contains_char "000" (Py.dirname path)).
      * eexists. split; [reflexivity|]. cbn. repeat split; auto; discriminate.
      * destruct w as [c sv tx clk fs u j l p sq].
        destruct fs as [|[|] fs]; eexists; (split; [reflexivity|]); cbn;
          repeat split; auto; discriminate.
    + rewrite (Hd eq_refl).
      destruct w as [c sv tx clk fs u j l p sq].
      destruct fs as [|[|] [|[|] fs]]; eexists; (split; [reflexivity|]); cbn;
        repeat split; auto; discriminate.
Qed.

(** What the backup step does when the policy has the expected shape. *)
Lemma audit_jsonl_backup_runs env pol a w :
  audit_shape_ok pol = true ->
  exists w', Audit.audit_jsonl_backup env pol a w = (Ok tt, w')
    /\ match Audit.jsonl_target env pol with
       | Ok (Some path) =>
           w_jsonl w' = <[path := default [] (w_jsonl w !! path)
                                  ++ [Audit.audit_entry 200 (utcnow env) a]]> (w_jsonl w)
           \/ (w_jsonl w' = w_jsonl w
               /\ last (w_log w') = Some (ERROR, "JSONL audit write failed"))
       | _ => w_jsonl w' = w_jsonl w
       end.
Proof.
  intros Hok. unfold Audit.audit_jsonl_backup.
  destruct (Audit.jsonl_target env pol) as [[path|]|e] eqn:Et.
  - destruct (jsonl_write_runs path (Audit.audit_entry 200 (utcnow env) a) w)
      as (w' & E & [[Hj _]|[Hj Hl]] & _); exists w'; (split; [exact E|]).
    + left. exact Hj.
    + right. split; [exact Hj|]. rewrite Hl. apply last_snoc.
  - exists w. split; reflexivity.
  - exfalso. revert Hok Et. unfold audit_shape_ok, Audit.jsonl_target.
    destruct (audit pol) as [[section|]|]; try discriminate.
    destruct (log_to_jsonl section) as [[|]|];
      destruct (jsonl_path section) as [[p|]|]; discriminate.
Qed.

(** With an entry of another type the backup step raises, before
    anything is written or logged. *)
Lemma audit_jsonl_backup_raises env pol a w :
  audit_shape_ok pol = false ->
  exists e, Audit.audit_jsonl_backup env pol a w = (Exn e, w)
            /\ (e = AttributeError \/ e = TypeError).
Proof.
  unfold audit_shape_ok, Audit.audit_jsonl_backup, Audit.jsonl_target.
  destruct (audit pol) as [[section|]|]; [|intros _|discriminate].
  - destruct (log_to_jsonl section) as [[|]|];
      destruct (jsonl_path section) as [[p|]|]; try discriminate; intros _;
      exists TypeError; auto.
  - exists AttributeError. auto.
Qed.

Lemma audit_log_runs env pol a w :
  audit_shape_ok pol = true ->
  exists w', Audit.audit_log env pol a w = (Ok tt, w')
    /\ match Audit.jsonl_target env pol with
       | Ok (Some path) =>
           w_jsonl w' = <[path := default [] (w_jsonl w !! path)
                                  ++ [Audit.audit_entry 200 (utcnow env) a]]> (w_jsonl w)
           \/ (w_jsonl w' = w_jsonl w
               /\ last (w_log w') = Some (ERROR, "JSONL audit write failed"))
       | _ => w_jsonl w' = w_jsonl w
       end.
Proof.
  intros Hok.
  destruct (yields_unit _ (yields_audit_pg_write a) w) as (w1 & E1).
  pose proof (keeps_audit_pg_write w_jsonl a store_blind_jsonl _ _ _ E1) as Hj.
  destruct (audit_jsonl_backup_runs env pol a w1 Hok) as (w' & E2 & H).
  exists w'. split.
  - unfold Audit.audit_log, mbind, M_bind. rewrite E1. exact E2.
  - rewrite Hj in H. exact H.
Qed.

Lemma audit_log_raises env pol a w :
  audit_shape_ok pol = false ->
  exists e w', Audit.audit_log env pol a w = (Exn e, w')
               /\ (e = AttributeError \/ e = TypeError)
               /\ Audit.audit_pg_write a w = (Ok tt, w').
Proof.
  intros Hbad.
  destruct (yields_unit _ (yields_audit_pg_write a) w) as (w1 & E1).
  destruct (audit_jsonl_backup_raises env pol a w1 Hbad) as (e & E2 & He).
  exists e, w1. split; [|split; [exact He | exact E1]].
  unfold Audit.audit_log, mbind, M_bind. rewrite E1. exact E2.
Qed.

Lemma emit_event_drops cfg pol ty src payload w w1 :
  get_pg w = (Ok false, w1) ->
  Outbox.emit_event cfg pol ty src payload w
    = (Ok tt, set_log (w_log w1 ++ [(WARNING, ("Cannot emit event (Postgres down): " ++ ty)%string)]) w1)
  /\ w_saved w1 = w_saved w.
Proof.
  intros E. split.
  - unfold Outbox.emit_event, mbind, M_bind. rewrite E. reflexivity.
  - exact (keeps_get_pg w_saved conn_blind_saved _ _ _ E).
Qed.

Lemma emit_event_raises cfg pol ty src payload w w1 :
  webhooks_shape_ok pol = false ->
  get_pg w = (Ok true, w1) ->
  Outbox.emit_event cfg pol ty src payload w = (Exn AttributeError, w1).
Proof.
  intros Hbad E. unfold Outbox.emit_event, mbind, M_bind.
  rewrite E, webhooks_of_shape, Hbad. reflexivity.
Qed.

(** C8.  [audit_log] and [emit_event] keep the failures of the store
    and of the file system to themselves, but not those of the policy
    document.  Given a policy whose [audit] and [event_webhooks] entries
    have the types the code expects, both return and never raise,
    whatever the state of the store and of the file system; [audit_log]
    always goes on to the backup log: unless the policy turns the backup
    off, the entry is appended to the JSONL file, or, when the file
    cannot be written either, that failure is logged.  When [get_pg]
    finds no connection, [emit_event] logs a warning and drops the event,
    whatever the policy holds: the stored tables are untouched.  With an
    entry of another type the read of the policy, which no handler
    surrounds, raises: [audit_log] raises [AttributeError] or
    [TypeError] after its Postgres step has run, and [emit_event] raises
    [AttributeError] once it has a connection.  So a policy file that
    holds [{"audit": null}] makes [audit_log] raise on a store that
    answers, after the row has been committed, and the exception leaves
    [agent_ask], which has no handler around its [audit_log]; one that
    holds [{"event_webhooks": null}] makes [emit_event] raise. *)
Theorem best_effort_side_effects_return :
  (forall env pol a w,
      audit_shape_ok pol = true ->
      exists w', Audit.audit_log env pol a w = (Ok tt, w')
        /\ match Audit.jsonl_target env pol with
           | Ok (Some path) =>
               w_jsonl w' = <[path := default [] (w_jsonl w !! path)
                                      ++ [Audit.audit_entry 200 (utcnow env) a]]> (w_jsonl w)
               \/ (w_jsonl w' = w_jsonl w
                   /\ last (w_log w') = Some (ERROR, "JSONL audit write failed"))
           | _ => w_jsonl w' = w_jsonl w
           end)
  /\ (forall cfg pol ty src payload w,
      webhooks_shape_ok pol = true ->
      exists w', Outbox.emit_event cfg pol ty src payload w = (Ok tt, w'))
  /\ (forall cfg pol ty src payload w w1,
      get_pg w = (Ok false, w1) ->
      Outbox.emit_event cfg pol ty src payload w
        = (Ok tt, set_log (w_log w1
                           ++ [(WARNING, ("Cannot emit event (Postgres down): " ++ ty)%string)]) w1)
      /\ w_saved w1 = w_saved w)
  /\ (forall env pol a w,
      audit_shape_ok pol = false ->
      exists e w', Audit.audit_log env pol a w = (Exn e, w')
                   /\ (e = AttributeError \/ e = TypeError)
                   /\ Audit.audit_pg_write a w = (Ok tt, w'))
  /\ (forall cfg pol ty src payload w w1,
      webhooks_shape_ok pol = false ->
      get_pg w = (Ok true, w1) ->
      Outbox.emit_event cfg pol ty src payload w = (Exn AttributeError, w1))
  /\ fst (Audit.audit_log Scenario.env Scenario.pol_audit_null Scenario.ask_audit
            Scenario.world_up) = Exn AttributeError
  /\ length (hermes_audit_log
               (w_saved (snd (Audit.audit_log Scenario.env Scenario.pol_audit_null
                                Scenario.ask_audit Scenario.world_up)))) = 1%nat
  /\ fst (Outbox.emit_event Scenario.cfg Scenario.pol_webhooks_null "task.created"
            "tester" "{}" Scenario.world_up) = Exn AttributeError
  /\ fst (fst (AgentAsk.agent_ask Scenario.cfg Scenario.env Scenario.pol_audit_null
                 EndpointScenario.tx EndpointScenario.at_noon EndpointScenario.ask_main
                 Scenario.hello_run ∅ Scenario.world_up)) = Exn AttributeError.
Proof.
  split; [exact audit_log_runs|]. split.
  { intros cfg pol ty src payload w H.
    exact (yields_unit _ (yields_emit_event cfg pol ty src payload H) w). }
  split; [exact emit_event_drops|].
  split; [exact audit_log_raises|]. split; [exact emit_event_raises|].
  vm_compute. auto.
Qed.

Lemma best_effort_side_effects_return_witness :
  (exists w', Audit.audit_log Scenario.env empty_policy Scenario.ask_audit
                Scenario.world_down = (Ok tt, w'))
  /\ get_pg Scenario.world_down
     = (Ok false, set_log [(ERROR, "Postgres connection failed")]
                    (set_faults (repeat true 15) Scenario.world_down))
  /\ w_saved (snd (Outbox.emit_event Scenario.cfg empty_policy "task.created" "tester"
                     "{}" Scenario.world_down))
     = Scenario.empty_db.
Proof.
  assert (E : get_pg Scenario.world_down
    = (Ok false, set_log [(ERROR, "Postgres connection failed")]
                   (set_faults (repeat true 15) Scenario.world_down)))
    by reflexivity.
  split; [|split; [exact E|]].
  - destruct (proj1 best_effort_side_effects_return Scenario.env empty_policy
                Scenario.ask_audit Scenario.world_down eq_refl) as (w' & Ea & _).
    exists w'. exact Ea.
  - destruct (proj1 (proj2 (proj2 best_effort_side_effects_return)) Scenario.cfg
                empty_policy "task.created" "tester" "{}" Scenario.world_down _ E)
      as [-> _].
    reflexivity.
Defined.

(** C10.  [get_or_create_session] returns from every world, whether
    the store is down, fails in the middle of the upsert or answers, and
    what it returns is the text [hermes-{caller_id}-{target}-{purpose}]. *)
Theorem get_or_create_session_total :
  forall caller_id target session_type purpose w,
    exists w',
      Session.get_or_create_session caller_id target session_type purpose w
      = (Ok ("hermes-" ++ caller_id ++ "-" ++ target ++ "-" ++ purpose)%string, w').
Proof.
  intros caller_id target session_type purpose w.
  destruct (yields_get_or_create_session caller_id target session_type purpose w)
    as (s & w' & E & ->).
  exists w'. exact E.
Qed.

End BestEffortClaim.

(** ** The drain worker *)

Section DrainFacts.
Import Drain.

Lemma outcome_id post now row x : o_id (outcome post now row x) = o_id x.
Proof.
  unfold outcome. destruct (post row) as [code| |text]; [destruct (code <? 400)%Z|..];
    reflexivity.
Qed.

Lemma deliver_tried post now rows : forall table,
  deliver post now rows table
  = (fold_left (fun t row => update_id (o_id row) (outcome post now row) t)
               (tried_rows post rows) table,
     List.map o_id (tried_rows post rows)).
Proof.
  induction rows as [|row rest IH]; intros table; simpl; [reflexivity|].
  pose proof (eq_refl (outcome post now row)) as Ho. unfold outcome at 2 in Ho.
  destruct (post row) as [code| |text]; simpl; rewrite ?IH, Ho;
    unfold mark_delivered, count_failure;
    try destruct (code <? 400)%Z; reflexivity.
Qed.

Lemma fold_update_map post now tried : forall table,
  fold_left (fun t row => update_id (o_id row) (outcome post now row) t) tried table
  = List.map (row_after post now tried) table.
Proof.
  induction tried as [|row tried IH]; intros table; simpl.
  - symmetry. apply List.map_id.
  - rewrite IH. unfold update_id. rewrite List.map_map. reflexivity.
Qed.

Lemma row_after_id post now tried : forall x, o_id (row_after post now tried x) = o_id x.
Proof.
  induction tried as [|row tried IH]; intros x; simpl; [reflexivity|].
  rewrite IH. destruct (o_id x =? o_id row)%Z; [apply outcome_id | reflexivity].
Qed.

Lemma row_after_untried post now tried : forall x,
  was_tried tried x = false -> row_after post now tried x = x.
Proof.
  induction tried as [|row tried IH]; intros x; simpl; [reflexivity|].
  intros [H1 H2]%orb_false_iff. rewrite Z.eqb_sym, H1. apply IH, H2.
Qed.

Lemma was_tried_spec tried x :
  was_tried tried x = true <-> In (o_id x) (List.map o_id tried).
Proof.
  unfold was_tried. rewrite existsb_exists, in_map_iff.
  split; intros (row & H1 & H2); exists row.
  - apply Z.eqb_eq in H2. auto.
  - split; [exact H2 | apply Z.eqb_eq, H1].
Qed.

(** A row that is in the tried list, whose ids are distinct, is rewritten
    once, by its own outcome. *)
Lemma row_after_tried post now tried : forall x,
  List.NoDup (List.map o_id tried) -> In x tried ->
  row_after post now tried x = outcome post now x x.
Proof.
  induction tried as [|row tried IH]; intros x Hnd Hin; [destruct Hin|].
  simpl in *. apply List.NoDup_cons_iff in Hnd as [Hnotin Hnd].
  destruct Hin as [->|Hin].
  - rewrite Z.eqb_refl. apply row_after_untried.
    apply not_true_iff_false. rewrite was_tried_spec, outcome_id. exact Hnotin.
  - destruct (Z.eqb_spec (o_id x) (o_id row)) as [E|_]; [|apply IH; assumption].
    elim Hnotin. rewrite <- E. apply in_map, Hin.
Qed.

Lemma tried_rows_prefix post rows :
  exists rest, rows = tried_rows post rows ++ rest.
Proof.
  induction rows as [|row rows [rest IH]]; simpl; [exists []; reflexivity|].
  destruct (post row); [exists rest | exists rows | exists rest]; simpl; congruence.
Qed.

Lemma tried_rows_In post rows x : In x (tried_rows post rows) -> In x rows.
Proof.
  destruct (tried_rows_prefix post rows) as [rest E]. intros H.
  rewrite E. apply in_or_app. left. exact H.
Qed.

Lemma tried_rows_NoDup post rows :
  List.NoDup (List.map o_id rows) -> List.NoDup (List.map o_id (tried_rows post rows)).
Proof.
  destruct (tried_rows_prefix post rows) as [rest E]. intros H.
  rewrite E, List.map_app in H. exact (List.NoDup_app_remove_r _ _ H).
Qed.

Lemma NoDup_map_filter {A B} (f : A -> B) p (l : list A) :
  List.NoDup (List.map f l) -> List.NoDup (List.map f (List.filter p l)).
Proof.
  induction l as [|a l IH]; simpl; [auto|].
  intros [Hn Hnd]%List.NoDup_cons_iff. destruct (p a); simpl; [|auto].
  constructor; [|auto]. intros (b & Hb & Hin)%in_map_iff.
  apply filter_In in Hin as [Hin _]. apply Hn. rewrite <- Hb. apply in_map, Hin.
Qed.

Lemma NoDup_map_firstn {A B} (f : A -> B) n (l : list A) :
  List.NoDup (List.map f l) -> List.NoDup (List.map f (firstn n l)).
Proof.
  intros H. rewrite <- (firstn_skipn n l), List.map_app in H.
  exact (List.NoDup_app_remove_r _ _ H).
Qed.


Lemma select_batch_In table x :
  In x (select_batch table) -> In x table /\ eligible x = true.
Proof.
  unfold select_batch. intros H.
  assert (H1 : In x (merge_sort older (List.filter eligible table))).
  { rewrite <- (firstn_skipn BATCH_SIZE (merge_sort _ _)). apply in_or_app. left. exact H. }
  apply filter_In.
  eapply Permutation_in; [apply (merge_sort_Permutation older) | exact H1].
Qed.

Lemma select_batch_NoDup table :
  List.NoDup (List.map o_id table) -> List.NoDup (List.map o_id (select_batch table)).
Proof.
  intros H. unfold select_batch. apply NoDup_map_firstn.
  eapply Permutation_NoDup.
  - apply Permutation_map. symmetry. apply (merge_sort_Permutation older).
  - apply NoDup_map_filter, H.
Qed.

Lemma unique_ids table a b :
  List.NoDup (List.map o_id table) -> In a table -> In b table ->
  o_id a = o_id b -> a = b.
Proof.
  induction table as [|r table IH]; intros Hnd Ha Hb E; [destruct Ha|].
  simpl in Hnd. apply List.NoDup_cons_iff in Hnd as [Hn Hnd].
  destruct Ha as [->|Ha], Hb as [->|Hb]; auto.
  - elim Hn. rewrite E. apply in_map, Hb.
  - elim Hn. rewrite <- E. apply in_map, Ha.
Qed.

(** With unique ids, a pass rewrites the table row by row. *)
Lemma drain_cycle_rows post now table :
  List.NoDup (List.map o_id table) ->
  drain_cycle post now table
  = (List.map (cycle_row post now table) table,
     List.map o_id (tried_rows post (select_batch table))).
Proof.
  intros Hnd. unfold drain_cycle, cycle_row.
  pose proof (select_batch_In table) as Hin.
  pose proof (select_batch_NoDup table Hnd) as Hb.
  destruct (select_batch table) as [|row rows] eqn:E.
  - simpl. rewrite List.map_id. reflexivity.
  - rewrite deliver_tried, fold_update_map. unfold sweep. rewrite List.map_map.
    f_equal. apply List.map_ext_in. intros x Hx. f_equal.
    destruct (was_tried _ x) eqn:Ht.
    + apply was_tried_spec, in_map_iff in Ht as (y & Hy & Hyin).
      assert (y = x) as ->.
      { apply (unique_ids table); auto.
        apply Hin, (tried_rows_In post), Hyin. }
      apply row_after_tried; [apply tried_rows_NoDup, Hb | exact Hyin].
    + apply row_after_untried, Ht.
Qed.

Lemma cycle_row_id post now table x : o_id (cycle_row post now table x) = o_id x.
Proof.
  unfold cycle_row. destruct (select_batch table); [reflexivity|].
  unfold sweep_row. destruct (_ && _); simpl;
    destruct (was_tried _ x); try apply outcome_id; reflexivity.
Qed.

Lemma eligible_spec x :
  eligible x = true <-> o_status x = pending /\ o_attempts x < MAX_ATTEMPTS.
Proof.
  unfold eligible. rewrite andb_true_iff, bool_decide_eq_true, Z.ltb_lt. tauto.
Qed.

(** A row that was tried in this pass was eligible when the pass began. *)
Lemma tried_was_eligible post table x :
  List.NoDup (List.map o_id table) -> In x table ->
  was_tried (tried_rows post (select_batch table)) x = true ->
  In x (tried_rows post (select_batch table)) /\ eligible x = true.
Proof.
  intros Hnd Hx Ht.
  apply was_tried_spec, in_map_iff in Ht as (y & Hy & Hyin).
  pose proof (tried_rows_In _ _ _ Hyin) as Hyb.
  destruct (select_batch_In table y Hyb) as [Hyt Hel].
  assert (y = x) as -> by (apply (unique_ids table); auto).
  auto.
Qed.

End DrainFacts.

Section DrainClaims.
Import Drain.

Lemma cycle_row_tried post now table x :
  List.NoDup (List.map o_id table) -> In x table ->
  In (o_id x) (List.map o_id (tried_rows post (select_batch table))) ->
  eligible x = true
  /\ In x (tried_rows post (select_batch table))
  /\ cycle_row post now table x = sweep_row (outcome post now x x).
Proof.
  intros Hnd Hx Hin. apply was_tried_spec in Hin.
  destruct (tried_was_eligible post table x Hnd Hx Hin) as [Ht Hel].
  repeat split; [exact Hel | exact Ht |].
  unfold cycle_row. revert Hin Ht.
  destruct (select_batch table); intros Hin Ht; [destruct Ht|].
  rewrite Hin. reflexivity.
Qed.

Lemma cycle_row_moved post now table x :
  List.NoDup (List.map o_id table) -> In x table ->
  moved x (cycle_row post now table x).
Proof.
  intros Hnd Hx. split; [apply cycle_row_id|].
  pose proof (tried_was_eligible post table x Hnd Hx) as Hel.
  unfold cycle_row. destruct (select_batch table) as [|row rows]; [auto|].
  destruct (was_tried _ x).
  - destruct (Hel eq_refl) as [_ [Hp _]%eligible_spec].
    unfold outcome, sweep_row.
    destruct (post x) as [code| |text]; [destruct (code <? 400)%Z|..]; simpl;
      rewrite ?Hp; simpl; try destruct (_ >=? _)%Z; simpl; rewrite ?Hp;
      first [left; reflexivity | right; split; [reflexivity | auto]].
  - unfold sweep_row. destruct (bool_decide_reflect (o_status x = pending)) as [Hp|Hp];
      simpl; [|auto].
    destruct (_ >=? _)%Z; simpl; auto.
Qed.

Lemma moved_trans a b c : moved a b -> moved b c -> moved a c.
Proof.
  intros [I1 S1] [I2 S2]. split; [congruence|].
  destruct S1 as [S1|[S1 S1']], S2 as [S2|[S2 S2']].
  - left. congruence.
  - right. split; [congruence | exact S2'].
  - right. split; [exact S1 | rewrite S2; exact S1'].
  - rewrite S2 in S1'. destruct S1'; discriminate.
Qed.

Lemma Forall2_map_self {A} (R : A -> A -> Prop) (f : A -> A) l :
  (forall x, In x l -> R x (f x)) -> Forall2 R l (List.map f l).
Proof.
  induction l as [|a l IH]; intros H; simpl; constructor.
  - apply H. left. reflexivity.
  - apply IH. intros x Hx. apply H. right. exact Hx.
Qed.

Lemma cycle_ids post now table :
  List.map o_id (List.map (cycle_row post now table) table) = List.map o_id table.
Proof.
  rewrite List.map_map. apply List.map_ext. intros x. apply cycle_row_id.
Qed.

Lemma moved_refl x : moved x x.
Proof. split; auto. Qed.

Lemma Forall2_moved_refl table : Forall2 moved table table.
Proof. induction table; constructor; [apply moved_refl | assumption]. Qed.

Lemma Forall2_moved_trans t1 t2 : Forall2 moved t1 t2 ->
  forall t3, Forall2 moved t2 t3 -> Forall2 moved t1 t3.
Proof.
  induction 1 as [|a b t1 t2 Hab _ IH]; intros t3 H3; inversion H3; subst; constructor.
  - eapply moved_trans; eassumption.
  - apply IH. assumption.
Qed.

Lemma drain_cycles_moved passes : forall table,
  List.NoDup (List.map o_id table) ->
  Forall2 moved table (fst (drain_cycles passes table)).
Proof.
  induction passes as [|[post now] passes IH]; intros table Hnd; simpl.
  - apply Forall2_moved_refl.
  - rewrite (drain_cycle_rows post now table Hnd).
    specialize (IH (List.map (cycle_row post now table) table)).
    rewrite cycle_ids in IH. specialize (IH Hnd).
    destruct (drain_cycles passes _) as [t tried]. simpl in *.
    eapply Forall2_moved_trans; [|exact IH].
    apply Forall2_map_self. intros x Hx. apply cycle_row_moved; assumption.
Qed.

Lemma drain_cycles_delivered passes : forall table x,
  List.NoDup (List.map o_id table) -> In x table -> o_status x = delivered ->
  ~ In (o_id x) (snd (drain_cycles passes table)).
Proof.
  induction passes as [|[post now] passes IH]; intros table x Hnd Hx Hd; simpl; [auto|].
  rewrite (drain_cycle_rows post now table Hnd).
  specialize (IH (List.map (cycle_row post now table) table) (cycle_row post now table x)).
  rewrite cycle_ids, cycle_row_id in IH.
  assert (Hd' : o_status (cycle_row post now table x) = delivered).
  { destruct (cycle_row_moved post now table x Hnd Hx) as [_ [E|[E _]]]; congruence. }
  specialize (IH Hnd (in_map _ _ _ Hx) Hd').
  destruct (drain_cycles passes _) as [t tried]. simpl in *.
  intros [H|H]%in_app_or; [|exact (IH H)].
  destruct (cycle_row_tried post now table x Hnd Hx H) as ([Hp _]%eligible_spec & _).
  congruence.
Qed.

Lemma row_of_table_after post now table x x' :
  List.NoDup (List.map o_id table) -> In x table ->
  In x' (fst (drain_cycle post now table)) -> o_id x' = o_id x ->
  x' = cycle_row post now table x.
Proof.
  intros Hnd Hx Hx' Hid. rewrite (drain_cycle_rows post now table Hnd) in Hx'. simpl in Hx'.
  apply in_map_iff in Hx' as (y & <- & Hy).
  rewrite cycle_row_id in Hid.
  rewrite (unique_ids table y x Hnd Hy Hx Hid). reflexivity.
Qed.

Lemma drain_cycle_boundary post now table x x' :
  List.NoDup (List.map o_id table) -> In x table ->
  In x' (fst (drain_cycle post now table)) -> o_id x' = o_id x ->
  In (o_id x) (snd (drain_cycle post now table)) ->
  o_status x' = delivered
  \/ (o_attempts x' = o_attempts x + 1
      /\ (MAX_ATTEMPTS <= o_attempts x' -> o_status x' = failed)
      /\ (o_attempts x' < MAX_ATTEMPTS -> o_status x' = pending /\ eligible x' = true)).
Proof.
  intros Hnd Hx Hx' Hid.
  rewrite (row_of_table_after post now table x x' Hnd Hx Hx' Hid).
  rewrite (drain_cycle_rows post now table Hnd). simpl. intros Hin.
  destruct (cycle_row_tried post now table x Hnd Hx Hin) as ([Hp Ha]%eligible_spec & _ & ->).
  unfold outcome.
  destruct (post x) as [code| |text]; [destruct (code <? 400)%Z; [left; reflexivity|]|..];
    right; unfold sweep_row, eligible; simpl; rewrite Hp; simpl;
    destruct (Z.geb_spec (o_attempts x + 1) MAX_ATTEMPTS) as [Hge|Hlt]; simpl;
    rewrite ?Hp; (split; [reflexivity|]); (split; [intros; try reflexivity; lia|]);
    intros Hlt'; try lia;
    (split; [reflexivity|]); simpl; apply Z.ltb_lt; exact Hlt'.
Qed.

(** C2.  With ids unique, as the primary key makes them: over any number
    of passes of the drain worker every row keeps its status or moves from
    [pending] to [delivered] or to [failed]; a row that is [delivered] is
    never among the rows the worker tries; and at the end of a pass the
    row of an event that was tried and not delivered has one more attempt,
    is [failed] when the count has reached the ceiling of five, and
    otherwise is still [pending] and selected by the WHERE clause of the
    next pass. *)
Theorem outbox_status_monotone :
  (forall passes table,
      List.NoDup (List.map o_id table) ->
      Forall2 moved table (fst (drain_cycles passes table)))
  /\ (forall passes table x,
      List.NoDup (List.map o_id table) -> In x table -> o_status x = delivered ->
      ~ In (o_id x) (snd (drain_cycles passes table)))
  /\ (forall post now table x x',
      List.NoDup (List.map o_id table) -> In x table ->
      In x' (fst (drain_cycle post now table)) -> o_id x' = o_id x ->
      In (o_id x) (snd (drain_cycle post now table)) ->
      o_status x' = delivered
      \/ (o_attempts x' = o_attempts x + 1
          /\ (5 <= o_attempts x' -> o_status x' = failed)
          /\ (o_attempts x' < 5 -> o_status x' = pending /\ eligible x' = true))).
Proof.
  split; [exact drain_cycles_moved|].
  split; [exact drain_cycles_delivered | exact drain_cycle_boundary].
Qed.

Lemma outbox_status_monotone_witness :
  Forall2 moved Scenario.mixed_events
    (fst (drain_cycles [(Scenario.rejecting, 100%Q)] Scenario.mixed_events))
  /\ ~ In 1 (snd (drain_cycles [(Scenario.rejecting, 100%Q)] Scenario.mixed_events))
  /\ List.map (fun r => (o_id r, o_status r, o_attempts r))
       (fst (drain_cycle Scenario.rejecting 100 Scenario.mixed_events))
     = [(1, delivered, 0); (2, failed, 5); (3, pending, 1)]
  /\ (o_status Scenario.last_try_after = delivered
      \/ (o_attempts Scenario.last_try_after = o_attempts Scenario.last_try + 1
          /\ (5 <= o_attempts Scenario.last_try_after ->
              o_status Scenario.last_try_after = failed)
          /\ (o_attempts Scenario.last_try_after < 5 ->
              o_status Scenario.last_try_after = pending
              /\ eligible Scenario.last_try_after = true))).
Proof.
  assert (Hnd : List.NoDup (List.map o_id Scenario.mixed_events)).
  { simpl. repeat constructor; simpl; intuition discriminate. }
  split; [|split; [|split]].
  - exact (proj1 outbox_status_monotone [(Scenario.rejecting, 100%Q)]
             Scenario.mixed_events Hnd).
  - apply (proj1 (proj2 outbox_status_monotone) [(Scenario.rejecting, 100%Q)]
             Scenario.mixed_events (Scenario.event 1 delivered 0 10) Hnd).
    + simpl. auto.
    + reflexivity.
  - vm_compute. reflexivity.
  - apply (proj2 (proj2 outbox_status_monotone) Scenario.rejecting 100%Q
             Scenario.mixed_events Scenario.last_try Scenario.last_try_after Hnd).
    + simpl. auto.
    + vm_compute. auto.
    + reflexivity.
    + vm_compute. auto.
Defined.







End DrainClaims.

(** ** Sessions and invocations on a store that answers *)

Section HealthyFacts.
Import Eff Spec Store Session Invoke.

Lemma get_pg_healthy w : healthy w -> get_pg w = (Ok true, w).
Proof.
  destruct w as [c sv tx clk fs u j l p sq]. intros (Hc & Hf & Ht). simpl in *. subst.
  reflexivity.
Qed.

Lemma get_claude_session_id_healthy sid w :
  healthy w ->
  get_claude_session_id sid w
  = (Ok (match find_session sid (w_saved w) with
         | Some r => s_claude_session_id r
         | None => None
         end), w).
Proof.
  intros H. unfold get_claude_session_id, mbind, M_bind. rewrite (get_pg_healthy w H).
  destruct w as [c sv tx clk fs u j l p sq]. destruct H as (Hc & Hf & Ht). simpl in *. subst.
  reflexivity.
Qed.

Lemma find_session_touch sid0 sid now d :
  find_session sid0 (default d (touch_session sid now d))
  = match find_session sid0 d with
    | Some r =>
        Some (if String.eqb (s_id r) sid
              then {| s_id := s_id r; s_caller_id := s_caller_id r; s_target := s_target r;
                      s_session_type := s_session_type r;
                      s_claude_session_id := s_claude_session_id r;
                      s_created_at := s_created_at r;
                      s_last_used := now; s_message_count := s_message_count r + 1 |}
              else r)
    | None => None
    end.
Proof.
  unfold find_session, touch_session. destruct d as [ss al ob]. simpl.
  induction ss as [|r ss IH]; simpl; [reflexivity|].
  destruct (String.eqb (s_id r) sid) eqn:E1; simpl;
    destruct (String.eqb (s_id r) sid0) eqn:E2; simpl; try rewrite E1; auto.
Qed.

Lemma find_session_app sid0 ss r al ob :
  find_session sid0 {| hermes_sessions := ss ++ [r]; hermes_audit_log := al;
                       hermes_event_outbox := ob |}
  = match find_session sid0 {| hermes_sessions := ss; hermes_audit_log := al;
                               hermes_event_outbox := ob |} with
    | Some r0 => Some r0
    | None => if String.eqb (s_id r) sid0 then Some r else None
    end.
Proof.
  unfold find_session. simpl. induction ss as [|x ss IH]; simpl; [reflexivity|].
  destruct (String.eqb (s_id x) sid0); [reflexivity | exact IH].
Qed.

Lemma find_session_None sid d :
  find_session sid d = None <-> ~ In sid (List.map s_id (hermes_sessions d)).
Proof.
  unfold find_session. induction (hermes_sessions d) as [|r ss IH]; simpl; [tauto|].
  destruct (String.eqb_spec (s_id r) sid) as [E|E].
  - split; [discriminate | intros H; elim H; auto].
  - rewrite IH. tauto.
Qed.

(** What one resolve does to the stored sessions. *)
Lemma resolve_healthy caller_id target session_type purpose w :
  healthy w ->
  exists w',
    get_or_create_session caller_id target session_type purpose w
      = (Ok (session_key caller_id target purpose), w')
    /\ healthy w'
    /\ (forall sid0 r0, find_session sid0 (w_saved w) = Some r0 ->
          exists r1, find_session sid0 (w_saved w') = Some r1
                     /\ s_claude_session_id r1 = s_claude_session_id r0)
    /\ (find_session (session_key caller_id target purpose) (w_saved w) = None ->
          exists r1, find_session (session_key caller_id target purpose) (w_saved w')
                       = Some r1
                     /\ s_claude_session_id r1
                        = if String.eqb session_type "claude"
                          then Some (uuid_text (w_uuids w)) else None)
    /\ (List.NoDup (List.map s_id (hermes_sessions (w_saved w))) ->
        List.NoDup (List.map s_id (hermes_sessions (w_saved w')))).
Proof.
  intros H. unfold get_or_create_session, mbind, M_bind.
  rewrite (get_pg_healthy w H).
  destruct w as [c sv tx clk fs u j l p sq]. destruct H as (Hc & Hf & Ht). simpl in *. subst.
  set (sid := session_key caller_id target purpose).
  unfold try_except, pg_cursor, pg_query, pg_execute, pg_commit, fallible, pg_now,
    mbind, M_bind, get, put, modify, uuid4. simpl.
  destruct (find_session sid sv) as [r|] eqn:E; simpl.
  - eexists. split; [reflexivity|]. split; [repeat split|]. simpl.
    split; [|split].
    + intros sid0 r0 E0.
      pose proof (find_session_touch sid0 sid clk sv) as Ft. simpl in Ft.
      rewrite Ft, E0. eexists. split; [reflexivity|].
      destruct (String.eqb (s_id r0) sid); reflexivity.
    + discriminate.
    + destruct sv as [ss al ob]. simpl. rewrite List.map_map.
      erewrite List.map_ext; [intros Hn; exact Hn|].
      intros a. simpl. destruct (String.eqb (s_id a) sid); reflexivity.
  - destruct (String.eqb session_type "claude"); simpl;
      unfold insert_session; rewrite E; simpl;
      (eexists; split; [reflexivity|]; split; [repeat split|]; simpl;
       destruct sv as [ss al ob]; simpl; split; [|split];
       [ intros sid0 r0 E0; unfold with_sessions; simpl;
         rewrite find_session_app, E0; eexists; split; reflexivity
       | intros _; unfold with_sessions; simpl;
         rewrite find_session_app, E; simpl; rewrite String.eqb_refl;
         eexists; split; reflexivity
       | intros Hn; rewrite List.map_app; simpl;
         apply List.NoDup_app; [exact Hn | repeat constructor; simpl; tauto |];
         intros a Ha [<-|[]]; apply find_session_None in E; exact (E Ha) ]).
Qed.

Lemma conversation_handle_stored sid w r h :
  healthy w -> find_session sid (w_saved w) = Some r ->
  s_claude_session_id r = Some h -> h <> EmptyString ->
  conversation_handle sid w = (Ok h, w).
Proof.
  intros H E Eh Hne. unfold conversation_handle, mbind, M_bind.
  rewrite (get_claude_session_id_healthy sid w H), E, Eh.
  apply String.eqb_neq in Hne. rewrite Hne. reflexivity.
Qed.

Lemma yields_mint_handle sid w :
  exists w', mint_handle sid w = (Ok (uuid_text (w_uuids w)), w').
Proof.
  unfold mint_handle, mbind at 1, M_bind at 1, uuid4.
  assert (Y : yields (fun s => s = uuid_text (w_uuids w))
                (conn ← get_pg;
                 (if conn : bool
                  then try_except
                         (pg_cursor ;;
                          pg_execute (set_claude_session_id sid (uuid_text (w_uuids w))) ;;
                          pg_commit)
                         (fun _ => try_pass pg_rollback)
                  else mret tt) ;;
                 mret (uuid_text (w_uuids w)))).
  { eapply yields_bind; [apply yields_get_pg|]. intros conn _.
    eapply yields_bind with (Q := fun _ => True).
    - destruct conn; [|apply yields_ret; exact I].
      apply yields_try_except; [apply sat_true|]. intros e. apply yields_try_pass.
    - intros _ _. apply yields_ret. reflexivity. }
  destruct (Y (set_uuids (S (w_uuids w)) w)) as (s & w' & E & ->).
  exists w'. exact E.
Qed.

(** When nothing is stored for the session, the handle is drawn at the
    invocation. *)
Lemma conversation_handle_minted sid w w1 :
  get_claude_session_id sid w = (Ok None, w1) ->
  exists w', conversation_handle sid w = (Ok (uuid_text (w_uuids w1)), w').
Proof.
  intros E. unfold conversation_handle, mbind, M_bind. rewrite E.
  apply yields_mint_handle.
Qed.

Lemma yields_get_claude_session_id sid :
  yields (fun _ => True) (get_claude_session_id sid).
Proof.
  unfold get_claude_session_id.
  eapply yields_bind; [apply yields_get_pg|]. intros conn _.
  destruct conn; simpl; [|apply yields_ret; exact I].
  apply yields_try_except; [apply sat_true|]. intros e. apply yields_ret. exact I.
Qed.

Lemma yields_conversation_handle sid : yields (fun _ => True) (conversation_handle sid).
Proof.
  intros w. destruct (yields_get_claude_session_id sid w) as (o & w1 & E & _).
  unfold conversation_handle, mbind, M_bind. rewrite E.
  destruct o as [s|]; [destruct (String.eqb s EmptyString)|].
  - destruct (yields_mint_handle sid w1) as (w' & E'). eauto.
  - eexists _, _. split; [reflexivity | exact I].
  - destruct (yields_mint_handle sid w1) as (w' & E'). eauto.
Qed.

(** [invoke_claude] never raises, and its result names the handle it
    passed to the CLI. *)
Lemma invoke_claude_handle cfg message sid resume run w h w1 :
  conversation_handle sid w = (Ok h, w1) ->
  exists r w', invoke_claude cfg message sid resume run w = (Ok r, w')
               /\ session_id r = h.
Proof.
  intros E. unfold invoke_claude. unfold mbind at 1, M_bind at 1. rewrite E.
  assert (Y : yields (fun r => session_id r = h)
                (log INFO "Invoking Claude CLI" ;;
                 try_except
                   (create_subprocess_exec (claude_cmd cfg h message resume) run ;;
                    '(returncode, stdout, stderr) ← communicate run;
                    if negb (returncode =? 0)%Z then
                      err ← decode stderr;
                      let err_msg := Py.take 500 (Py.strip err) in
                      log ERROR "Claude CLI failed" ;;
                      mret (failure (ErrText err_msg) h)
                    else
                      out ← decode stdout;
                      let raw := Py.strip out in
                      '(response_text, cost) ← lift (CLI.claude_response raw);
                      mret {| response := Some response_text; error := None;
                              cost_usd := cost; session_id := h |})
                   (fun e =>
                      match e with
                      | TimeoutError =>
                          log ERROR "Claude CLI timed out" ;;
                          mret (failure (ErrText ("Timeout after "
                                                  ++ pretty (CLAUDE_TIMEOUT cfg) ++ "s")) h)
                      | _ =>
                          log ERROR "Claude CLI exception" ;;
                          mret (failure (ErrOf e) h)
                      end))).
  { eapply yields_bind; [apply yields_log|]. intros _ _.
    apply yields_try_except.
    - apply sat_bind. intros _. apply sat_bind. intros [[rc out] err].
      destruct (negb (rc =? 0)%Z).
      + apply sat_bind. intros ?. apply sat_bind. intros _. apply sat_ret. reflexivity.
      + apply sat_bind. intros ?. apply sat_bind. intros [? ?]. apply sat_ret. reflexivity.
    - intros e. destruct e;
        (eapply yields_bind; [apply yields_log|]; intros _ _; apply yields_ret; reflexivity). }
  destruct (Y w1) as (r & w' & E' & Hr). exists r, w'. split; [exact E' | exact Hr].
Qed.

(** A timed-out invocation on a session with a stored handle. *)
Lemma invoke_claude_timeout cfg message sid resume w r h :
  healthy w -> find_session sid (w_saved w) = Some r ->
  s_claude_session_id r = Some h -> h <> EmptyString ->
  invoke_claude cfg message sid resume Hangs w
  = (Ok (failure (ErrText ("Timeout after " ++ pretty (CLAUDE_TIMEOUT cfg) ++ "s")) h),
     set_log (w_log w ++ [(INFO, "Invoking Claude CLI"); (ERROR, "Claude CLI timed out")])
       (set_procs (w_procs w ++ [(claude_cmd cfg h message resume, Running)]) w)).
Proof.
  intros H E Eh Hne. unfold invoke_claude. unfold mbind at 1, M_bind at 1.
  rewrite (conversation_handle_stored sid w r h H E Eh Hne).
  destruct w as [c sv tx clk fs u j l p sq]. simpl.
  unfold mbind, M_bind, log, modify, try_except. simpl.
  rewrite <- app_assoc. reflexivity.
Qed.

Lemma uuid_text_nonempty n : uuid_text n <> EmptyString.
Proof. unfold uuid_text. simpl. discriminate. Qed.

(** Resolves, of whatever triples, keep a stored handle. *)
Lemma resolve_all_keeps_handle qs : forall w sid r,
  healthy w -> find_session sid (w_saved w) = Some r ->
  healthy (resolve_all qs w)
  /\ exists r', find_session sid (w_saved (resolve_all qs w)) = Some r'
                /\ s_claude_session_id r' = s_claude_session_id r.
Proof.
  induction qs as [|[[[c t] ty] p] qs IH]; intros w sid r H E; simpl.
  - split; [exact H|]. exists r. auto.
  - destruct (resolve_healthy c t ty p w H) as (w' & Erun & H' & Hkeep & _).
    rewrite Erun. simpl.
    destruct (Hkeep sid r E) as (r1 & E1 & Eh1).
    destruct (IH w' sid r1 H' E1) as (H2 & r2 & E2 & Eh2).
    split; [exact H2|]. exists r2. split; [exact E2 | congruence].
Qed.

(** A session created for the assistant CLI keeps, through any later
    resolves, the handle drawn when its row was created, and that is the
    handle passed to the CLI. *)
Lemma repeated_resolves_same_handle caller_id target purpose qs w :
  healthy w ->
  find_session (session_key caller_id target purpose) (w_saved w) = None ->
  fst (conversation_handle (session_key caller_id target purpose)
         (resolve_all (((caller_id, target, "claude", purpose)) :: qs) w))
  = Ok (uuid_text (w_uuids w)).
Proof.
  intros H E. simpl.
  destruct (resolve_healthy caller_id target "claude" purpose w H)
    as (w' & Erun & H' & _ & Hnew & _).
  rewrite Erun. simpl.
  destruct (Hnew E) as (r1 & E1 & Eh1). simpl in Eh1.
  destruct (resolve_all_keeps_handle qs w' _ r1 H' E1) as (H2 & r2 & E2 & Eh2).
  rewrite (conversation_handle_stored _ _ r2 (uuid_text (w_uuids w)) H2 E2).
  - reflexivity.
  - congruence.
  - apply uuid_text_nonempty.
Qed.

End HealthyFacts.

Section SessionClaims.
Import Eff Spec Store Session Invoke.

(** C3, as the code has it.  Whatever the store does, resolving a
    triple returns the same session id, the text
    [hermes-{caller_id}-{target}-{purpose}].  On a store that answers, a
    resolve is a SELECT followed by an UPDATE of the row found or by an
    INSERT: rows that exist keep their handle, a row is created with a
    handle exactly when the session type is [claude], and ids stay
    unique.  [invoke_claude] passes the stored handle to the CLI, so a
    session created for the assistant CLI is invoked with the handle of
    its creation after any further resolves; when no handle is stored,
    [invoke_claude] draws one at the invocation. *)
Theorem session_resolution :
  (forall caller_id target session_type purpose w,
      exists w',
        get_or_create_session caller_id target session_type purpose w
        = (Ok (session_key caller_id target purpose), w'))
  /\ (forall caller_id target session_type purpose w,
      healthy w ->
      exists w',
        get_or_create_session caller_id target session_type purpose w
          = (Ok (session_key caller_id target purpose), w')
        /\ healthy w'
        /\ (forall sid0 r0, find_session sid0 (w_saved w) = Some r0 ->
              exists r1, find_session sid0 (w_saved w') = Some r1
                         /\ s_claude_session_id r1 = s_claude_session_id r0)
        /\ (find_session (session_key caller_id target purpose) (w_saved w) = None ->
              exists r1, find_session (session_key caller_id target purpose) (w_saved w')
                           = Some r1
                         /\ s_claude_session_id r1
                            = if String.eqb session_type "claude"
                              then Some (uuid_text (w_uuids w)) else None)
        /\ (List.NoDup (List.map s_id (hermes_sessions (w_saved w))) ->
            List.NoDup (List.map s_id (hermes_sessions (w_saved w')))))
  /\ (forall sid w r h,
      healthy w -> find_session sid (w_saved w) = Some r ->
      s_claude_session_id r = Some h -> h <> EmptyString ->
      conversation_handle sid w = (Ok h, w))
  /\ (forall caller_id target purpose qs w,
      healthy w ->
      find_session (session_key caller_id target purpose) (w_saved w) = None ->
      fst (conversation_handle (session_key caller_id target purpose)
             (resolve_all (((caller_id, target, "claude", purpose)) :: qs) w))
      = Ok (uuid_text (w_uuids w)))
  /\ (forall sid w w1,
      get_claude_session_id sid w = (Ok None, w1) ->
      exists w', conversation_handle sid w = (Ok (uuid_text (w_uuids w1)), w')).
Proof.
  split; [|split; [exact resolve_healthy|split;
                   [exact conversation_handle_stored
                   |split; [exact repeated_resolves_same_handle
                           |exact conversation_handle_minted]]]].
  intros caller_id target session_type purpose w.
  destruct (yields_get_or_create_session caller_id target session_type purpose w)
    as (s & w' & E & ->).
  exists w'. exact E.
Qed.

Lemma world_up_healthy : healthy Scenario.world_up.
Proof. repeat split. Qed.

Lemma world_resolved_healthy : healthy Scenario.world_resolved.
Proof. repeat split. Qed.

Lemma session_resolution_witness :
  healthy Scenario.world_resolved
  /\ conversation_handle "hermes-agent-a-claude-general" Scenario.world_resolved
     = (Ok "uuid4-0", Scenario.world_resolved)
  /\ fst (conversation_handle (session_key "agent-a" "claude" "general")
            (resolve_all [("agent-a", "claude", "claude", "general");
                          ("agent-b", "main", "agent", "general");
                          ("agent-a", "claude", "claude", "general")]
               Scenario.world_up))
     = Ok (uuid_text 0)
  /\ exists w', conversation_handle "hermes-agent-a-claude-general" Scenario.world_down
                = (Ok "uuid4-0", w').
Proof.
  split; [exact world_resolved_healthy|]. split; [|split].
  - destruct (proj1 (proj2 session_resolution) "agent-a" "claude" "claude" "general"
                Scenario.world_up world_up_healthy) as (w' & E & _).
    refine (proj1 (proj2 (proj2 session_resolution)) "hermes-agent-a-claude-general"
              Scenario.world_resolved
              {| s_id := "hermes-agent-a-claude-general"; s_caller_id := "agent-a";
                 s_target := "claude"; s_session_type := "claude";
                 s_claude_session_id := Some "uuid4-0";
                 s_created_at := 1000; s_last_used := 1000; s_message_count := 0 |}
              "uuid4-0" world_resolved_healthy _ _ _).
    + reflexivity.
    + reflexivity.
    + discriminate.
  - apply (proj1 (proj2 (proj2 (proj2 session_resolution))) "agent-a" "claude" "general"
             [("agent-b", "main", "agent", "general");
              ("agent-a", "claude", "claude", "general")]
             Scenario.world_up world_up_healthy).
    reflexivity.
  - exact (proj2 (proj2 (proj2 (proj2 session_resolution))) "hermes-agent-a-claude-general"
             Scenario.world_down
             (snd (get_claude_session_id "hermes-agent-a-claude-general"
                     Scenario.world_down))
             eq_refl).
Defined.

(** While the store is down, two rounds for the same triple get the
    same session id and two different handles, each drawn when the CLI is
    invoked. *)
Lemma handles_differ_when_store_down :
  Scenario.two_rounds Scenario.world_down
  = [Ok "hermes-agent-a-claude-general"; Ok "uuid4-0";
     Ok "hermes-agent-a-claude-general"; Ok "uuid4-1"]
  /\ w_uuids (snd (get_or_create_session "agent-a" "claude" "claude" "general"
                     Scenario.world_down)) = 0%nat.
Proof. vm_compute. auto. Qed.

(** On a store that answers, the second round gets the handle of the
    first. *)
Example handles_agree_when_store_up :
  Scenario.two_rounds Scenario.world_up
  = [Ok "hermes-agent-a-claude-general"; Ok "uuid4-0";
     Ok "hermes-agent-a-claude-general"; Ok "uuid4-0"].
Proof. vm_compute. reflexivity. Qed.

(** A row created without a handle gets one at the first invocation,
    not when the row is created. *)
Example handle_drawn_at_invocation :
  Scenario.agent_row_then_claude Scenario.world_up = (0%nat, Ok "uuid4-0").
Proof. vm_compute. reflexivity. Qed.

(** C6, as the code has it.  On a store that answers and for a session
    with a stored handle: an invocation whose subprocess outlives the
    timeout returns the Timeout error with that handle; the stored tables
    are untouched; the only trace of the subprocess is that it was started
    and is running (nothing is sent to it); and any later invocation for
    the same session id passes the same handle. *)
Theorem timeout_preserves_session :
  forall cfg message sid resume w r h,
    healthy w -> find_session sid (w_saved w) = Some r ->
    s_claude_session_id r = Some h -> h <> EmptyString ->
    exists w',
      invoke_claude cfg message sid resume Hangs w
        = (Ok {| response := None;
                 error := Some (ErrText ("Timeout after "
                                         ++ pretty (CLAUDE_TIMEOUT cfg) ++ "s"));
                 cost_usd := JFloat "0.0"; session_id := h |}, w')
      /\ w_saved w' = w_saved w
      /\ healthy w'
      /\ w_procs w' = w_procs w ++ [(claude_cmd cfg h message resume, Running)]
      /\ forall message2 resume2 run2,
           exists r2 w2,
             invoke_claude cfg message2 sid resume2 run2 w' = (Ok r2, w2)
             /\ session_id r2 = h.
Proof.
  intros cfg message sid resume w r h H E Eh Hne.
  eexists. split; [exact (invoke_claude_timeout cfg message sid resume w r h H E Eh Hne)|].
  destruct w as [c sv tx clk fs u j l p sq]. destruct H as (Hc & Hf & Ht). simpl in *. subst.
  split; [reflexivity|]. split; [repeat split|]. split; [reflexivity|].
  intros message2 resume2 run2.
  eapply invoke_claude_handle.
  apply (conversation_handle_stored sid _ r h); [repeat split | exact E | exact Eh | exact Hne].
Qed.

Lemma timeout_preserves_session_witness :
  exists w',
    invoke_claude Scenario.cfg "hello" "hermes-agent-a-claude-general" false Hangs
      Scenario.world_resolved
    = (Ok {| response := None; error := Some (ErrText "Timeout after 120s");
             cost_usd := JFloat "0.0"; session_id := "uuid4-0" |}, w')
    /\ w_saved w' = w_saved Scenario.world_resolved.
Proof.
  destruct (timeout_preserves_session Scenario.cfg "hello" "hermes-agent-a-claude-general"
              false Scenario.world_resolved
              {| s_id := "hermes-agent-a-claude-general"; s_caller_id := "agent-a";
                 s_target := "claude"; s_session_type := "claude";
                 s_claude_session_id := Some "uuid4-0";
                 s_created_at := 1000; s_last_used := 1000; s_message_count := 0 |}
              "uuid4-0" world_resolved_healthy eq_refl eq_refl ltac:(discriminate))
    as (w' & E & Hs & _).
  exists w'. split; [exact E | exact Hs].
Defined.

(** After the timed-out invocation the subprocess is still running: the
    code has sent it nothing. *)
Lemma timed_out_subprocess_left_running :
  w_procs (snd (invoke_claude Scenario.cfg "hello" "hermes-agent-a-claude-general" false
                  Hangs Scenario.world_resolved))
  = [(["claude"; "-p"; "--output-format"; "json"; "--session-id"; "uuid4-0"; "hello"],
      Running)].
Proof. vm_compute. reflexivity. Qed.

End SessionClaims.

(** ** Recovering the response of a CLI *)

Section CliClaims.
Import Invoke.

(** Scenario C: the banner line is skipped and the result field is the
    response; no cost field means cost zero. *)
Example banner_then_json :
  CLI.claude_response (Py.strip Scenario.hello_stdout) = Ok (Lit "hello", JFloat "0.0").
Proof. vm_compute. reflexivity. Qed.

(** Output that is no JSON at all comes back as it is, cut to 2000
    characters. *)
Lemma undecodable_output_is_returned raw :
  Json.loads (CLI.json_part raw) = None ->
  CLI.claude_response raw = Ok (Lit (Py.take 2000 raw), JFloat "0.0").
Proof. intros E. unfold CLI.claude_response. rewrite E. reflexivity. Qed.

Example plain_text_output :
  CLI.claude_response "All tests pass." = Ok (Lit "All tests pass.", JFloat "0.0").
Proof. vm_compute. reflexivity. Qed.

(** Output that decodes to anything but an object leaves the inner
    handler with [AttributeError]. *)
Lemma non_object_output_raises raw v :
  Json.loads (CLI.json_part raw) = Some v ->
  (forall members, v <> JObject members) ->
  CLI.claude_response raw = Exn AttributeError.
Proof.
  intros E Hv. unfold CLI.claude_response. rewrite E.
  destruct v; try reflexivity. elim (Hv members). reflexivity.
Qed.

(** Whatever the run and the store, [invoke_claude] itself returns a
    result and never raises. *)
Lemma invoke_claude_returns cfg message sid resume run w :
  exists r w', invoke_claude cfg message sid resume run w = (Ok r, w').
Proof.
  destruct (yields_conversation_handle sid w) as (h & w1 & E & _).
  destruct (invoke_claude_handle cfg message sid resume run w h w1 E) as (r & w' & E' & _).
  exists r, w'. exact E'.
Qed.

(** C4.  A run that exits with code 0 and prints [42]: [json.loads]
    decodes the number, [data.get] raises [AttributeError], which the
    handler for [JSONDecodeError] and [KeyError] lets through, and
    [invoke_claude] reports a failure: no response, the text of the
    exception as error.  The same holds for [invoke_agent], with
    [TypeError].  The run of Scenario C returns the response [hello]. *)
Theorem scalar_output_reported_as_failure :
  fst (invoke_claude Scenario.cfg "how many?" "hermes-agent-a-claude-general" false
         (Exits 0 (Ok ("42" ++ Py.nl)%string) (Ok EmptyString)) Scenario.world_resolved)
  = Ok {| response := None; error := Some (ErrOf AttributeError);
          cost_usd := JFloat "0.0"; session_id := "uuid4-0" |}
  /\ fst (invoke_agent Scenario.cfg "main" "how many?" "hermes-agent-a-main-general"
            (Exits 0 (Ok ("42" ++ Py.nl)%string) (Ok EmptyString)) Scenario.world_resolved)
     = Ok {| agent_response := None; agent_error := Some (ErrOf TypeError) |}
  /\ fst (invoke_claude Scenario.cfg "hi" "hermes-agent-a-claude-general" false
            Scenario.hello_run Scenario.world_resolved)
     = Ok {| response := Some (Lit "hello"); error := None;
             cost_usd := JFloat "0.0"; session_id := "uuid4-0" |}.
Proof. vm_compute. auto. Qed.

End CliClaims.

(** * Further properties *)

(** ** The limiter and the gate *)

Section GateExtras.
Import Rate Gate.

Lemma calls_of_prune now c rc c' :
  calls_of (_prune now c rc) c'
  = if decide (c = c') then List.filter (newer (now - 3600)%Q) (calls_of rc c)
    else calls_of rc c'.
Proof. unfold _prune. apply calls_of_insert. Qed.

Lemma filter_length_le {A} (p : A -> bool) l :
  (length (List.filter p l) <= length l)%nat.
Proof. induction l as [|a l IH]; simpl; [lia|]. destruct (p a); simpl; lia. Qed.

(** X1.  Consulting the gate never charges anybody: whatever the
    verdict, the lists of the other callers are as before, and the list of
    the caller is as before or pruned, so it never grows.  Only
    [record_call] adds a stamp. *)
Theorem enforce_policy_never_charges :
  forall pol hour now c ep pr rc c',
    let rc' := snd (enforce_policy pol hour now c ep pr rc) in
    (c' <> c -> calls_of rc' c' = calls_of rc c')
    /\ (calls_of rc' c = calls_of rc c
        \/ calls_of rc' c = List.filter (newer (now - 3600)%Q) (calls_of rc c))
    /\ (length (calls_of rc' c) <= length (calls_of rc c))%nat.
Proof.
  intros pol hour now c ep pr rc c'. simpl.
  destruct (enforce_policy pol hour now c ep pr rc) as [v rc'] eqn:E. simpl.
  destruct (enforce_counters pol _ _ _ _ _ _ _ _ E) as [-> | ->].
  - repeat split; auto.
  - split; [|split].
    + intros Hne. rewrite calls_of_prune. destruct (decide (c = c')); congruence.
    + right. rewrite calls_of_prune. destruct (decide (c = c)); congruence.
    + rewrite calls_of_prune. destruct (decide (c = c)); [|congruence].
      apply filter_length_le.
Qed.

(** X2.  Pruning composes: pruning at a reading and then at a later one
    is pruning at the later one; what is left for the caller is newer than
    the cutoff, and no other caller's list is read or written. *)
Theorem prune_composes :
  (forall now1 now2 c rc,
      (now1 <= now2)%Q -> _prune now2 c (_prune now1 c rc) = _prune now2 c rc)
  /\ (forall now c rc t,
      In t (calls_of (_prune now c rc) c) -> (now - 3600 < t)%Q /\ In t (calls_of rc c))
  /\ (forall now c rc c', c' <> c -> calls_of (_prune now c rc) c' = calls_of rc c').
Proof.
  split; [|split].
  - intros now1 now2 c rc Hle. unfold _prune at 1 3.
    rewrite calls_of_prune. destruct (decide (c = c)); [|congruence].
    unfold _prune. rewrite insert_insert_eq.
    rewrite filter_newer_twice by lra. reflexivity.
  - intros now c rc t. rewrite calls_of_prune. destruct (decide (c = c)); [|congruence].
    intros [H1 H2]%filter_In. split; [apply newer_spec, H2 | exact H1].
  - intros now c rc c' Hne. rewrite calls_of_prune.
    destruct (decide (c = c')); congruence.
Qed.

Lemma prune_composes_witness :
  _prune 7200 "a" (_prune 3600 "a" (fst (ops_run Scenario.pol_stale Scenario.stale_ops)))
  = _prune 7200 "a" (fst (ops_run Scenario.pol_stale Scenario.stale_ops)).
Proof. apply (proj1 prune_composes 3600%Q 7200%Q). vm_compute. discriminate. Defined.

Lemma total_insert_nil f c (rc : gmap string (list Q)) :
  f [] = 0%nat -> total f (<[c := []]> rc) = total f (delete c rc).
Proof.
  intros Hnil. rewrite <- insert_delete_eq.
  rewrite total_insert_fresh by apply lookup_delete_eq. lia.
Qed.

Lemma filter_all_stale cut l :
  Forall (fun t => (t <= cut)%Q) l -> List.filter (newer cut) l = [].
Proof.
  induction 1 as [|t l Ht _ IH]; simpl; [reflexivity|].
  destruct (newer cut t) eqn:E; [|exact IH].
  apply newer_spec in E. lra.
Qed.

(** X3.  The window really slides: once every stamp of a caller is an
    hour old or more, the per-agent ceiling (if positive) no longer stands
    in its way, and the call is admitted exactly when the lists of the
    other callers, stale entries included, hold fewer stamps than the
    global ceiling. *)
Theorem caller_readmitted_after_an_hour :
  forall pol now c rc,
    Forall (fun t => (t <= now - 3600)%Q) (calls_of rc c) ->
    0 < agent_limit pol c ->
    (fst (fst (check_rate_limit pol now c rc)) = true
     <-> Z.of_nat (total_calls (delete c rc)) < global_limit pol)
    /\ snd (fst (check_rate_limit pol now c rc)) <> agent_reason c (agent_limit pol c).
Proof.
  intros pol now c rc Hstale Hpos. unfold check_rate_limit, _prune.
  rewrite (filter_all_stale _ _ Hstale).
  rewrite calls_of_insert. destruct (decide (c = c)); [|congruence].
  rewrite total_calls_total, (total_insert_nil _ c rc eq_refl), <- total_calls_total.
  simpl.
  destruct (Z.geb_spec (Z.of_nat (total_calls (delete c rc))) (global_limit pol)); simpl.
  - split; [split; [discriminate | lia] | discriminate].
  - destruct (Z.geb_spec (Z.of_nat 0) (agent_limit pol c)); [lia|]. simpl.
    split; [split; [lia | reflexivity] | discriminate].
Qed.

Lemma caller_readmitted_after_an_hour_witness :
  fst (fst (check_rate_limit empty_policy 7200 "a"
              (fst (ops_run Scenario.pol_stale Scenario.stale_ops)))) = true
  <-> Z.of_nat (total_calls (delete "a" (fst (ops_run Scenario.pol_stale Scenario.stale_ops))))
      < global_limit empty_policy.
Proof.
  apply (proj1 (caller_readmitted_after_an_hour empty_policy 7200%Q "a"
                  (fst (ops_run Scenario.pol_stale Scenario.stale_ops))
                  ltac:(vm_compute; repeat constructor; discriminate)
                  ltac:(vm_compute; reflexivity))).
Defined.

(** What a verdict [Ok None] tells about the request. *)
Lemma enforce_allow_request pol hour now c ep pr rc rc' :
  enforce_policy pol hour now c ep pr rc = (Ok None, rc') ->
  In pr (default ["low"; "normal"] (priority_levels (get_agent_limits pol c)))
  /\ exists quiet, is_quiet_hours pol hour = Ok quiet
                   /\ (quiet = false \/ pr = "critical" \/ is_exempt pol c = true).
Proof.
  unfold enforce_policy, check_rate_limit.
  destruct (is_quiet_hours pol hour) as [quiet|e]; [|discriminate].
  destruct (quiet && negb (String.eqb pr "critical") && negb (is_exempt pol c)) eqn:G;
    [discriminate|].
  destruct (_ >=? global_limit pol); simpl; [discriminate|].
  destruct (_ >=? agent_limit pol c); simpl; [discriminate|].
  destruct (existsb (String.eqb pr) _) eqn:Ex; simpl; [|discriminate].
  intros _. split.
  - apply existsb_exists in Ex as (x & Hx & ->%String.eqb_eq). exact Hx.
  - exists quiet. split; [reflexivity|].
    destruct quiet; [|auto]. simpl in G.
    destruct (String.eqb_spec pr "critical"); [auto|].
    destruct (is_exempt pol c); [auto | discriminate].
Qed.

(** X4.  When the policy file cannot be loaded the gate works from the
    defaults written in the code: a call is allowed exactly when its
    priority is [low] or [normal], the hour is outside 23:00-08:00 unless
    the caller is [dashboard], fewer than 60 stamps are held in all, and
    the caller holds fewer than 5 fresh ones. *)
Theorem defaults_when_policy_missing :
  forall e hour now c ep pr rc,
    fst (enforce_policy (load_policy (Exn e)) hour now c ep pr rc) = Ok None
    <-> (pr = "low" \/ pr = "normal")
        /\ (quiet_at 23 8 hour = false \/ c = "dashboard")
        /\ Z.of_nat (total_calls (_prune now c rc)) < 60
        /\ Z.of_nat (length (calls_of (_prune now c rc) c)) < 5.
Proof.
  intros e hour now c ep pr rc. simpl load_policy.
  unfold enforce_policy, check_rate_limit, is_exempt.
  change (is_quiet_hours empty_policy hour) with (Ok (quiet_at 23 8 hour)).
  change (get_agent_limits empty_policy c) with default_agent_limits.
  change (global_limit empty_policy) with 60.
  change (agent_limit empty_policy c) with 5.
  simpl default.
  destruct (quiet_at 23 8 hour);
  destruct (String.eqb_spec pr "critical") as [Hc|Hc];
  destruct (String.eqb_spec c "dashboard") as [Hd|Hd]; simpl;
  destruct (Z.geb_spec (Z.of_nat (total_calls (_prune now c rc))) 60); simpl;
  try destruct (Z.geb_spec (Z.of_nat (length (calls_of (_prune now c rc) c))) 5); simpl;
  destruct (String.eqb_spec pr "low") as [Hl|Hl];
  destruct (String.eqb_spec pr "normal") as [Hn|Hn]; simpl;
  try (exfalso; congruence);
  split; try discriminate; try reflexivity;
  try (intros _; repeat split; auto; lia);
  try (intros ([?|?] & [?|?] & ? & ?); try congruence; try lia; try discriminate).
Qed.

Lemma split_head_minutes h m :
  Py.contains_char ":" h = false -> Py.split_head ":" (h ++ String ":" m) = h.
Proof.
  induction h as [|a h IH]; simpl.
  - reflexivity.
  - intros [Ha Hh]%orb_false_iff. rewrite Ha, (IH Hh). reflexivity.
Qed.

Lemma split_head_whole h :
  Py.contains_char ":" h = false -> Py.split_head ":" h = h.
Proof.
  induction h as [|a h IH]; simpl; [reflexivity|].
  intros [Ha Hh]%orb_false_iff. rewrite Ha, (IH Hh). reflexivity.
Qed.

(** X5.  How the quiet window is read.  Only the text before the first
    colon of each field counts, so minutes are ignored.  The window is
    closed at its start and open at its end: the end hour is never quiet,
    the start hour is quiet unless both hours coincide, in which case no
    hour at all is quiet. *)
Theorem quiet_window_reading :
  (forall pol hs ms he me hour,
      Py.contains_char ":" hs = false -> Py.contains_char ":" he = false ->
      is_quiet_hours (with_quiet_hours (hs ++ String ":" ms) (he ++ String ":" me) pol) hour
      = is_quiet_hours (with_quiet_hours hs he pol) hour)
  /\ (forall s e, quiet_at s e e = false)
  /\ (forall s e, s <> e -> quiet_at s e s = true)
  /\ (forall s hour, quiet_at s s hour = false).
Proof.
  split; [|split; [|split]].
  - intros pol hs ms he me hour Hs He. unfold is_quiet_hours. simpl.
    rewrite (split_head_minutes hs ms Hs), (split_head_minutes he me He).
    rewrite (split_head_whole hs Hs), (split_head_whole he He). reflexivity.
  - intros s e. unfold quiet_at. destruct (Z.gtb_spec s e).
    + rewrite Z.ltb_irrefl, orb_false_r.
      destruct (Z.geb_spec e s); [lia | reflexivity].
    + rewrite Z.ltb_irrefl. apply andb_false_r.
  - intros s e Hne. unfold quiet_at. destruct (Z.gtb_spec s e).
    + apply orb_true_iff. left. apply Z.geb_le. lia.
    + apply andb_true_iff. split; [apply Z.leb_le | apply Z.ltb_lt]; lia.
  - intros s hour. unfold quiet_at. rewrite Z.gtb_ltb, Z.ltb_irrefl.
    destruct (Z.leb_spec s hour), (Z.ltb_spec hour s); simpl; auto; lia.
Qed.

Lemma quiet_window_reading_witness :
  is_quiet_hours (with_quiet_hours ("23" ++ String ":" "45") ("08" ++ String ":" "30")
                    empty_policy) 23
  = is_quiet_hours (with_quiet_hours "23" "08" empty_policy) 23
  /\ quiet_at 23 8 23 = true.
Proof.
  split.
  - apply (proj1 quiet_window_reading empty_policy "23" "45" "08" "30" 23); reflexivity.
  - apply (proj1 (proj2 (proj2 quiet_window_reading)) 23 8). discriminate.
Defined.

(** X6.  An hour field that [int] cannot read makes the gate fail for
    every call: if [is_quiet_hours] raises at one hour it raises at every
    hour, and then [enforce_policy] raises the same exception for every
    caller and priority, [dashboard] and [critical] included, before the
    counters are looked at. *)
Theorem malformed_quiet_hours_stop_every_call :
  forall pol hour0 e,
    is_quiet_hours pol hour0 = Exn e ->
    forall hour now c ep pr rc,
      enforce_policy pol hour now c ep pr rc = (Exn e, rc).
Proof.
  intros pol hour0 e H hour now c ep pr rc.
  assert (E : is_quiet_hours pol hour = Exn e).
  { revert H. unfold is_quiet_hours.
    destruct (Py.int (Py.split_head ":" (default "23:00" (quiet_hours_start pol))));
      [|auto].
    destruct (Py.int (Py.split_head ":" (default "08:00" (quiet_hours_end pol))));
      [discriminate | auto]. }
  unfold enforce_policy. rewrite E. reflexivity.
Qed.

Lemma malformed_quiet_hours_stop_every_call_witness :
  enforce_policy (with_quiet_hours "11pm" "08:00" empty_policy) 12 0 "dashboard"
    "/claude/ask" "critical" ∅
  = (Exn ValueError, ∅).
Proof.
  apply (malformed_quiet_hours_stop_every_call
           (with_quiet_hours "11pm" "08:00" empty_policy) 0 ValueError).
  reflexivity.
Defined.

End GateExtras.

(** ** The connection, the audit ledger and the producer side of the outbox *)

Section StoreExtras.
Import Eff Spec Store.

Lemma get_pg_outcome w :
  exists b w', get_pg w = (Ok b, w')
    /\ w_conn w' = (if b : bool then Conn false else NoConn)
    /\ w_saved w' = w_saved w
    /\ w_clock w' = w_clock w
    /\ (w_txn w = w_saved w -> w_txn w' = w_saved w')
    /\ w_outbox_seq w' = w_outbox_seq w.
Proof.
  destruct w as [c sv tx clk fs u j l p sq].
  destruct c as [|[|]];
    destruct fs as [|[|] [|[|] [|[|] [|[|] fs]]]];
    eexists _, _; (split; [reflexivity|]); simpl; auto.
Qed.

(** X7.  [get_pg] never raises, and its answer agrees with the global
    it leaves behind: a connection is returned exactly when [_pg_conn] ends
    up open, and [None] exactly when it ends up [None] (a connection found
    closed or stale is replaced or dropped, never returned).  Nothing that
    was committed changes, and a store that answers is returned as it is. *)
Theorem get_pg_returns_live_connection_or_none :
  forall w,
    exists b w', get_pg w = (Ok b, w')
      /\ w_conn w' = (if b : bool then Conn false else NoConn)
      /\ w_saved w' = w_saved w
      /\ (healthy w -> b = true /\ w' = w).
Proof.
  intros w. destruct (get_pg_outcome w) as (b & w' & E & Hc & Hs & _).
  exists b, w'. split; [exact E|]. split; [exact Hc|]. split; [exact Hs|].
  intros H. rewrite (get_pg_healthy w H) in E. injection E as <- <-. auto.
Qed.

Lemma get_pg_returns_live_connection_or_none_witness :
  exists b w', get_pg Scenario.world_up = (Ok b, w')
               /\ b = true /\ w' = Scenario.world_up.
Proof.
  destruct (get_pg_returns_live_connection_or_none Scenario.world_up)
    as (b & w' & E & _ & _ & H).
  exists b, w'. split; [exact E|]. apply H. repeat split.
Defined.









Lemma ids_drawn_fresh rows seq :
  Forall (fun r => o_id r <= seq) rows ->
  existsb (fun r => (o_id r =? seq + 1)%Z) rows = false.
Proof.
  induction 1 as [|r rows Hr _ IH]; [reflexivity|].
  cbn [existsb]. rewrite IH, orb_false_r. apply Z.eqb_neq. lia.
Qed.

Lemma ids_drawn_not_in rows seq :
  Forall (fun r => o_id r <= seq) rows -> ~ In (seq + 1) (List.map o_id rows).
Proof.
  intros H (r & E & Hin)%in_map_iff.
  rewrite Forall_forall in H. apply list_elem_of_In in Hin.
  specialize (H r Hin). simpl in H. lia.
Qed.

(** [emit_event] on a store that answers: the INSERT is accepted unless
    the id drawn is in the table. *)
Lemma emit_event_healthy cfg pol ty src payload w :
  healthy w ->
  webhooks_shape_ok pol = true ->
  Outbox.emit_event cfg pol ty src payload w
  = (Ok tt,
     match Outbox.add_event ty src payload
             (N8N_BASE cfg ++ Outbox.webhook_path (webhooks_dict pol) ty)%string
             (w_clock w) (w_outbox_seq w + 1) (w_saved w) with
     | Some d =>
         set_log (w_log w ++ [(DEBUG, "Event queued")])
           (set_saved d (set_txn d (set_outbox_seq (w_outbox_seq w + 1) w)))
     | None =>
         set_log (w_log w ++ [(ERROR, "Event emit failed")])
           (set_txn (w_saved w) (set_outbox_seq (w_outbox_seq w + 1) w))
     end).
Proof.
  intros H Hok. unfold Outbox.emit_event, mbind, M_bind.
  rewrite (get_pg_healthy w H), webhooks_of_shape, Hok.
  set (stmt := Outbox.add_event ty src payload
                 (N8N_BASE cfg ++ Outbox.webhook_path (webhooks_dict pol) ty)%string).
  clearbody stmt.
  destruct w as [c sv tx clk fs u j l p sq]. destruct H as (Hc & Hf & Ht). simpl in *. subst.
  unfold try_except, pg_cursor, pg_now, pg_execute_serial, fallible, get.
  unfold mbind, M_bind. cbn. destruct (stmt clk (sq + 1) sv); reflexivity.
Qed.

(** X9.  On a store that answers, with [event_webhooks] a dictionary or
    missing and every id of the outbox drawn from the sequence,
    [emit_event] appends one row to the outbox and touches nothing else:
    the row is pending with no attempt and no error, it carries the
    [NOW()] of its transaction and the URL resolved from the policy at
    that moment, and its id is the next value of the sequence, which no
    row of the table has, so unique ids stay unique.  The sequence moves
    on by one and the ids of the table are again all drawn from it.  An
    id is not given twice: the event emitted after the first one has been
    removed from the table gets the id 2. *)
Theorem emit_event_enqueues_one_pending_row :
  (forall cfg pol ty src payload w,
      healthy w ->
      webhooks_shape_ok pol = true ->
      ids_drawn w ->
      exists w',
        Outbox.emit_event cfg pol ty src payload w = (Ok tt, w')
        /\ healthy w'
        /\ hermes_event_outbox (w_saved w')
           = hermes_event_outbox (w_saved w)
             ++ [emitted_row cfg (webhooks_dict pol) ty src payload
                   (w_outbox_seq w + 1) (w_clock w)]
        /\ w_outbox_seq w' = w_outbox_seq w + 1
        /\ ids_drawn w'
        /\ ~ In (w_outbox_seq w + 1) (List.map o_id (hermes_event_outbox (w_saved w)))
        /\ (List.NoDup (List.map o_id (hermes_event_outbox (w_saved w))) ->
            List.NoDup (List.map o_id (hermes_event_outbox (w_saved w'))))
        /\ hermes_sessions (w_saved w') = hermes_sessions (w_saved w)
        /\ hermes_audit_log (w_saved w') = hermes_audit_log (w_saved w))
  /\ List.map o_id
       (hermes_event_outbox
          (w_saved
             (snd (Outbox.emit_event Scenario.cfg empty_policy "task.updated" "agent-a" "{}"
                     (set_saved Scenario.empty_db
                        (set_txn Scenario.empty_db
                           (snd (Outbox.emit_event Scenario.cfg empty_policy
                                   "task.created" "agent-a" "{}" Scenario.world_up))))))))
     = [2].
Proof.
  split; [|vm_compute; reflexivity].
  intros cfg pol ty src payload w H Hok Hids.
  eexists. split; [apply (emit_event_healthy cfg pol ty src payload w H Hok)|].
  unfold Outbox.add_event. rewrite (ids_drawn_fresh _ _ Hids).
  pose proof (ids_drawn_not_in _ _ Hids) as Hfresh.
  unfold ids_drawn in *.
  destruct w as [c sv tx clk fs u j l p sq]. destruct H as (Hc & Hf & Ht). simpl in *. subst.
  split; [repeat split|]. split; [reflexivity|]. split; [reflexivity|].
  split.
  { apply Forall_app. split.
    - eapply Forall_impl; [exact Hids|]. simpl. intros r Hr. lia.
    - repeat constructor. simpl. lia. }
  split; [exact Hfresh|]. split; [|split; reflexivity].
  intros Hnd. rewrite List.map_app. simpl.
  apply List.NoDup_app; [exact Hnd | repeat constructor; simpl; tauto|].
  intros a Ha [<-|[]]. exact (Hfresh Ha).
Qed.

Lemma emit_event_enqueues_one_pending_row_witness :
  exists w',
    Outbox.emit_event Scenario.cfg empty_policy "task.created" "agent-a" "{}"
      Scenario.world_up = (Ok tt, w')
    /\ List.map o_id (hermes_event_outbox (w_saved w')) = [1]
    /\ w_outbox_seq w' = 1.
Proof.
  destruct (proj1 emit_event_enqueues_one_pending_row Scenario.cfg empty_policy
              "task.created" "agent-a" "{}" Scenario.world_up ltac:(repeat split) eq_refl
              ltac:(constructor))
    as (w' & E & _ & Hrow & Hseq & _).
  exists w'. split; [exact E|]. rewrite Hrow, Hseq. split; reflexivity.
Defined.

(** X10.  With [event_webhooks] a dictionary or missing, [emit_event]
    returns whatever fails, and it saves all of the event or nothing:
    from a state with no uncommitted change, the committed outbox
    afterwards is the one before, or the one before followed by the new
    row, and the other two tables are as before.  An [event_webhooks] of
    another type makes it raise when the store answers, and nothing is
    saved then either. *)
Theorem emit_event_saves_all_or_nothing :
  forall cfg pol ty src payload w,
    w_txn w = w_saved w ->
    exists r w',
      Outbox.emit_event cfg pol ty src payload w = (r, w')
      /\ (webhooks_shape_ok pol = true -> r = Ok tt)
      /\ (r = Ok tt \/ r = Exn AttributeError /\ w_saved w' = w_saved w)
      /\ (hermes_event_outbox (w_saved w') = hermes_event_outbox (w_saved w)
          \/ hermes_event_outbox (w_saved w')
             = hermes_event_outbox (w_saved w)
               ++ [emitted_row cfg (webhooks_dict pol) ty src payload
                     (w_outbox_seq w + 1) (w_clock w)])
      /\ hermes_sessions (w_saved w') = hermes_sessions (w_saved w)
      /\ hermes_audit_log (w_saved w') = hermes_audit_log (w_saved w).
Proof.
  intros cfg pol ty src payload w Hclean.
  destruct (get_pg_outcome w) as (b & w1 & E & _ & Hs & Hk & Ht & Hq).
  specialize (Ht Hclean).
  unfold Outbox.emit_event, mbind at 1, M_bind at 1. rewrite E, webhooks_of_shape.
  destruct b; cbn [negb].
  - rewrite <- Hs, <- Hk, <- Hq. clear E Hs Hk Hq Hclean.
    destruct (webhooks_shape_ok pol).
    + destruct w1 as [c sv tx clk fs u j l p sq]. simpl in *. subst tx.
      unfold try_except, pg_cursor, pg_now, pg_execute_serial, fallible, get.
      unfold mbind, M_bind, Outbox.add_event.
      destruct fs as [|[|] [|[|] [|[|] [|[|] fs]]]]; cbn;
        try (eexists _, _; split; [reflexivity|]; cbn; auto 10; fail);
        destruct (existsb _ sv.(hermes_event_outbox)); cbn;
        try (destruct fs as [|[|] fs]; cbn);
        eexists _, _; (split; [reflexivity|]); cbn; auto 10.
    + eexists _, _. split; [reflexivity|]. cbn.
      split; [discriminate|]. auto 10.
  - eexists _, _. split; [reflexivity|]. cbn. rewrite Hs. auto 10.
Qed.

Lemma emit_event_saves_all_or_nothing_witness :
  exists r w',
    Outbox.emit_event Scenario.cfg empty_policy "task.created" "agent-a" "{}"
      Scenario.world_down = (r, w')
    /\ r = Ok tt
    /\ (hermes_event_outbox (w_saved w') = []
        \/ hermes_event_outbox (w_saved w')
           = [] ++ [emitted_row Scenario.cfg ∅ "task.created" "agent-a" "{}" 1 1000]).
Proof.
  destruct (emit_event_saves_all_or_nothing Scenario.cfg empty_policy "task.created"
              "agent-a" "{}" Scenario.world_down eq_refl) as (r & w' & E & Hr & _ & H & _).
  exists r, w'. split; [exact E|]. split; [exact (Hr eq_refl) | exact H].
Defined.

End StoreExtras.

(** * Further properties of the drain worker *)

Section DrainExtras.
Import Drain.

#[local] Instance older_trans : Transitive older.
Proof.
  intros a b c. unfold older. rewrite !Is_true_true, !Qle_bool_iff.
  apply Qle_trans.
Qed.

#[local] Instance older_total : Total older.
Proof.
  intros a b. unfold older. rewrite !Is_true_true, !Qle_bool_iff.
  destruct (Qlt_le_dec (o_created_at a) (o_created_at b)) as [H|H]; [left|right]; auto.
  apply Qlt_le_weak, H.
Qed.

Lemma older_spec a b : older a b <-> (o_created_at a <= o_created_at b)%Q.
Proof. unfold older. rewrite Is_true_true. apply Qle_bool_iff. Qed.

Lemma strongly_sorted_impl {A} (R R' : A -> A -> Prop) l :
  (forall a b, R a b -> R' a b) -> StronglySorted R l -> StronglySorted R' l.
Proof.
  intros Himp. induction 1 as [|a l Hs IH Hall]; constructor; auto.
  eapply List.Forall_impl; [|exact Hall]. intros b. apply Himp.
Qed.

Lemma sorted_eligible_In table y :
  In y table -> eligible y = true ->
  In y (merge_sort older (List.filter eligible table)).
Proof.
  intros Hy He.
  eapply Permutation_in; [symmetry; apply (merge_sort_Permutation older)|].
  apply filter_In. auto.
Qed.

(** X11.  The batch that a pass works on is the oldest page of the
    deliverable rows: at most twenty rows, each a pending row of the table
    with fewer than five attempts, in order of creation; a deliverable row
    left out is no older than any row taken, and none is left out when
    there are at most twenty. *)
Theorem batch_is_oldest_eligible_page :
  forall table,
    (length (select_batch table) <= BATCH_SIZE)%nat
    /\ (forall x, In x (select_batch table) ->
          In x table /\ o_status x = pending /\ o_attempts x < MAX_ATTEMPTS)
    /\ StronglySorted (fun a b => (o_created_at a <= o_created_at b)%Q) (select_batch table)
    /\ (forall x y, In x (select_batch table) ->
          In y table -> eligible y = true -> ~ In y (select_batch table) ->
          (o_created_at x <= o_created_at y)%Q)
    /\ ((length (List.filter eligible table) <= BATCH_SIZE)%nat ->
        forall y, In y table -> eligible y = true -> In y (select_batch table)).
Proof.
  intros table.
  pose proof (StronglySorted_merge_sort older (List.filter eligible table)) as Hs.
  pose proof (take_drop BATCH_SIZE (merge_sort older (List.filter eligible table))) as Hsplit.
  split; [unfold select_batch; rewrite length_take; lia|].
  split.
  { intros x Hx. destruct (select_batch_In table x Hx) as [Hin He].
    apply eligible_spec in He. tauto. }
  split.
  { unfold select_batch. rewrite <- Hsplit in Hs. apply StronglySorted_app_1_l in Hs.
    apply (strongly_sorted_impl older); [intros a b; apply older_spec | exact Hs]. }
  split.
  { intros x y Hx Hy He Hout. apply older_spec.
    pose proof (sorted_eligible_In table y Hy He) as Hy'.
    rewrite <- Hsplit in Hy', Hs. apply in_app_or in Hy' as [Hy'|Hy']; [contradiction|].
    apply (StronglySorted_app_1_elem_of _ _ _ _ _ Hs); apply list_elem_of_In; assumption. }
  intros Hlen y Hy He. unfold select_batch. rewrite take_ge.
  - apply sorted_eligible_In; assumption.
  - rewrite (Permutation_length (merge_sort_Permutation older _)). exact Hlen.
Qed.

Lemma batch_is_oldest_eligible_page_witness :
  In (Scenario.event 3 pending 0 30) (select_batch Scenario.mixed_events).
Proof.
  apply (proj2 (proj2 (proj2 (proj2 (batch_is_oldest_eligible_page Scenario.mixed_events))))).
  - vm_compute. lia.
  - right. right. left. reflexivity.
  - reflexivity.
Defined.

Lemma kept_refl r : kept r r.
Proof. unfold kept, same_event. repeat split; lia. Qed.

Lemma kept_trans a b c : kept a b -> kept b c -> kept a c.
Proof.
  unfold kept, same_event.
  intros ((?&?&?&?&?&?)&?) ((?&?&?&?&?&?)&?). repeat split; try congruence; lia.
Qed.

Lemma kept_outcome post now row x : kept x (outcome post now row x).
Proof.
  unfold outcome.
  destruct (post row) as [c| |t]; [destruct (c <? 400)%Z| |];
    unfold kept, same_event; simpl; repeat split; lia.
Qed.

Lemma kept_sweep_row x : kept x (sweep_row x).
Proof.
  unfold sweep_row. destruct (_ && _); [|apply kept_refl].
  unfold kept, same_event; simpl; repeat split; lia.
Qed.

Lemma kept_row_after post now tried : forall x, kept x (row_after post now tried x).
Proof.
  unfold row_after. induction tried as [|row tried IH]; intros x; simpl; [apply kept_refl|].
  eapply kept_trans; [|apply IH].
  destruct (o_id x =? o_id row)%Z; [apply kept_outcome | apply kept_refl].
Qed.

Lemma Forall2_kept_trans t1 t2 : Forall2 kept t1 t2 ->
  forall t3, Forall2 kept t2 t3 -> Forall2 kept t1 t3.
Proof.
  induction 1 as [|a b l1 l2 Hab H IH]; intros t3 H3; inversion H3; subst; constructor.
  - eapply kept_trans; eassumption.
  - apply IH; assumption.
Qed.

Lemma drain_cycle_kept post now table :
  Forall2 kept table (fst (drain_cycle post now table)).
Proof.
  unfold drain_cycle. destruct (select_batch table) as [|row rows].
  - simpl.
    pose proof (Forall2_map_self kept (fun x => x) table (fun x _ => kept_refl x)) as H.
    rewrite List.map_id in H. exact H.
  - rewrite deliver_tried, fold_update_map. unfold sweep. simpl. rewrite List.map_map.
    apply Forall2_map_self. intros x _.
    eapply kept_trans; [apply kept_row_after | apply kept_sweep_row].
Qed.

(** X12.  Over any number of passes and whatever the POSTs answer, the
    worker rewrites nothing but the delivery state: the table keeps its
    rows in place, each with its id, event type, source, payload, webhook
    URL and creation time, and the attempt count of a row never goes down. *)
Theorem drain_keeps_the_events :
  forall passes table,
    Forall2 kept table (fst (drain_cycles passes table))
    /\ length (fst (drain_cycles passes table)) = length table.
Proof.
  assert (H : forall passes table, Forall2 kept table (fst (drain_cycles passes table))).
  { induction passes as [|[post now] passes IH]; intros table; simpl.
    - pose proof (Forall2_map_self kept (fun x => x) table (fun x _ => kept_refl x)) as H.
      rewrite List.map_id in H. exact H.
    - pose proof (drain_cycle_kept post now table) as H1.
      destruct (drain_cycle post now table) as [t1 tried]. simpl in H1.
      specialize (IH t1). destruct (drain_cycles passes t1) as [t2 tried']. simpl in *.
      eapply Forall2_kept_trans; eassumption. }
  intros passes table. split; [apply H|].
  symmetry. eapply Forall2_length, H.
Qed.

Lemma cycle_row_settled post now table x :
  List.NoDup (List.map o_id table) -> In x table -> o_status x <> pending ->
  cycle_row post now table x = x.
Proof.
  intros Hnd Hx Hs. unfold cycle_row.
  destruct (select_batch table) as [|row rows] eqn:E; [reflexivity|]. rewrite <- E.
  destruct (was_tried _ x) eqn:Ht.
  - destruct (tried_was_eligible post table x Hnd Hx Ht) as [_ He].
    apply eligible_spec in He. tauto.
  - unfold sweep_row. destruct (bool_decide_reflect (o_status x = pending)); [contradiction|].
    reflexivity.
Qed.

(** X13.  A row that is delivered or failed is final: with unique ids,
    over any number of passes and whatever the POSTs answer, the row stays
    in the table exactly as it is, with its attempt count, last error and
    delivery time, and it is never POSTed again. *)
Theorem settled_rows_are_frozen :
  forall passes table x,
    List.NoDup (List.map o_id table) -> In x table -> o_status x <> pending ->
    In x (fst (drain_cycles passes table))
    /\ ~ In (o_id x) (snd (drain_cycles passes table)).
Proof.
  induction passes as [|[post now] passes IH]; intros table x Hnd Hx Hs; simpl; [tauto|].
  rewrite (drain_cycle_rows post now table Hnd).
  assert (Hx1 : In x (List.map (cycle_row post now table) table)).
  { rewrite <- (cycle_row_settled post now table x Hnd Hx Hs) at 1. apply in_map, Hx. }
  assert (Hnd1 : List.NoDup (List.map o_id (List.map (cycle_row post now table) table)))
    by (rewrite cycle_ids; exact Hnd).
  destruct (IH _ x Hnd1 Hx1 Hs) as [Hin Hout].
  destruct (drain_cycles passes _) as [t2 tried2]. simpl in *.
  split; [exact Hin|]. intros [H|H]%in_app_or; [|contradiction].
  destruct (cycle_row_tried post now table x Hnd Hx H) as (He & _).
  apply eligible_spec in He. tauto.
Qed.

Lemma settled_rows_are_frozen_witness :
  In Scenario.last_try_after
     (fst (drain_cycles [(Scenario.rejecting, 200%Q); (Scenario.unreachable, 300%Q)]
             [Scenario.last_try_after; Scenario.event 3 pending 0 30]))
  /\ ~ In 2 (snd (drain_cycles [(Scenario.rejecting, 200%Q); (Scenario.unreachable, 300%Q)]
                    [Scenario.last_try_after; Scenario.event 3 pending 0 30])).
Proof.
  apply (settled_rows_are_frozen
           [(Scenario.rejecting, 200%Q); (Scenario.unreachable, 300%Q)]
           [Scenario.last_try_after; Scenario.event 3 pending 0 30]
           Scenario.last_try_after).
  - repeat constructor; simpl; intuition discriminate.
  - left. reflexivity.
  - discriminate.
Defined.

Lemma no_eligible_no_batch table :
  (forall x, In x table -> eligible x = false) -> select_batch table = [].
Proof.
  intros H. unfold select_batch.
  assert (E : List.filter eligible table = []).
  { induction table as [|r table IH]; [reflexivity|]. simpl.
    rewrite (H r (or_introl eq_refl)). apply IH. intros x Hx. apply H. right. exact Hx. }
  rewrite E. reflexivity.
Qed.

(** X14.  When no row is deliverable (none is pending with fewer than
    five attempts), the worker does nothing at all, for any number of
    passes: no POST, and the table is returned as it was.  In particular
    the closing UPDATE that marks exhausted rows as failed is not run, so
    a pending row that already has five attempts stays pending. *)
Theorem idle_passes_change_nothing :
  forall passes table,
    (forall x, In x table -> eligible x = false) ->
    drain_cycles passes table = (table, []).
Proof.
  induction passes as [|[post now] passes IH]; intros table H; simpl; [reflexivity|].
  unfold drain_cycle. rewrite (no_eligible_no_batch table H), (IH table H). reflexivity.
Qed.

Lemma idle_passes_change_nothing_witness :
  List.map o_status
    (fst (drain_cycles [(Scenario.rejecting, 200%Q); (Scenario.rejecting, 205%Q)]
            [Scenario.event 1 delivered 0 10; Scenario.event 2 pending 5 20]))
  = [delivered; pending].
Proof.
  rewrite (idle_passes_change_nothing
             [(Scenario.rejecting, 200%Q); (Scenario.rejecting, 205%Q)]
             [Scenario.event 1 delivered 0 10; Scenario.event 2 pending 5 20]).
  - reflexivity.
  - intros x [<-|[<-|[]]]; reflexivity.
Defined.

Lemma tried_rows_all post rows :
  (forall x, In x rows -> post x <> ConnectError) -> tried_rows post rows = rows.
Proof.
  induction rows as [|r rows IH]; intros H; [reflexivity|]. simpl.
  pose proof (H r (or_introl eq_refl)) as Hr.
  rewrite IH by (intros x Hx; apply H; right; exact Hx).
  destruct (post r); congruence.
Qed.

(** X15.  A pass that meets no connection failure POSTs every row of its
    batch, once each and in batch order, and each row is rewritten by its
    own answer alone: a status below 400 leaves it delivered at the time
    of the pass with its attempt count untouched; any other answer counts
    one attempt and records the error. *)
Theorem batch_without_connect_error_is_worked_through :
  forall post now table,
    List.NoDup (List.map o_id table) ->
    (forall x, In x (select_batch table) -> post x <> ConnectError) ->
    snd (drain_cycle post now table) = List.map o_id (select_batch table)
    /\ (forall x, In x (select_batch table) ->
          In (sweep_row (outcome post now x x)) (fst (drain_cycle post now table)))
    /\ (forall x c, In x (select_batch table) -> post x = Response c -> c < 400 ->
          In (with_delivery now x) (fst (drain_cycle post now table)))
    /\ (forall x c, In x (select_batch table) -> post x = Response c -> 400 <= c ->
          In (sweep_row (with_failure ("HTTP " ++ pretty c) x))
             (fst (drain_cycle post now table))).
Proof.
  intros post now table Hnd Hok.
  rewrite (drain_cycle_rows post now table Hnd), (tried_rows_all post _ Hok). simpl.
  assert (Hrow : forall x, In x (select_batch table) ->
            In (sweep_row (outcome post now x x))
               (List.map (cycle_row post now table) table)).
  { intros x Hx. destruct (select_batch_In table x Hx) as [Hxt _].
    assert (Hid : In (o_id x) (List.map o_id (tried_rows post (select_batch table))))
      by (rewrite (tried_rows_all post _ Hok); apply in_map, Hx).
    destruct (cycle_row_tried post now table x Hnd Hxt Hid) as (_ & _ & <-).
    apply in_map, Hxt. }
  split; [reflexivity|]. split; [exact Hrow|]. split.
  - intros x c Hx Hp Hc. specialize (Hrow x Hx). unfold outcome in Hrow. rewrite Hp in Hrow.
    destruct (Z.ltb_spec c 400); [exact Hrow | lia].
  - intros x c Hx Hp Hc. specialize (Hrow x Hx). unfold outcome in Hrow. rewrite Hp in Hrow.
    destruct (Z.ltb_spec c 400); [lia | exact Hrow].
Qed.

Lemma batch_without_connect_error_is_worked_through_witness :
  snd (drain_cycle Scenario.rejecting 100 Scenario.mixed_events) = [2; 3].
Proof.
  rewrite (proj1 (batch_without_connect_error_is_worked_through
                    Scenario.rejecting 100 Scenario.mixed_events
                    ltac:(repeat constructor; simpl; intuition discriminate)
                    ltac:(discriminate))).
  reflexivity.
Defined.

Lemma tries_left_sweep x : (tries_left (sweep_row x) <= tries_left x)%nat.
Proof.
  unfold sweep_row. destruct (_ && _); [|lia]. unfold tries_left. simpl. lia.
Qed.

Lemma tries_left_tried post now x :
  eligible x = true ->
  (S (tries_left (sweep_row (outcome post now x x))) <= tries_left x)%nat.
Proof.
  intros [Hs Ha]%eligible_spec. unfold MAX_ATTEMPTS in *.
  assert (Hfail : forall err,
            (S (tries_left (sweep_row (with_failure err x))) <= tries_left x)%nat).
  { intros err. unfold sweep_row, tries_left, MAX_ATTEMPTS. simpl. rewrite Hs. simpl.
    destruct (Z.geb_spec (o_attempts x + 1) 5); simpl; rewrite ?Hs; lia. }
  unfold outcome. destruct (post x) as [c| |t]; [destruct (c <? 400)%Z| |]; try apply Hfail.
  unfold sweep_row, tries_left, MAX_ATTEMPTS. simpl. rewrite Hs. lia.
Qed.

Lemma count_occ_le_1 (l : list Z) a : List.NoDup l -> (count_occ Z.eq_dec l a <= 1)%nat.
Proof. intros H. apply (proj1 (NoDup_count_occ Z.eq_dec l) H). Qed.

Lemma count_occ_0 (l : list Z) a : ~ In a l -> count_occ Z.eq_dec l a = 0%nat.
Proof. apply count_occ_not_In. Qed.

(** X16.  The retry budget holds over the whole life of a row: with
    unique ids, over any number of passes and whatever the POSTs answer,
    a row is POSTed at most as often as it has attempts left below five,
    and never once it is delivered or failed; a row that starts with no
    attempt is POSTed at most five times. *)
Theorem row_is_posted_within_its_budget :
  forall passes table x,
    List.NoDup (List.map o_id table) -> In x table ->
    (count_occ Z.eq_dec (snd (drain_cycles passes table)) (o_id x) <= tries_left x)%nat
    /\ (0 <= o_attempts x -> (tries_left x <= 5)%nat).
Proof.
  intros passes table x Hnd Hx. split.
  2:{ intros Ha. unfold tries_left, MAX_ATTEMPTS. destruct (o_status x); lia. }
  revert table x Hnd Hx.
  induction passes as [|[post now] passes IH]; intros table x Hnd Hx; simpl; [lia|].
  rewrite (drain_cycle_rows post now table Hnd).
  assert (Hx1 : In (cycle_row post now table x) (List.map (cycle_row post now table) table))
    by (apply in_map, Hx).
  assert (Hnd1 : List.NoDup (List.map o_id (List.map (cycle_row post now table) table)))
    by (rewrite cycle_ids; exact Hnd).
  specialize (IH _ _ Hnd1 Hx1). rewrite cycle_row_id in IH.
  destruct (drain_cycles passes _) as [t2 tried2]. simpl in *.
  rewrite count_occ_app.
  destruct (in_dec Z.eq_dec (o_id x) (List.map o_id (tried_rows post (select_batch table))))
    as [Hin|Hout].
  - destruct (cycle_row_tried post now table x Hnd Hx Hin) as (He & _ & Hrow).
    rewrite Hrow in IH.
    pose proof (tries_left_tried post now x He).
    pose proof (count_occ_le_1 _ (o_id x)
                  (tried_rows_NoDup post _ (select_batch_NoDup table Hnd))).
    lia.
  - rewrite (count_occ_0 _ _ Hout).
    assert (Hle : (tries_left (cycle_row post now table x) <= tries_left x)%nat).
    { unfold cycle_row. destruct (select_batch table) as [|row rows] eqn:E; [lia|].
      rewrite <- E. rewrite <- E in Hout.
      destruct (was_tried _ x) eqn:Ht; [apply was_tried_spec in Ht; contradiction|].
      apply tries_left_sweep. }
    lia.
Qed.

Lemma row_is_posted_within_its_budget_witness :
  (count_occ Z.eq_dec
     (snd (drain_cycles [(Scenario.rejecting, 100%Q); (Scenario.rejecting, 105%Q)]
             Scenario.mixed_events)) 2%Z <= 1)%nat.
Proof.
  apply (proj1 (row_is_posted_within_its_budget
                  [(Scenario.rejecting, 100%Q); (Scenario.rejecting, 105%Q)]
                  Scenario.mixed_events Scenario.last_try
                  ltac:(repeat constructor; simpl; intuition discriminate)
                  ltac:(right; left; reflexivity))).
Defined.

End DrainExtras.

(** * Further properties of the session tracker *)

Section SessionExtras.
Import Eff Spec Store Session Invoke.

Lemma app_cons c (s t : string) : (String c s ++ t)%string = String c (s ++ t)%string.
Proof. reflexivity. Qed.

Lemma app_nil (t : string) : (EmptyString ++ t)%string = t.
Proof. reflexivity. Qed.

Lemma string_app_assoc (a b c : string) :
  ((a ++ b) ++ c)%string = (a ++ (b ++ c))%string.
Proof.
  induction a as [|x a IH]; [reflexivity|]. rewrite !app_cons, IH. reflexivity.
Qed.

Lemma string_app_inv_head (a b c : string) :
  (a ++ b)%string = (a ++ c)%string -> b = c.
Proof.
  induction a as [|x a IH]; [rewrite !app_nil; auto|].
  rewrite !app_cons. intros H. injection H as H. auto.
Qed.

Lemma hyphen_split (a a' r r' : string) :
  Py.contains_char "-" a = false -> Py.contains_char "-" a' = false ->
  (a ++ String "-" r)%string = (a' ++ String "-" r')%string -> a = a' /\ r = r'.
Proof.
  revert a'. induction a as [|x a IH]; intros [|x' a'] Ha Ha'; rewrite ?app_cons, ?app_nil.
  - intros H. injection H as H. auto.
  - intros H. injection H as Hx _. subst x'. simpl in Ha'. discriminate.
  - intros H. injection H as Hx _. subst x. simpl in Ha. discriminate.
  - intros H. injection H as Hx H. subst x'. simpl in Ha, Ha'.
    apply orb_false_iff in Ha as [_ Ha]. apply orb_false_iff in Ha' as [_ Ha'].
    destruct (IH a' Ha Ha' H) as [-> ->]. auto.
Qed.

(** X17.  The session id is the caller, the target and the purpose
    joined by hyphens, so it identifies the three only while caller and
    target contain no hyphen: then equal ids mean equal caller, target and
    purpose, whereas moving a hyphenated part from the caller to the
    target gives the same id, and with it the same stored conversation. *)
Theorem session_id_identifies_hyphen_free_names :
  (forall c t p c' t' p',
      Py.contains_char "-" c = false -> Py.contains_char "-" t = false ->
      Py.contains_char "-" c' = false -> Py.contains_char "-" t' = false ->
      session_key c t p = session_key c' t' p' -> c = c' /\ t = t' /\ p = p')
  /\ (forall a b t p,
      session_key (a ++ "-" ++ b) t p = session_key a (b ++ "-" ++ t) p).
Proof.
  split.
  - intros c t p c' t' p' Hc Ht Hc' Ht' H. unfold session_key in H.
    apply (string_app_inv_head "hermes-") in H.
    apply hyphen_split in H as [-> H]; [|assumption..].
    apply hyphen_split in H as [-> ->]; auto.
  - intros a b t p. unfold session_key. f_equal.
    rewrite !string_app_assoc. reflexivity.
Qed.

Lemma session_id_identifies_hyphen_free_names_witness :
  "agent_a" = "agent_a" /\ "main" = "main" /\ "general" = "general".
Proof.
  apply (proj1 session_id_identifies_hyphen_free_names
           "agent_a" "main" "general" "agent_a" "main" "general");
    reflexivity.
Defined.

Lemma find_session_id sid d r : find_session sid d = Some r -> s_id r = sid.
Proof.
  unfold find_session. intros H. apply List.find_some in H as [_ H].
  apply String.eqb_eq, H.
Qed.

Lemma resolve_step caller_id target session_type purpose w sid0 r0 :
  healthy w -> find_session sid0 (w_saved w) = Some r0 ->
  healthy (snd (get_or_create_session caller_id target session_type purpose w))
  /\ find_session sid0
       (w_saved (snd (get_or_create_session caller_id target session_type purpose w)))
     = Some (if String.eqb (session_key caller_id target purpose) sid0
             then touched (w_clock w) r0 else r0).
Proof.
  intros H E0. pose proof (find_session_id _ _ _ E0) as Hid. subst sid0.
  unfold get_or_create_session.
  set (sid := session_key caller_id target purpose) in *. clearbody sid.
  remember (String.eqb sid (s_id r0)) as b eqn:Hb.
  unfold mbind at 1, M_bind at 1.
  rewrite (get_pg_healthy w H).
  destruct w as [c sv tx clk fs u j l p sq]. destruct H as (Hc & Hf & Ht). simpl in *. subst c fs tx.
  unfold try_except, pg_cursor, pg_query, pg_execute, pg_commit, fallible, pg_now,
    mbind, M_bind, get, put, modify, uuid4. simpl.
  destruct (find_session sid sv) as [r|] eqn:E; simpl.
  - split; [repeat split|].
    pose proof (find_session_touch (s_id r0) sid clk sv) as Ft. simpl in Ft.
    rewrite Ft, E0. f_equal. rewrite (String.eqb_sym (s_id r0)), <- Hb. reflexivity.
  - assert (Hne : b = false).
    { rewrite Hb. destruct (String.eqb_spec sid (s_id r0)) as [Heq|]; [|reflexivity].
      rewrite Heq in E. congruence. }
    rewrite Hne.
    destruct (String.eqb session_type "claude"); simpl;
      unfold insert_session; rewrite E; simpl;
      (split; [repeat split|]); destruct sv as [ss al ob]; simpl;
      unfold with_sessions; simpl; rewrite find_session_app, E0; reflexivity.
Qed.

Lemma resolves_of_cons sid c t ty p qs :
  resolves_of sid ((c, t, ty, p) :: qs)
  = ((if String.eqb (session_key c t p) sid then 1 else 0) + resolves_of sid qs)%nat.
Proof.
  unfold resolves_of. cbn [List.filter].
  destruct (String.eqb (session_key c t p) sid); reflexivity.
Qed.

(** X18.  On a store that answers, resolving never rewrites what a
    session is: after any series of resolves an existing row has the same
    id, caller, target, session type, conversation handle and creation
    time, whatever session type the resolves name, and its message count
    has grown by exactly the number of resolves that address its id. *)
Theorem resolves_only_count_messages :
  forall qs w sid r,
    healthy w -> find_session sid (w_saved w) = Some r ->
    exists r',
      find_session sid (w_saved (resolve_all qs w)) = Some r'
      /\ same_session r r'
      /\ s_message_count r' = s_message_count r + Z.of_nat (resolves_of sid qs).
Proof.
  induction qs as [|[[[c t] ty] p] qs IH]; intros w sid r H E.
    - exists r. split; [exact E|]. split; [repeat split|]. unfold resolves_of. simpl. lia.
  - destruct (resolve_step c t ty p w sid r H E) as [H1 E1].
    unfold resolve_all in *. simpl fold_left.
    destruct (IH _ sid _ H1 E1) as (r' & E' & Hs & Hc).
    exists r'. split; [exact E'|]. rewrite resolves_of_cons.
    destruct (String.eqb (session_key c t p) sid).
    + split; [unfold same_session, touched in *; simpl in Hs; tauto|].
      rewrite Hc. unfold touched. simpl s_message_count. lia.
    + split; [exact Hs|]. rewrite Hc. lia.
Qed.

Lemma resolves_only_count_messages_witness :
  exists r',
    find_session "hermes-agent-a-claude-general"
      (w_saved (resolve_all [("agent-a", "claude", "agent", "general");
                             ("agent-b", "main", "agent", "general");
                             ("agent-a", "claude", "claude", "general")]
                  Scenario.world_resolved)) = Some r'
    /\ s_session_type r' = "claude"
    /\ s_message_count r' = 2.
Proof.
  destruct (resolves_only_count_messages
              [("agent-a", "claude", "agent", "general");
               ("agent-b", "main", "agent", "general");
               ("agent-a", "claude", "claude", "general")]
              Scenario.world_resolved "hermes-agent-a-claude-general"
              {| s_id := "hermes-agent-a-claude-general"; s_caller_id := "agent-a";
                 s_target := "claude"; s_session_type := "claude";
                 s_claude_session_id := Some "uuid4-0"; s_created_at := 1000;
                 s_last_used := 1000; s_message_count := 0 |}
              ltac:(repeat split) eq_refl) as (r' & E & Hs & Hc).
  exists r'. split; [exact E|]. split; [apply Hs | exact Hc].
Defined.

End SessionExtras.

(** * Further properties of the subprocess runners *)

Section InvokeExtras.
Import Eff Spec Store Session Invoke.

Lemma finish_last_snoc rc ps cmd st :
  finish_last rc (ps ++ [(cmd, st)]) = ps ++ [(cmd, Finished rc)].
Proof.
  unfold finish_last. rewrite rev_unit. simpl. rewrite rev_involutive. reflexivity.
Qed.

Lemma take_le n s : (String.length (Py.take n s) <= n)%nat.
Proof.
  revert s. induction n as [|n IH]; intros [|c s]; simpl; try lia.
  specialize (IH s). lia.
Qed.

Ltac tidy :=
  cbn -[CLI.agent_response CLI.claude_response Py.strip Py.take pretty String.append
        String.length].

Ltac run_invoke :=
  unfold try_except, create_subprocess_exec, communicate, decode, lift, log, modify,
    raise, mbind, M_bind, mret, M_ret;
  tidy.

Lemma invoke_agent_outcome cfg target_agent message sid run w :
  exists r l,
    invoke_agent cfg target_agent message sid run w
    = (Ok r, set_log l (set_procs (procs_after (agent_cmd cfg target_agent message sid)
                                     run (w_procs w)) w))
    /\ (agent_response r = None <-> agent_error r <> None)
    /\ (forall rc out err, run = Exits rc out (Ok err) -> rc <> 0 ->
          r = {| agent_response := None;
                 agent_error := Some (ErrText (Py.take 500 (Py.strip err))) |})
    /\ (run = Hangs ->
          r = {| agent_response := None;
                 agent_error :=
                   Some (ErrText ("Timeout after " ++ pretty (AGENT_TIMEOUT cfg) ++ "s")) |})
    /\ (forall v, agent_response r = Some v ->
          exists out err, run = Exits 0 (Ok out) err
                          /\ CLI.agent_response (Py.strip out) = Ok v)
    /\ (forall out err v, run = Exits 0 (Ok out) err ->
          CLI.agent_response (Py.strip out) = Ok v ->
          r = {| agent_response := Some v; agent_error := None |}).
Proof.
  pose proof (finish_last_snoc) as Hfin.
  unfold invoke_agent. generalize (agent_cmd cfg target_agent message sid). intros cmd.
  destruct w as [c sv tx clk fs u j lg p sq].
  destruct run as [e|rc out err|].
  - destruct e; run_invoke;
      (eexists; eexists; split; [reflexivity|]; tidy;
       repeat split; try congruence; try discriminate).
  - destruct (Z.eqb_spec rc 0) as [->|Hrc].
    + destruct out as [out|e].
      * destruct (CLI.agent_response (Py.strip out)) as [v|e] eqn:Ev.
        -- run_invoke. rewrite Ev. run_invoke. rewrite Hfin.
           eexists; eexists; split; [reflexivity|]. tidy.
           repeat split; try congruence; try discriminate.
           intros v' Hv. injection Hv as <-. exists out, err. auto.
        -- run_invoke. rewrite Ev. run_invoke.
           destruct e; run_invoke; rewrite Hfin;
             (eexists; eexists; split; [reflexivity|]; tidy;
              repeat split; try congruence; try discriminate).
      * run_invoke.
        destruct e; run_invoke; rewrite Hfin;
          (eexists; eexists; split; [reflexivity|]; tidy;
           repeat split; try congruence; try discriminate).
    + assert (Hb : (rc =? 0)%Z = false) by (apply Z.eqb_neq; exact Hrc).
      destruct err as [err|e].
      * run_invoke. rewrite Hb. run_invoke. rewrite Hfin.
        eexists; eexists; split; [reflexivity|]. tidy.
        repeat split; try congruence; try discriminate.
      * run_invoke. rewrite Hb. run_invoke.
        destruct e; run_invoke; rewrite Hfin;
          (eexists; eexists; split; [reflexivity|]; tidy;
           repeat split; try congruence; try discriminate).
  - run_invoke.
    eexists; eexists; split; [reflexivity|]. tidy.
    repeat split; try congruence; try discriminate.
Qed.

(** X19.  [invoke_agent] turns every run into a result and never raises.
    The result is either an error result, with no response and an error
    text, or it carries no error and the value recovered from the stdout
    of a run that exited with code 0.  The store is not touched; the
    process table gains the one process of this command, or nothing when
    it could not be started.  A non-zero exit is reported by the stripped
    text of stderr cut to 500 characters, whatever was printed on stdout,
    and a run that outlives the timeout by the timeout message. *)
Theorem invoke_agent_reports_every_run :
  forall cfg target_agent message sid run w,
    exists r w',
      invoke_agent cfg target_agent message sid run w = (Ok r, w')
      /\ (agent_response r = None <-> agent_error r <> None)
      /\ w_saved w' = w_saved w /\ w_txn w' = w_txn w /\ w_conn w' = w_conn w
      /\ w_procs w' = procs_after (agent_cmd cfg target_agent message sid) run (w_procs w)
      /\ (forall rc out err, run = Exits rc out (Ok err) -> rc <> 0 ->
            r = {| agent_response := None;
                   agent_error := Some (ErrText (Py.take 500 (Py.strip err))) |}
            /\ (String.length (Py.take 500 (Py.strip err)) <= 500)%nat)
      /\ (run = Hangs ->
            r = {| agent_response := None;
                   agent_error :=
                     Some (ErrText ("Timeout after " ++ pretty (AGENT_TIMEOUT cfg) ++ "s")) |})
      /\ (forall v, agent_response r = Some v ->
            exists out err, run = Exits 0 (Ok out) err
                            /\ CLI.agent_response (Py.strip out) = Ok v).
Proof.
  intros cfg target_agent message sid run w.
  destruct (invoke_agent_outcome cfg target_agent message sid run w)
    as (r & l & E & Hx & Hrc & Hh & Hv & _).
  eexists r, _. split; [exact E|]. split; [exact Hx|].
  split; [reflexivity|]. split; [reflexivity|]. split; [reflexivity|].
  split; [reflexivity|]. split; [|split; [exact Hh | exact Hv]].
  intros rc out err Hrun Hne. split; [apply (Hrc rc out err Hrun Hne) | apply take_le].
Qed.

Lemma invoke_claude_after_handle cfg message sid resume run w h w1 :
  conversation_handle sid w = (Ok h, w1) ->
  exists r w',
    invoke_claude cfg message sid resume run w = (Ok r, w')
    /\ session_id r = h
    /\ (response r = None <-> error r <> None)
    /\ (response r = None -> cost_usd r = JFloat "0.0")
    /\ w_saved w' = w_saved w1 /\ w_txn w' = w_txn w1 /\ w_conn w' = w_conn w1
    /\ w_procs w' = procs_after (claude_cmd cfg h message resume) run (w_procs w1)
    /\ (forall rc out err, run = Exits rc out (Ok err) -> rc <> 0 ->
          error r = Some (ErrText (Py.take 500 (Py.strip err))))
    /\ (forall t, response r = Some t ->
          exists out err, run = Exits 0 (Ok out) err
                          /\ CLI.claude_response (Py.strip out) = Ok (t, cost_usd r)).
Proof.
  intros E. pose proof (finish_last_snoc) as Hfin.
  unfold invoke_claude. unfold mbind at 1, M_bind at 1. rewrite E.
  generalize (claude_cmd cfg h message resume). intros cmd.
  destruct run as [e|rc out err|].
  - destruct e; run_invoke;
      (eexists; eexists; split; [reflexivity|]; tidy;
       repeat split; try congruence; try discriminate).
  - destruct (Z.eqb_spec rc 0) as [->|Hrc].
    + destruct out as [out|e].
      * destruct (CLI.claude_response (Py.strip out)) as [[t c]|e] eqn:Ev.
        -- run_invoke. rewrite Ev. run_invoke.
           eexists; eexists; split; [reflexivity|]. tidy. rewrite Hfin.
           repeat split; try congruence; try discriminate.
           intros t' Ht. injection Ht as <-. exists out, err. auto.
        -- run_invoke. rewrite Ev. run_invoke.
           destruct e; run_invoke;
             (eexists; eexists; split; [reflexivity|]; tidy; rewrite Hfin;
              repeat split; try congruence; try discriminate).
      * run_invoke.
        destruct e; run_invoke;
          (eexists; eexists; split; [reflexivity|]; tidy; rewrite Hfin;
           repeat split; try congruence; try discriminate).
    + assert (Hb : (rc =? 0)%Z = false) by (apply Z.eqb_neq; exact Hrc).
      destruct err as [err|e].
      * run_invoke. rewrite Hb. run_invoke.
        eexists; eexists; split; [reflexivity|]. tidy. rewrite Hfin.
        repeat split; try congruence; try discriminate.
      * run_invoke. rewrite Hb. run_invoke.
        destruct e; run_invoke;
          (eexists; eexists; split; [reflexivity|]; tidy; rewrite Hfin;
           repeat split; try congruence; try discriminate).
  - run_invoke.
    eexists; eexists; split; [reflexivity|]. tidy.
    repeat split; try congruence; try discriminate.
Qed.

(** X20.  [invoke_claude] turns every run into a result and never
    raises.  The session id of the result is the handle that was passed
    to the CLI; the result has a response or an error, never both and
    never neither, and an error comes with cost zero; apart from storing
    a new handle the store is not touched; the process table gains the one
    process of this command, or nothing when it could not be started.  A
    non-zero exit is reported by the stripped text of stderr cut to 500
    characters.  With [resume] the message is not passed on at all: two
    resumed calls that differ in the message only are the same call. *)
Theorem invoke_claude_reports_every_run :
  forall cfg message sid resume run w,
    exists h w1 r w',
      conversation_handle sid w = (Ok h, w1)
      /\ invoke_claude cfg message sid resume run w = (Ok r, w')
      /\ session_id r = h
      /\ (response r = None <-> error r <> None)
      /\ (response r = None -> cost_usd r = JFloat "0.0")
      /\ w_saved w' = w_saved w1 /\ w_txn w' = w_txn w1 /\ w_conn w' = w_conn w1
      /\ w_procs w' = procs_after (claude_cmd cfg h message resume) run (w_procs w1)
      /\ (forall rc out err, run = Exits rc out (Ok err) -> rc <> 0 ->
            error r = Some (ErrText (Py.take 500 (Py.strip err))))
      /\ (forall t, response r = Some t ->
            exists out err, run = Exits 0 (Ok out) err
                            /\ CLI.claude_response (Py.strip out) = Ok (t, cost_usd r))
      /\ (forall message2,
            invoke_claude cfg message2 sid true run w
            = invoke_claude cfg message sid true run w).
Proof.
  intros cfg message sid resume run w.
  destruct (yields_conversation_handle sid w) as (h & w1 & E & _).
  destruct (invoke_claude_after_handle cfg message sid resume run w h w1 E)
    as (r & w' & H).
  exists h, w1, r, w'. split; [exact E|].
  repeat (split; [apply H|]). reflexivity.
Qed.

Lemma mint_handle_healthy sid w :
  healthy w ->
  mint_handle sid w
  = (Ok (uuid_text (w_uuids w)),
     let d := default (w_saved w)
                (set_claude_session_id sid (uuid_text (w_uuids w)) (w_saved w)) in
     set_saved d (set_txn d (set_uuids (S (w_uuids w)) w))).
Proof.
  destruct w as [c sv tx clk fs u j l p sq]. intros (Hc & Hf & Ht). simpl in Hc, Hf, Ht. subst.
  reflexivity.
Qed.

Lemma find_session_set_handle sid0 sid h d :
  find_session sid0 (default d (set_claude_session_id sid h d))
  = match find_session sid0 d with
    | Some r => Some (if String.eqb (s_id r) sid then with_handle h r else r)
    | None => None
    end.
Proof.
  unfold find_session, set_claude_session_id. destruct d as [ss al ob]. simpl.
  induction ss as [|r ss IH]; simpl; [reflexivity|].
  destruct (String.eqb (s_id r) sid) eqn:E1; simpl;
    destruct (String.eqb (s_id r) sid0) eqn:E2; simpl; try rewrite E1; auto.
Qed.

Lemma set_handle_no_row sid h d :
  find_session sid d = None -> default d (set_claude_session_id sid h d) = d.
Proof.
  unfold find_session, set_claude_session_id, with_sessions.
  destruct d as [ss al ob]. simpl. intros H. f_equal.
  induction ss as [|r ss IH]; simpl in *; [reflexivity|].
  destruct (String.eqb (s_id r) sid); [discriminate|]. f_equal. apply IH, H.
Qed.

Lemma conversation_handle_mints sid w :
  healthy w ->
  match find_session sid (w_saved w) with
  | Some r => s_claude_session_id r = None \/ s_claude_session_id r = Some EmptyString
  | None => True
  end ->
  conversation_handle sid w = mint_handle sid w.
Proof.
  intros H Hr. unfold conversation_handle, mbind, M_bind.
  rewrite (get_claude_session_id_healthy sid w H).
  destruct (find_session sid (w_saved w)) as [r|]; [|reflexivity].
  destruct Hr as [-> | ->]; reflexivity.
Qed.

(** X21.  On a store that answers, a handle drawn at invocation time is
    kept exactly when the session row exists.  For a row without a handle
    (or with an empty one) the new handle is stored on that row, nothing
    else of the row changes, and the next invocation finds it there.  For
    a session id that has no row the UPDATE matches nothing: the tables
    stay as they are and the next invocation draws another handle,
    different from the first. *)
Theorem drawn_handle_is_kept_on_existing_row :
  forall sid w,
    healthy w ->
    (forall r,
        find_session sid (w_saved w) = Some r ->
        s_claude_session_id r = None \/ s_claude_session_id r = Some EmptyString ->
        exists w',
          conversation_handle sid w = (Ok (uuid_text (w_uuids w)), w')
          /\ healthy w'
          /\ find_session sid (w_saved w') = Some (with_handle (uuid_text (w_uuids w)) r)
          /\ conversation_handle sid w' = (Ok (uuid_text (w_uuids w)), w'))
    /\ (find_session sid (w_saved w) = None ->
        exists w' h2 w'',
          conversation_handle sid w = (Ok (uuid_text (w_uuids w)), w')
          /\ healthy w'
          /\ w_saved w' = w_saved w
          /\ conversation_handle sid w' = (Ok h2, w'')
          /\ h2 <> uuid_text (w_uuids w)).
Proof.
  intros sid w H. split.
  - intros r E Hr.
    rewrite (conversation_handle_mints sid w H) by (rewrite E; exact Hr).
    rewrite (mint_handle_healthy sid w H). eexists. split; [reflexivity|].
    assert (H' : healthy
              (let d := default (w_saved w)
                          (set_claude_session_id sid (uuid_text (w_uuids w)) (w_saved w)) in
               set_saved d (set_txn d (set_uuids (S (w_uuids w)) w)))).
    { destruct w as [c sv tx clk fs u j l p sq]. destruct H as (Hc & Hf & Ht).
      simpl in *. subst. repeat split. }
    split; [exact H'|].
    assert (Ef : find_session sid
              (default (w_saved w)
                 (set_claude_session_id sid (uuid_text (w_uuids w)) (w_saved w)))
            = Some (with_handle (uuid_text (w_uuids w)) r)).
    { rewrite find_session_set_handle, E.
      rewrite (find_session_id _ _ _ E), String.eqb_refl. reflexivity. }
    split; [exact Ef|].
    eapply conversation_handle_stored; [exact H' | exact Ef | reflexivity |].
    apply uuid_text_nonempty.
  - intros E.
    rewrite (conversation_handle_mints sid w H) by (rewrite E; exact I).
    rewrite (mint_handle_healthy sid w H).
    rewrite (set_handle_no_row sid _ (w_saved w) E).
    set (w' := set_saved (w_saved w) (set_txn (w_saved w) (set_uuids (S (w_uuids w)) w))).
    assert (H' : healthy w').
    { destruct w as [c sv tx clk fs u j l p sq]. destruct H as (Hc & Hf & Ht).
      simpl in *. subst. repeat split. }
    exists w'. eexists. eexists. split; [reflexivity|]. split; [exact H'|].
    split; [reflexivity|]. split.
    + rewrite (conversation_handle_mints sid w' H') by (simpl; rewrite E; exact I).
      apply (mint_handle_healthy sid w' H').
    + simpl. unfold uuid_text. intros Heq.
      apply string_app_inv_head in Heq. apply pretty_nat_inj in Heq. lia.
Qed.

Lemma drawn_handle_is_kept_on_existing_row_witness :
  exists w' h2 w'',
    conversation_handle "hermes-agent-b-claude-general" Scenario.world_up
    = (Ok (uuid_text 0), w')
    /\ healthy w'
    /\ w_saved w' = w_saved Scenario.world_up
    /\ conversation_handle "hermes-agent-b-claude-general" w' = (Ok h2, w'')
    /\ h2 <> uuid_text 0.
Proof.
  apply (proj2 (drawn_handle_is_kept_on_existing_row "hermes-agent-b-claude-general"
                  Scenario.world_up ltac:(repeat split))).
  reflexivity.
Defined.

End InvokeExtras.

(** * Further properties of the recovery of a CLI response *)

Section CliExtras.

Lemma find_cons p c s :
  Py.find p (String c s)
  = if Py.startswith p (String c s) then Some 0%nat else S <$> Py.find p s.
Proof. reflexivity. Qed.

Lemma startswith_cons a p b s :
  Py.startswith (String a p) (String b s)
  = if Ascii.eqb a b then Py.startswith p s else false.
Proof. reflexivity. Qed.

Lemma startswith_brace_line c b rest :
  Py.startswith (String Py.newline "{") (String c b) = false ->
  Py.startswith (String Py.newline "{")
    (String c (b ++ String Py.newline (String "{" rest))) = false.
Proof.
  rewrite !startswith_cons. destruct (Ascii.eqb Py.newline c); [|reflexivity].
  destruct b as [|d b']; [reflexivity|].
  rewrite app_cons, !startswith_cons. auto.
Qed.

Lemma find_after_banner banner rest :
  Py.find (String Py.newline "{") banner = None ->
  Py.find (String Py.newline "{") (banner ++ String Py.newline (String "{" rest))
  = Some (String.length banner).
Proof.
  induction banner as [|c b IH]; intros H.
  - rewrite app_nil. reflexivity.
  - rewrite app_cons, find_cons. rewrite find_cons in H.
    destruct (Py.startswith (String Py.newline "{") (String c b)) eqn:Es; [discriminate|].
    rewrite (startswith_brace_line c b rest Es).
    destruct (Py.find (String Py.newline "{") b) eqn:Ef; [discriminate|].
    rewrite (IH eq_refl). reflexivity.
Qed.

Lemma drop_after_banner banner tail :
  Py.drop (String.length banner + 1) (banner ++ String Py.newline tail) = tail.
Proof.
  induction banner as [|c b IH]; [reflexivity|]. rewrite app_cons. simpl. exact IH.
Qed.

Lemma json_part_after_banner banner rest :
  Py.find (String Py.newline "{") banner = None ->
  CLI.json_part (banner ++ String Py.newline (String "{" rest)) = String "{" rest.
Proof.
  intros H. unfold CLI.json_part. rewrite (find_after_banner banner rest H).
  apply drop_after_banner.
Qed.

(** X22.  Lines printed before the JSON object are skipped: when no line
    of the banner starts with a brace, the text that is decoded is the
    object alone, whatever the banner says.  The response of the assistant
    CLI is then the string under [result] and the cost is [cost_usd] (zero
    when absent); the response of the agent CLI, for an object without a
    [result] dictionary, is the value under [response]. *)
Theorem banner_before_json_is_skipped :
  forall banner rest,
    Py.find (String Py.newline "{") banner = None ->
    CLI.json_part (banner ++ String Py.newline (String "{" rest)) = String "{" rest
    /\ (forall data s,
          Json.loads (String "{" rest) = Some (JObject data) ->
          Json.get "result" data = Some (JString s) ->
          CLI.claude_response (banner ++ String Py.newline (String "{" rest))
          = Ok (Lit s, default (JFloat "0.0") (Json.get "cost_usd" data)))
    /\ (forall data v,
          Json.loads (String "{" rest) = Some (JObject data) ->
          Json.get "result" data = None ->
          Json.get "response" data = Some v ->
          CLI.agent_response (banner ++ String Py.newline (String "{" rest)) = Ok v).
Proof.
  intros banner rest H. pose proof (json_part_after_banner banner rest H) as Hp.
  split; [exact Hp|]. split.
  - intros data s Hl Hr. unfold CLI.claude_response. rewrite Hp, Hl, Hr. reflexivity.
  - intros data v Hl Hr Hv. unfold CLI.agent_response. rewrite Hp, Hl, Hr, Hv. reflexivity.
Qed.

Lemma banner_before_json_is_skipped_witness :
  CLI.claude_response
    ("[plugin] loaded" ++ String Py.newline (String "{" (Json.dq "'result':'hello'}")))
  = Ok (Lit "hello", JFloat "0.0").
Proof.
  apply (proj1 (proj2 (banner_before_json_is_skipped "[plugin] loaded"
                         (Json.dq "'result':'hello'}") eq_refl))
           [("result", JString "hello")] "hello"); reflexivity.
Defined.

End CliExtras.

(** * The agent endpoint *)

Section EndpointExtras.
Import Eff Spec Store.














End EndpointExtras.

(** * The event endpoints and the life of an event *)

Section EventExtras.
Import Eff Spec Store Drain Events.

Lemma purge_healthy w :
  healthy w ->
  purge_delivered_events w
  = (Ok (Body (length (List.filter is_delivered (hermes_event_outbox (w_saved w))))),
     let d := default (w_saved w) (delete_delivered (w_saved w)) in
     set_saved d (set_txn d w)).
Proof.
  intros H. unfold purge_delivered_events, mbind at 1, M_bind at 1.
  rewrite (get_pg_healthy w H).
  destruct w as [c sv tx clk fs u j l p sq]. destruct H as (Hc & Hf & Ht).
  simpl in Hc, Hf, Ht. subst. reflexivity.
Qed.

Lemma filter_none {A} (p : A -> bool) l :
  (forall x, In x l -> p x = false) -> List.filter p l = [].
Proof.
  induction l as [|a l IH]; intros H; [reflexivity|]. simpl.
  rewrite (H a (or_introl eq_refl)). apply IH. intros x Hx. apply H. right. exact Hx.
Qed.

Lemma filter_all {A} (p : A -> bool) l :
  (forall x, In x l -> p x = true) -> List.filter p l = l.
Proof.
  induction l as [|a l IH]; intros H; [reflexivity|]. simpl.
  rewrite (H a (or_introl eq_refl)). f_equal. apply IH. intros x Hx. apply H. right. exact Hx.
Qed.

Lemma filter_filter_sub {A} (p q : A -> bool) l :
  (forall x, p x = true -> q x = true) ->
  List.filter p (List.filter q l) = List.filter p l.
Proof.
  intros H. induction l as [|a l IH]; [reflexivity|]. simpl.
  destruct (q a) eqn:Eq; simpl.
  - destruct (p a); [f_equal|]; exact IH.
  - destruct (p a) eqn:Ep; [|exact IH]. rewrite (H a Ep) in Eq. discriminate.
Qed.

Lemma eligible_not_delivered x : eligible x = true -> negb (is_delivered x) = true.
Proof.
  intros [Hs _]%eligible_spec. unfold is_delivered.
  destruct (bool_decide_reflect (o_status x = delivered)); [congruence | reflexivity].
Qed.

Lemma delete_delivered_fixed d :
  (forall x, In x (hermes_event_outbox d) -> is_delivered x = false) ->
  default d (delete_delivered d) = d.
Proof.
  destruct d as [ss al ob]. unfold delete_delivered. simpl. intros H. f_equal.
  apply filter_all. intros x Hx. rewrite (H x Hx). reflexivity.
Qed.

(** X25.  On a store that answers, the purge removes the delivered rows
    and nothing else: it reports how many rows were delivered, the outbox
    afterwards holds exactly the other rows in their order, sessions and
    audit log are untouched, and the batch the worker would pick is the
    same before and after.  Purging again removes nothing. *)
Theorem purge_removes_delivered_rows_only :
  forall w,
    healthy w ->
    exists w',
      purge_delivered_events w
      = (Ok (Body (length (List.filter is_delivered (hermes_event_outbox (w_saved w))))), w')
      /\ healthy w'
      /\ hermes_event_outbox (w_saved w')
         = List.filter (fun r => negb (is_delivered r)) (hermes_event_outbox (w_saved w))
      /\ (forall r, In r (hermes_event_outbox (w_saved w')) <->
                    In r (hermes_event_outbox (w_saved w)) /\ o_status r <> delivered)
      /\ hermes_sessions (w_saved w') = hermes_sessions (w_saved w)
      /\ hermes_audit_log (w_saved w') = hermes_audit_log (w_saved w)
      /\ select_batch (hermes_event_outbox (w_saved w'))
         = select_batch (hermes_event_outbox (w_saved w))
      /\ purge_delivered_events w' = (Ok (Body 0%nat), w').
Proof.
  intros w H. rewrite (purge_healthy w H). eexists. split; [reflexivity|].
  set (w' := let d := default (w_saved w) (delete_delivered (w_saved w)) in
             set_saved d (set_txn d w)).
  assert (H' : healthy w').
  { destruct w as [c sv tx clk fs u j l p sq]. destruct H as (Hc & Hf & Ht).
    simpl in *. subst. repeat split. }
  assert (Hout : hermes_event_outbox (w_saved w')
                 = List.filter (fun r => negb (is_delivered r))
                     (hermes_event_outbox (w_saved w))) by reflexivity.
  split; [exact H'|]. split; [exact Hout|]. split.
  { intros r. rewrite Hout, filter_In. unfold is_delivered.
    destruct (bool_decide_reflect (o_status r = delivered)); simpl; intuition congruence. }
  split; [reflexivity|]. split; [reflexivity|]. split.
  { rewrite Hout. unfold select_batch. f_equal. f_equal.
    apply filter_filter_sub. intros x. apply eligible_not_delivered. }
  rewrite (purge_healthy w' H').
  assert (Hclean : forall x, In x (hermes_event_outbox (w_saved w')) ->
                             is_delivered x = false).
  { intros x. rewrite Hout. intros [_ Hx]%filter_In.
    destruct (is_delivered x); [discriminate | reflexivity]. }
  pose proof (delete_delivered_fixed (w_saved w') Hclean) as Hsame.
  rewrite (filter_none is_delivered _ Hclean). f_equal.
  cbv zeta. rewrite Hsame.
  clearbody w'. destruct w' as [c sv tx clk fs u j l p sq]. destruct H' as (Hc & Hf & Ht).
  simpl in *. subst. reflexivity.
Qed.

Lemma purge_removes_delivered_rows_only_witness :
  exists w',
    purge_delivered_events
      (set_saved (db_with_outbox Scenario.mixed_events)
         (set_txn (db_with_outbox Scenario.mixed_events) Scenario.world_up))
    = (Ok (Body 1%nat), w')
    /\ List.map o_id (hermes_event_outbox (w_saved w')) = [2; 3].
Proof.
  destruct (purge_removes_delivered_rows_only
              (set_saved (db_with_outbox Scenario.mixed_events)
                 (set_txn (db_with_outbox Scenario.mixed_events) Scenario.world_up))
              ltac:(repeat split)) as (w' & E & _ & Hout & _).
  exists w'. split; [exact E|]. rewrite Hout. reflexivity.
Defined.

Lemma emitted_row_eligible cfg webhooks ty src payload id now :
  eligible (emitted_row cfg webhooks ty src payload id now) = true.
Proof. apply eligible_spec. split; [reflexivity | unfold MAX_ATTEMPTS; simpl; lia]. Qed.

Lemma small_batch_is_whole table y :
  (length (List.filter eligible table) <= BATCH_SIZE)%nat ->
  In y table -> eligible y = true -> In y (select_batch table).
Proof.
  intros Hlen Hy He. unfold select_batch. rewrite take_ge.
  - apply sorted_eligible_In; assumption.
  - rewrite (Permutation_length (merge_sort_Permutation older _)). exact Hlen.
Qed.

(** X26.  The life of an event on a store that answers, with
    [event_webhooks] a dictionary or missing and the ids of the outbox all
    drawn from the sequence.  An event handed to [submit_event] is
    answered [queued] and is the last row of the outbox, with the next
    value of the sequence as its id and the [NOW()] of its transaction as
    its creation time; when fewer than twenty deliverable rows were
    waiting it is in the worker's next batch; a pass that meets no
    connection failure and gets a status below 400 for it POSTs it and
    leaves it delivered, stamped by the pass; and a purge of the drained
    table removes it.  When [get_pg] finds no connection the answer is
    [queued] all the same and nothing is stored; when the store answers
    and [event_webhooks] has another type, [submit_event] raises
    [AttributeError] and nothing is stored. *)
Theorem submitted_event_is_delivered_then_purged :
  (forall cfg pol ty src payload w post now,
      healthy w ->
      webhooks_shape_ok pol = true ->
      ids_drawn w ->
      List.NoDup (List.map o_id (hermes_event_outbox (w_saved w))) ->
      (length (List.filter eligible (hermes_event_outbox (w_saved w))) < BATCH_SIZE)%nat ->
      (forall x, In x (select_batch
                         (hermes_event_outbox (w_saved w)
                          ++ [emitted_row cfg (webhooks_dict pol) ty src payload
                                (w_outbox_seq w + 1) (w_clock w)])) ->
                 post x <> ConnectError) ->
      (exists c, post (emitted_row cfg (webhooks_dict pol) ty src payload
                         (w_outbox_seq w + 1) (w_clock w)) = Response c /\ c < 400) ->
      exists w1 e,
        e = emitted_row cfg (webhooks_dict pol) ty src payload
              (w_outbox_seq w + 1) (w_clock w)
        /\ submit_event cfg pol ty src payload w = (Ok (Body ("queued", ty)), w1)
        /\ hermes_event_outbox (w_saved w1) = hermes_event_outbox (w_saved w) ++ [e]
        /\ In e (select_batch (hermes_event_outbox (w_saved w1)))
        /\ In (o_id e) (snd (drain_cycle post now (hermes_event_outbox (w_saved w1))))
        /\ In (with_delivery now e)
              (fst (drain_cycle post now (hermes_event_outbox (w_saved w1))))
        /\ forall w2,
             healthy w2 ->
             hermes_event_outbox (w_saved w2)
             = fst (drain_cycle post now (hermes_event_outbox (w_saved w1))) ->
             ~ In (o_id e)
                  (List.map o_id
                     (hermes_event_outbox (w_saved (snd (purge_delivered_events w2))))))
  /\ (forall cfg pol ty src payload w w1,
      get_pg w = (Ok false, w1) ->
      exists w',
        submit_event cfg pol ty src payload w = (Ok (Body ("queued", ty)), w')
        /\ w_saved w' = w_saved w)
  /\ (forall cfg pol ty src payload w,
      healthy w ->
      webhooks_shape_ok pol = false ->
      submit_event cfg pol ty src payload w = (Exn AttributeError, w)).
Proof.
  split; [|split].
  - intros cfg pol ty src payload w post now H Hshape Hids Hnd Hlen Hok (c & Hpost & Hc).
    set (table := hermes_event_outbox (w_saved w)) in *.
    set (e := emitted_row cfg (webhooks_dict pol) ty src payload
                (w_outbox_seq w + 1) (w_clock w)) in *.
    assert (He : eligible e = true) by apply emitted_row_eligible.
    pose proof (ids_drawn_not_in _ _ Hids) as Hfresh. fold table in Hfresh.
    assert (Hsub : exists w1,
               submit_event cfg pol ty src payload w = (Ok (Body ("queued", ty)), w1)
               /\ hermes_event_outbox (w_saved w1) = table ++ [e]).
    { unfold submit_event, mbind, M_bind.
      rewrite (emit_event_healthy cfg pol ty src payload w H Hshape).
      unfold Outbox.add_event. rewrite (ids_drawn_fresh _ _ Hids).
      eexists. split; [reflexivity|]. reflexivity. }
    destruct Hsub as (w1 & Esub & Hout).
    exists w1, e. split; [reflexivity|]. split; [exact Esub|]. split; [exact Hout|].
    rewrite Hout.
    assert (Hnd1 : List.NoDup (List.map o_id (table ++ [e]))).
    { rewrite List.map_app. simpl.
      apply List.NoDup_app; [exact Hnd | repeat constructor; simpl; tauto|].
      intros a Ha [<-|[]]. exact (Hfresh Ha). }
    assert (Hin : In e (table ++ [e])) by (apply in_or_app; right; left; reflexivity).
    assert (Hbatch : In e (select_batch (table ++ [e]))).
    { apply small_batch_is_whole; [|exact Hin | exact He].
      rewrite List.filter_app, length_app.
      change (List.filter eligible [e]) with (if eligible e then [e] else []).
      rewrite He. change (length [e]) with 1%nat.
      unfold BATCH_SIZE in *. lia. }
    split; [exact Hbatch|].
    rewrite (drain_cycle_rows post now _ Hnd1), (tried_rows_all post _ Hok). simpl.
    assert (Hid : In (o_id e)
                    (List.map o_id (tried_rows post (select_batch (table ++ [e])))))
      by (rewrite (tried_rows_all post _ Hok); apply in_map, Hbatch).
    destruct (cycle_row_tried post now _ e Hnd1 Hin Hid) as (_ & _ & Hrow).
    assert (Hdel : cycle_row post now (table ++ [e]) e = with_delivery now e).
    { rewrite Hrow. unfold outcome. rewrite Hpost.
      destruct (Z.ltb_spec c 400); [reflexivity | lia]. }
    split; [exact (in_map o_id _ e Hbatch)|].
    split; [rewrite <- Hdel; apply in_map, Hin|].
    intros w2 H2 Hout2.
    rewrite (purge_healthy w2 H2). simpl. rewrite Hout2.
    intros (r & Hr & [Hrin Hrd]%filter_In)%in_map_iff.
    assert (r = with_delivery now e) as ->.
    { apply (unique_ids (List.map (cycle_row post now (table ++ [e])) (table ++ [e])));
        [rewrite cycle_ids; exact Hnd1 | exact Hrin | | exact Hr].
      rewrite <- Hdel. apply in_map, Hin. }
    discriminate Hrd.
  - intros cfg pol ty src payload w w1 E.
    destruct (emit_event_drops cfg pol ty src payload w w1 E) as [Ee Hs].
    eexists. unfold submit_event, mbind, M_bind. rewrite Ee.
    split; [reflexivity | exact Hs].
  - intros cfg pol ty src payload w H Hbad.
    unfold submit_event, mbind, M_bind.
    rewrite (emit_event_raises cfg pol ty src payload w w Hbad (get_pg_healthy w H)).
    reflexivity.
Qed.

Lemma submitted_event_is_delivered_then_purged_witness :
  exists w1 e,
    e = emitted_row Scenario.cfg ∅ "task.created" "agent-a" "{}" 1 1000
    /\ submit_event Scenario.cfg empty_policy "task.created" "agent-a" "{}" Scenario.world_up
       = (Ok (Body ("queued", "task.created")), w1)
    /\ hermes_event_outbox (w_saved w1) = [] ++ [e]
    /\ In e (select_batch (hermes_event_outbox (w_saved w1))).
Proof.
  destruct (proj1 submitted_event_is_delivered_then_purged Scenario.cfg empty_policy
              "task.created" "agent-a" "{}" Scenario.world_up
              (fun _ => Response 200) 1005%Q
              ltac:(repeat split) eq_refl ltac:(constructor) ltac:(constructor)
              ltac:(vm_compute; lia) ltac:(discriminate)
              ltac:(exists 200; split; [reflexivity | lia]))
    as (w1 & e & He & Es & Ho & Hb & _).
  exists w1, e. auto.
Defined.

End EventExtras.

(** * Compaction and start-up *)

Section CompactExtras.
Import Eff Spec.

(** X27.  Compaction is always requested with priority [high].  A caller
    whose allowed priorities do not list it, which includes every caller
    the policy does not configure and so the default caller [dashboard],
    is never served: the endpoint starts no process, leaves the world as
    it is, does not charge the caller and answers with an error.  A caller
    that passes the gate is charged before the script is looked for, so a
    missing script costs a call. *)
Theorem compaction_needs_high_priority :
  forall python script script_exists pol tm req run rc w,
    (~ In "high" (default ["low"; "normal"]
                    (priority_levels (get_agent_limits pol (Compact.caller_id req)))) ->
     snd (fst (Compact.trigger_compaction python script script_exists pol tm req run rc w))
     = w
     /\ (forall b, fst (fst (Compact.trigger_compaction python script script_exists pol tm
                               req run rc w)) <> Ok (Body b))
     /\ (length (Rate.calls_of
                   (snd (Compact.trigger_compaction python script script_exists pol tm req
                           run rc w)) (Compact.caller_id req))
         <= length (Rate.calls_of rc (Compact.caller_id req)))%nat)
    /\ (per_agent pol !! Compact.caller_id req = None ->
        ~ In "high" (default ["low"; "normal"]
                       (priority_levels (get_agent_limits pol (Compact.caller_id req)))))
    /\ (forall rc1,
          Gate.enforce_policy pol (t_hour tm) (t_check tm) (Compact.caller_id req) "/compact"
            "high" rc = (Ok None, rc1) ->
          Compact.trigger_compaction python script false pol tm req run rc w
          = (Ok (HTTPException 404 (ErrText "compact_session.py not found")), w,
             Rate.record_call (t_record tm) (Compact.caller_id req) rc1)).
Proof.
  intros python script script_exists pol tm req run rc w. split; [|split].
  - intros Hno. unfold Compact.trigger_compaction.
    destruct (Gate.enforce_policy pol (t_hour tm) (t_check tm) (Compact.caller_id req)
                "/compact" "high" rc) as [[[reason|]|e] rc1] eqn:Hg.
    + simpl. split; [reflexivity|]. split; [discriminate|].
      destruct (enforce_counters pol _ _ _ _ _ _ _ _ Hg) as [-> | ->]; [lia|].
      rewrite calls_of_prune. destruct (decide _); [|congruence]. apply filter_length_le.
    + destruct (enforce_allow_request pol _ _ _ _ _ _ _ Hg) as [Hin _]. contradiction.
    + simpl. split; [reflexivity|]. split; [discriminate|].
      destruct (enforce_counters pol _ _ _ _ _ _ _ _ Hg) as [-> | ->]; [lia|].
      rewrite calls_of_prune. destruct (decide _); [|congruence]. apply filter_length_le.
  - intros Hnone. unfold get_agent_limits. rewrite Hnone. simpl.
    intros [H|[H|[]]]; discriminate.
  - intros rc1 Hg. unfold Compact.trigger_compaction. rewrite Hg. reflexivity.
Qed.

Lemma compaction_needs_high_priority_witness :
  snd (fst (Compact.trigger_compaction "python3" "compact_session.py" true empty_policy
              EndpointScenario.at_noon
              {| Compact.agent := "main"; Compact.threshold := 150000;
                 Compact.skip_summary := false; Compact.caller_id := "dashboard" |}
              Hangs ∅ Scenario.world_up))
  = Scenario.world_up.
Proof.
  apply (proj1 (compaction_needs_high_priority "python3" "compact_session.py" true
                  empty_policy EndpointScenario.at_noon
                  {| Compact.agent := "main"; Compact.threshold := 150000;
                     Compact.skip_summary := false; Compact.caller_id := "dashboard" |}
                  Hangs ∅ Scenario.world_up)).
  simpl. intros [H|[H|[]]]; discriminate.
Defined.

End CompactExtras.

Section StartupExtras.
Import Eff Spec Store Lifespan.

Lemma preserves_ret {A} I (a : A) : preserves I (mret a).
Proof. intros w r w' H [= _ <-]. exact H. Qed.

Lemma preserves_bind {A B} I (m : M A) (k : A -> M B) :
  preserves I m -> (forall a, preserves I (k a)) -> preserves I (m ≫= k).
Proof.
  intros Hm Hk w r w' H. unfold mbind, M_bind.
  destruct (m w) as [[a|e] w1] eqn:E.
  - apply (Hk a). apply (Hm _ _ _ H E).
  - intros [= _ <-]. apply (Hm _ _ _ H E).
Qed.

Lemma preserves_try_except {A} I (body : M A) handler :
  preserves I body -> (forall e, preserves I (handler e)) ->
  preserves I (try_except body handler).
Proof.
  intros Hb Hh w r w' H. unfold try_except.
  destruct (body w) as [[a|e] w1] eqn:E.
  - intros [= _ <-]. apply (Hb _ _ _ H E).
  - apply (Hh e). apply (Hb _ _ _ H E).
Qed.

Lemma preserves_modify I f :
  (forall w, I w -> I (f w)) -> preserves I (modify f).
Proof. intros Hf w r w' H [= _ <-]. apply Hf, H. Qed.

Section Settled.
Variable d : db.

Lemma settled_fallible e : preserves (settled d) (fallible e).
Proof.
  intros w r w' H. unfold fallible.
  destruct (w_faults w) as [|[|] fs]; intros [= _ <-]; exact H.
Qed.

Lemma settled_log lvl msg : preserves (settled d) (log lvl msg).
Proof. apply preserves_modify. intros w H. exact H. Qed.

Lemma settled_create : preserves (settled d) (pg_execute create_if_not_exists).
Proof.
  apply preserves_bind; [apply settled_fallible|]. intros _.
  intros w r w' H. unfold mbind, M_bind, get, put. simpl. intros [= _ <-]. exact H.
Qed.

Lemma settled_commit : preserves (settled d) pg_commit.
Proof.
  apply preserves_bind; [apply settled_fallible|]. intros _.
  apply preserves_modify. intros w [H1 H2]. split; simpl; congruence.
Qed.

Lemma settled_rollback : preserves (settled d) pg_rollback.
Proof.
  apply preserves_bind; [apply settled_fallible|]. intros _.
  apply preserves_modify. intros w [H1 H2]. split; simpl; congruence.
Qed.

Lemma settled_get_pg : preserves (settled d) get_pg.
Proof.
  intros w r w' [H1 H2] E.
  destruct (get_pg_outcome w) as (b & w1 & E1 & _ & Hs & _ & Ht).
  rewrite E in E1. injection E1 as -> ->.
  split; [apply Ht, H1 | congruence].
Qed.

Lemma settled_init_pg_tables : preserves (settled d) init_pg_tables.
Proof.
  apply preserves_bind; [apply settled_get_pg|]. intros conn.
  destruct conn; [|apply preserves_ret].
  apply preserves_try_except.
  - apply preserves_bind; [apply settled_fallible|]. intros _.
    repeat (apply preserves_bind; [apply settled_create|]; intros _).
    apply preserves_bind; [apply settled_commit|]. intros _. apply settled_log.
  - intros e. apply preserves_bind; [apply settled_rollback|]. intros _.
    apply settled_log.
Qed.

Lemma settled_attempt : preserves (settled d) (init_pg_tables ;; get_pg).
Proof.
  apply preserves_bind; [apply settled_init_pg_tables|]. intros _.
  apply settled_get_pg.
Qed.

Lemma wait_for_postgres_settled attempts : forall w,
  settled d w -> settled d (snd (fst (wait_for_postgres attempts w))).
Proof.
  induction attempts as [|a attempts IH]; intros w H; simpl; [exact H|].
  destruct ((init_pg_tables ;; get_pg) w) as [[[|]|e] w1] eqn:E;
    pose proof (settled_attempt _ _ _ H E) as H1; simpl; try exact H1.
  unfold log, modify.
  specialize (IH (set_log (w_log w1 ++ [(WARNING, "Waiting for Postgres")]) w1) H1).
  destruct (wait_for_postgres attempts _) as [[r w2] s]. exact IH.
Qed.

End Settled.

Lemma sleep_budget_nonneg attempts :
  (forall a, In a attempts -> 0 <= a) -> 0 <= sleep_budget attempts.
Proof.
  induction attempts as [|a l IH]; intros Hpos; simpl; [lia|].
  assert (0 <= wait_of a) by (unfold wait_of; specialize (Hpos a (or_introl eq_refl)); lia).
  assert (0 <= sleep_budget l) by (apply IH; intros x Hx; apply Hpos; right; exact Hx).
  lia.
Qed.

Lemma wait_for_postgres_slept attempts : forall w,
  (forall a, In a attempts -> 0 <= a) ->
  0 <= snd (wait_for_postgres attempts w) <= sleep_budget attempts.
Proof.
  induction attempts as [|a attempts IH]; intros w Hpos; simpl; [lia|].
  assert (Ha : 0 <= wait_of a)
    by (unfold wait_of; specialize (Hpos a (or_introl eq_refl)); lia).
  assert (Hpos' : forall x, In x attempts -> 0 <= x)
    by (intros x Hx; apply Hpos; right; exact Hx).
  pose proof (sleep_budget_nonneg attempts Hpos') as Hb.
  destruct ((init_pg_tables ;; get_pg) w) as [[[|]|e] w1]; simpl; try lia.
  unfold log, modify.
  specialize (IH (set_log (w_log w1 ++ [(WARNING, "Waiting for Postgres")]) w1) Hpos').
  destruct (wait_for_postgres attempts _) as [[r w2] s]. simpl in *. lia.
Qed.

Lemma init_then_get_pg_healthy w :
  healthy w ->
  (init_pg_tables ;; get_pg) w
  = (Ok true, set_log (w_log w ++ [(INFO, "Postgres tables ready")]) w).
Proof.
  destruct w as [c sv tx clk fs u j l p sq]. intros (Hc & Hf & Ht).
  simpl in Hc, Hf, Ht. subst. reflexivity.
Qed.

Lemma attempts_nonneg a : In a (seqZ 0 10) -> 0 <= a.
Proof. intros Ha. apply list_elem_of_In, elem_of_seqZ in Ha. lia. Qed.

(** X28.  Start-up waits for the store at most 88 seconds in all,
    whether it then goes on or fails, and it changes no stored row: from
    a state with nothing uncommitted the committed tables are the same
    afterwards.  When the store answers at once there is no wait at all,
    and start-up succeeds. *)
Theorem startup_waits_at_most_88_seconds :
  forall w,
    0 <= snd (startup w) <= 88
    /\ (w_txn w = w_saved w -> w_saved (snd (fst (startup w))) = w_saved w)
    /\ (healthy w -> fst (fst (startup w)) = Ok tt /\ snd (startup w) = 0).
Proof.
  intros w. unfold startup. split; [|split].
  - pose proof (wait_for_postgres_slept (seqZ 0 10) w attempts_nonneg) as Hb.
    change (sleep_budget (seqZ 0 10)) with 88 in Hb.
    destruct (wait_for_postgres (seqZ 0 10) w) as [[[[]|e] w1] s]; simpl in *; exact Hb.
  - intros Hclean.
    pose proof (wait_for_postgres_settled (w_saved w) (seqZ 0 10) w
                  (conj Hclean eq_refl)) as [_ Hs].
    destruct (wait_for_postgres (seqZ 0 10) w) as [[[[]|e] w1] s]; simpl in *; exact Hs.
  - intros H. change (seqZ 0 10) with (0 :: seqZ 1 9).
    cbn [wait_for_postgres]. rewrite (init_then_get_pg_healthy w H). simpl. auto.
Qed.

Lemma startup_waits_at_most_88_seconds_witness :
  fst (fst (startup Scenario.world_up)) = Ok tt /\ snd (startup Scenario.world_up) = 0.
Proof.
  apply (proj2 (proj2 (startup_waits_at_most_88_seconds Scenario.world_up))).
  repeat split.
Defined.

End StartupExtras.

(** * Triggering a workflow *)

Section TriggerExtras.
Import Eff Spec Store.



End TriggerExtras.
